(** * Enqueuers of [keras_extensions/utils/data_utils.py]

    A shallow embedding of [OrderedEnqueuer] and [GeneratorEnqueuer].

    The two classes coordinate several threads (the caller of [start] and
    [stop], the run thread, the pool workers and the consumer of [get]).
    Each thread is embedded as a program counter plus an executable step
    function over one shared state; a [label] names the thread that moves
    and the value of whatever the environment decides at that step (the
    permutation drawn by [random.shuffle], the worker that serves a pool
    request, a join that times out).  A run is a list of labels. *)

From stdpp Require Import base option list gmap sets sorting.
From Stdlib Require Import ZArith Lia.

#[local] Set Warnings "-clear-no-such-hyp".

Local Open Scope Z_scope.
Local Open Scope nat_scope.

(** ** Python values shared by both classes *)

(** The exceptions the modelled statements can raise.  [WorkError] stands for
    whatever the work source itself raises. *)
Inductive pyexn (E : Type) : Type :=
| AttributeError            (* attribute access on [None] *)
| KeyError                  (* missing dictionary key *)
| TypeError                 (* [len(None)] *)
| ValueError                (* a pool of fewer than one worker *)
| PoolNotRunning            (* [apply]/[apply_async] on a closed pool *)
| WorkError (e : E).
Arguments AttributeError {E}.
Arguments KeyError {E}.
Arguments TypeError {E}.
Arguments ValueError {E}.
Arguments PoolNotRunning {E}.
Arguments WorkError {E} e.

(** Result of a Python call: a value or a raised exception. *)
Inductive res (E A : Type) : Type :=
| Ok (a : A)
| Err (x : pyexn E).
Arguments Ok {E A} a.
Arguments Err {E A} x.

Definition res_bind {E A B} (m : res E A) (f : A → res E B) : res E B :=
  match m with Ok a => f a | Err x => Err x end.

Notation "x ←! m ; k" := (res_bind m (fun x => k))
  (at level 20, m at level 100, k at level 200, only parsing).

(** [threading.Event]: an attribute holding [None] or an event with its flag.
    [ev.is_set()] and [ev.set()] on [None] raise [AttributeError]. *)
Definition event_is_set {E} (ev : option bool) : res E bool :=
  match ev with Some b => Ok b | None => Err AttributeError end.

Definition event_set {E} (ev : option bool) : res E (option bool) :=
  match ev with Some _ => Ok (Some true) | None => Err AttributeError end.

(** [queue.Queue(maxsize)]: a FIFO; [maxsize <= 0] means unbounded. *)
Record queue_obj (A : Type) : Type := Queue { maxsize : Z; items : list A }.
Arguments Queue {A} maxsize items.
Arguments maxsize {A} q.
Arguments items {A} q.

(** [Queue.put(block=True)] waits while [maxsize > 0] and the queue holds
    [maxsize] items. *)
Definition put_blocks {A} (q : queue_obj A) : bool :=
  bool_decide (0 < maxsize q)%Z && bool_decide (Z.of_nat (length (items q)) = maxsize q).

Definition q_put {A} (x : A) (q : queue_obj A) : queue_obj A :=
  Queue (maxsize q) (items q ++ [x]).

Definition q_clear {A} (q : queue_obj A) : queue_obj A := Queue (maxsize q) [].

Definition q_empty {A} (q : queue_obj A) : bool :=
  match items q with [] => true | _ => false end.

(** ** OrderedEnqueuer *)

Module Ordered.

(** Program counter of the run thread, i.e. of [_run] with [_send_sequence]
    inlined.  [cont] remembers which of the two calls of [_send_sequence] is
    being executed. *)
Inductive cont : Type :=
| KInit     (* [self._send_sequence()  # Share the initial sequence] *)
| KEpoch.   (* [self._send_sequence()  # Update the pool] *)

Inductive sched_pc (E : Type) : Type :=
| PcEnter                               (* [sequence = list(range(len(self.sequence)))] *)
| PcSend (k : cont)                     (* [_SHARED_SEQUENCES[self.uuid] = self.sequence] *)
| PcAck (k : cont)                      (* [while len(_SHARED_DICTS[..]) < self.workers and ..] *)
| PcHead                                (* [while True:] and the [max_epoch] test *)
| PcShuffle                             (* [random.shuffle(sequence)] *)
| PcFor (rest : list nat)               (* [for b_idx in sequence:] and the stop test *)
| PcSubmit (b : nat) (rest : list nat)  (* [self.executor.apply_async(get_index, ..)] *)
| PcPut (fid : nat) (rest : list nat)   (* [self.queue.put(.., block=True)] *)
| PcBarrier                             (* [while not self.queue.empty(): pass] *)
| PcEpochEnd                            (* [self.sequence.on_epoch_end()] *)
| PcInc                                 (* [self.e_idx += 1] *)
| PcExit (x : option (pyexn E)).        (* thread over: [break]/[return], or uncaught *)
Arguments PcEnter {E}.
Arguments PcSend {E} k.
Arguments PcAck {E} k.
Arguments PcHead {E}.
Arguments PcShuffle {E}.
Arguments PcFor {E} rest.
Arguments PcSubmit {E} b rest.
Arguments PcPut {E} fid rest.
Arguments PcBarrier {E}.
Arguments PcEpochEnd {E}.
Arguments PcInc {E}.
Arguments PcExit {E} x.

(** Program counter inside [stop]. *)
Inductive stop_pc : Type :=
| StSet          (* [self.stop_signal.set()] *)
| StClear        (* [with self.queue.mutex: .. clear .. notify] *)
| StClose        (* [self.executor.close()] *)
| StJoinPool     (* [self.executor.join()] *)
| StJoinThread   (* [self.run_thread.join(timeout)] *)
| StCleanup.     (* the writes to [_SHARED_SEQUENCES] and [_SHARED_DICTS] *)

(** How the generator returned by [get] ended. *)
Inductive gen_end (E : Type) : Type :=
| Exhausted                          (* the [while] test failed *)
| StopIterationOf (cause : pyexn E)  (* [raise StopIteration(e)] *)
| Uncaught (x : pyexn E).            (* raised inside the handler itself *)
Arguments Exhausted {E}.
Arguments StopIterationOf {E} cause.
Arguments Uncaught {E} x.

(** Program counter of the generator returned by [get]. *)
Inductive gen_pc (E : Type) : Type :=
| GenLoop                                (* [while self.is_running():] *)
| GenGet                                 (* [self.queue.get(block=True)] *)
| GenResult (fid : nat)                  (* [.get()] on the future *)
| GenStop (pc : stop_pc) (e : pyexn E)   (* [self.stop()] in the handler *)
| GenDone (r : gen_end E).
Arguments GenLoop {E}.
Arguments GenGet {E}.
Arguments GenResult {E} fid.
Arguments GenStop {E} pc e.
Arguments GenDone {E} r.

(** The thread that calls [start] and [stop]. *)
Inductive caller_pc (E : Type) : Type :=
| CallerIdle
| InStop (pc : stop_pc) (timeout : option nat)
| CallerRaised (x : pyexn E).
Arguments CallerIdle {E}.
Arguments InStop {E} pc timeout.
Arguments CallerRaised {E} x.

(** State of a [multiprocessing.Pool] / [ThreadPool]. *)
Inductive pool_state : Type := PoolRun | PoolClosed.

(** The entry of a module-level dictionary at key [self.uuid]. *)
Inductive slot (A : Type) : Type :=
| Absent             (* key not present *)
| IsNone             (* key bound to [None] *)
| Bound (a : A).
Arguments Absent {A}.
Arguments IsNone {A}.
Arguments Bound {A} a.

(** What the run thread does, in program order. *)
Inductive event : Type :=
| EvPublish                 (* [_SHARED_SEQUENCES[self.uuid] = self.sequence] *)
| EvSubmit (e b : nat)      (* [apply_async(get_index, (uuid, e, b))] *)
| EvDrained                 (* [self.queue.empty()] answered [True] at the barrier *)
| EvEpochEnd                (* [self.sequence.on_epoch_end()] *)
| EvInc.                    (* [self.e_idx += 1] *)

Global Instance event_eq_dec : EqDecision event.
Proof. solve_decision. Defined.

Global Instance stop_pc_eq_dec : EqDecision stop_pc.
Proof. solve_decision. Defined.

Section WorkSource.

(** The [Sequence] capability: the state of the object behind
    [self.sequence], its batches, and what [get_batch] may raise. *)
Context {Seq Batch E : Type}.
Variable seq_len : Seq → nat.                               (* [__len__] *)
Variable get_batch : Seq → nat → nat → res E (option Batch). (* [get_batch(e_idx, b_idx)] *)
Variable on_epoch_end : Seq → Seq.                          (* [on_epoch_end], in place *)

(** An [AsyncResult]: the task it was created for and, once a worker has run
    the task, what [get_index] returned or raised. *)
Record future : Type := Future {
  f_epoch : nat;
  f_index : nat;
  f_result : option (res E (option Batch))
}.

Record state : Type := State {
  (* attributes of [self] *)
  sequence : Seq;
  use_multiprocessing : bool;
  shuffle : bool;
  workers : nat;
  executor : option pool_state;
  queue : option (queue_obj nat);
  run_thread : option (sched_pc E);
  stop_signal : option bool;
  e_idx : nat;
  max_epoch : option nat;
  (* [_SHARED_SEQUENCES] and [_SHARED_DICTS] at [self.uuid]; in the parent
     process the former aliases [self.sequence] *)
  shared_sequence : slot unit;
  shared_dict : slot (gset nat);
  (* [_SHARED_SEQUENCES[uuid]] inside each worker process *)
  replicas : gmap nat Seq;
  (* the local list [sequence] of [_run] *)
  order : list nat;
  (* the futures created by [apply_async], oldest first *)
  futures : list future;
  (* the generator of [get] and the caller of [start]/[stop] *)
  gen : gen_pc E;
  caller : caller_pc E;
  (* history: futures whose [.get()] has returned or raised inside [get],
     what [get] yielded, and the events of the run thread, all oldest first *)
  resolved : list nat;
  yielded : list (nat * Batch);
  log : list event
}.

(** [OrderedEnqueuer.__init__] *)
Definition init (sequence : Seq) (use_multiprocessing shuffle : bool)
    (initial_epoch : nat) (max_epoch : option nat) : state :=
  {| sequence := sequence; use_multiprocessing := use_multiprocessing;
     shuffle := shuffle; workers := 0; executor := None; queue := None;
     run_thread := None; stop_signal := None; e_idx := initial_epoch;
     max_epoch := max_epoch; shared_sequence := Absent; shared_dict := Absent;
     replicas := ∅; order := []; futures := []; gen := GenLoop;
     caller := CallerIdle; resolved := []; yielded := []; log := [] |}.

(** Field updates. *)
Definition set_sequence (v : Seq) (s : state) : state :=
  State v (use_multiprocessing s) (shuffle s) (workers s) (executor s) (queue s)
    (run_thread s) (stop_signal s) (e_idx s) (max_epoch s) (shared_sequence s)
    (shared_dict s) (replicas s) (order s) (futures s) (gen s) (caller s)
    (resolved s) (yielded s) (log s).
Definition set_workers (v : nat) (s : state) : state :=
  State (sequence s) (use_multiprocessing s) (shuffle s) v (executor s) (queue s)
    (run_thread s) (stop_signal s) (e_idx s) (max_epoch s) (shared_sequence s)
    (shared_dict s) (replicas s) (order s) (futures s) (gen s) (caller s)
    (resolved s) (yielded s) (log s).
Definition set_executor (v : option pool_state) (s : state) : state :=
  State (sequence s) (use_multiprocessing s) (shuffle s) (workers s) v (queue s)
    (run_thread s) (stop_signal s) (e_idx s) (max_epoch s) (shared_sequence s)
    (shared_dict s) (replicas s) (order s) (futures s) (gen s) (caller s)
    (resolved s) (yielded s) (log s).
Definition set_queue (v : option (queue_obj nat)) (s : state) : state :=
  State (sequence s) (use_multiprocessing s) (shuffle s) (workers s) (executor s) v
    (run_thread s) (stop_signal s) (e_idx s) (max_epoch s) (shared_sequence s)
    (shared_dict s) (replicas s) (order s) (futures s) (gen s) (caller s)
    (resolved s) (yielded s) (log s).
Definition set_run_thread (v : option (sched_pc E)) (s : state) : state :=
  State (sequence s) (use_multiprocessing s) (shuffle s) (workers s) (executor s)
    (queue s) v (stop_signal s) (e_idx s) (max_epoch s) (shared_sequence s)
    (shared_dict s) (replicas s) (order s) (futures s) (gen s) (caller s)
    (resolved s) (yielded s) (log s).
Definition set_stop_signal (v : option bool) (s : state) : state :=
  State (sequence s) (use_multiprocessing s) (shuffle s) (workers s) (executor s)
    (queue s) (run_thread s) v (e_idx s) (max_epoch s) (shared_sequence s)
    (shared_dict s) (replicas s) (order s) (futures s) (gen s) (caller s)
    (resolved s) (yielded s) (log s).
Definition set_e_idx (v : nat) (s : state) : state :=
  State (sequence s) (use_multiprocessing s) (shuffle s) (workers s) (executor s)
    (queue s) (run_thread s) (stop_signal s) v (max_epoch s) (shared_sequence s)
    (shared_dict s) (replicas s) (order s) (futures s) (gen s) (caller s)
    (resolved s) (yielded s) (log s).
Definition set_shared_sequence (v : slot unit) (s : state) : state :=
  State (sequence s) (use_multiprocessing s) (shuffle s) (workers s) (executor s)
    (queue s) (run_thread s) (stop_signal s) (e_idx s) (max_epoch s) v
    (shared_dict s) (replicas s) (order s) (futures s) (gen s) (caller s)
    (resolved s) (yielded s) (log s).
Definition set_shared_dict (v : slot (gset nat)) (s : state) : state :=
  State (sequence s) (use_multiprocessing s) (shuffle s) (workers s) (executor s)
    (queue s) (run_thread s) (stop_signal s) (e_idx s) (max_epoch s)
    (shared_sequence s) v (replicas s) (order s) (futures s) (gen s) (caller s)
    (resolved s) (yielded s) (log s).
Definition set_replicas (v : gmap nat Seq) (s : state) : state :=
  State (sequence s) (use_multiprocessing s) (shuffle s) (workers s) (executor s)
    (queue s) (run_thread s) (stop_signal s) (e_idx s) (max_epoch s)
    (shared_sequence s) (shared_dict s) v (order s) (futures s) (gen s) (caller s)
    (resolved s) (yielded s) (log s).
Definition set_order (v : list nat) (s : state) : state :=
  State (sequence s) (use_multiprocessing s) (shuffle s) (workers s) (executor s)
    (queue s) (run_thread s) (stop_signal s) (e_idx s) (max_epoch s)
    (shared_sequence s) (shared_dict s) (replicas s) v (futures s) (gen s) (caller s)
    (resolved s) (yielded s) (log s).
Definition set_futures (v : list future) (s : state) : state :=
  State (sequence s) (use_multiprocessing s) (shuffle s) (workers s) (executor s)
    (queue s) (run_thread s) (stop_signal s) (e_idx s) (max_epoch s)
    (shared_sequence s) (shared_dict s) (replicas s) (order s) v (gen s) (caller s)
    (resolved s) (yielded s) (log s).
Definition set_gen (v : gen_pc E) (s : state) : state :=
  State (sequence s) (use_multiprocessing s) (shuffle s) (workers s) (executor s)
    (queue s) (run_thread s) (stop_signal s) (e_idx s) (max_epoch s)
    (shared_sequence s) (shared_dict s) (replicas s) (order s) (futures s) v (caller s)
    (resolved s) (yielded s) (log s).
Definition set_caller (v : caller_pc E) (s : state) : state :=
  State (sequence s) (use_multiprocessing s) (shuffle s) (workers s) (executor s)
    (queue s) (run_thread s) (stop_signal s) (e_idx s) (max_epoch s)
    (shared_sequence s) (shared_dict s) (replicas s) (order s) (futures s) (gen s) v
    (resolved s) (yielded s) (log s).
Definition set_resolved (v : list nat) (s : state) : state :=
  State (sequence s) (use_multiprocessing s) (shuffle s) (workers s) (executor s)
    (queue s) (run_thread s) (stop_signal s) (e_idx s) (max_epoch s)
    (shared_sequence s) (shared_dict s) (replicas s) (order s) (futures s) (gen s)
    (caller s) v (yielded s) (log s).
Definition set_yielded (v : list (nat * Batch)) (s : state) : state :=
  State (sequence s) (use_multiprocessing s) (shuffle s) (workers s) (executor s)
    (queue s) (run_thread s) (stop_signal s) (e_idx s) (max_epoch s)
    (shared_sequence s) (shared_dict s) (replicas s) (order s) (futures s) (gen s)
    (caller s) (resolved s) v (log s).
Definition set_log (v : list event) (s : state) : state :=
  State (sequence s) (use_multiprocessing s) (shuffle s) (workers s) (executor s)
    (queue s) (run_thread s) (stop_signal s) (e_idx s) (max_epoch s)
    (shared_sequence s) (shared_dict s) (replicas s) (order s) (futures s) (gen s)
    (caller s) (resolved s) (yielded s) v.

Definition emit (ev : event) (s : state) : state := set_log (log s ++ [ev]) s.
Definition goto (pc : sched_pc E) (s : state) : state := set_run_thread (Some pc) s.
Definition crash (x : pyexn E) (s : state) : state := goto (PcExit (Some x)) s.

(** [is_running]: [self.stop_signal is not None and not self.stop_signal.is_set()];
    the right operand is evaluated only when the left one holds. *)
Definition is_running (s : state) : res E bool :=
  match stop_signal s with
  | None => Ok false
  | Some _ => b ←! event_is_set (stop_signal s); Ok (negb b)
  end.

(** *** The run thread: [_run] and [_send_sequence] *)

(** What [self.executor.apply(_update_sequence, ..)] did: it was served by the
    worker process [pid], or it raised [socket_error]. *)
Inductive reply : Type :=
| HandledBy (pid : nat)
| SocketError.

(** [clear_shared_dict], when the call to the manager goes through; its
    [except socket_error] branch, which logs and leaves the dict as it is,
    is not modelled. *)
Definition clear_shared_dict (s : state) : state :=
  match shared_dict s with
  | Bound _ => set_shared_dict (Bound ∅) s
  | _ => s
  end.

(** [_update_sequence(uuid, seq)], executed inside worker process [pid] on the
    pickled copy [seq]. *)
Definition update_sequence (pid : nat) (seq : Seq) (s : state) : state :=
  match shared_dict s with
  | Bound d =>
      if decide (pid ∈ d) then s
      else set_shared_dict (Bound ({[pid]} ∪ d))
             (set_replicas (<[pid := seq]> (replicas s)) s)
  | _ => s
  end.

(** The loop test of [_send_sequence]:
    [len(_SHARED_DICTS[self.uuid]) < self.workers and not self.stop_signal.is_set()]. *)
Definition ack_pending (s : state) : res E bool :=
  match shared_dict s with
  | Absent => Err KeyError
  | IsNone => Err TypeError
  | Bound d =>
      if decide (size d < workers s)
      then b ←! event_is_set (stop_signal s); Ok (negb b)
      else Ok false
  end.

(** Where [_run] continues after [_send_sequence] returns. *)
Definition after_send (k : cont) : sched_pc E :=
  match k with KInit => PcHead | KEpoch => PcInc end.

(** [self.max_epoch is not None] and [self.e_idx >= self.max_epoch] *)
Definition epochs_done (s : state) : bool :=
  match max_epoch s with
  | Some m => bool_decide (m ≤ e_idx s)
  | None => false
  end.

Inductive label : Type :=
| Start (workers : nat) (max_queue_size : Z)  (* the caller runs [start] *)
| Run                                         (* the run thread executes its statement *)
| Shuffled (perm : list nat)                  (* .. [random.shuffle] leaving [perm] *)
| Applied (r : reply)                         (* .. one [executor.apply] of the ack loop *)
| Complete (fid pid : nat)                    (* worker [pid] finishes the task of future [fid] *)
| Next                                        (* the consumer drives the generator of [get] *)
| CallStop (timeout : option nat)             (* the caller enters [stop(timeout)] *)
| StopByCaller                                (* the caller's [stop] executes its statement *)
| JoinTimeout                                 (* .. its [run_thread.join(timeout)] times out *)
| StopByGen.                                  (* the [stop] called by [get]'s handler moves *)

Definition sched_step (l : label) (s : state) : option state :=
  match run_thread s with
  | None => None
  | Some pc =>
    match pc, l with
    | PcEnter, Run =>
        Some (goto (PcSend KInit) (set_order (seq 0 (seq_len (sequence s))) s))
    | PcSend k, Run =>
        let s1 := emit EvPublish (set_shared_sequence (Bound ()) s) in
        if use_multiprocessing s
        then Some (goto (PcAck k) (clear_shared_dict s1))
        else Some (goto (after_send k) s1)
    | PcAck k, Run =>
        match ack_pending s with
        | Err x => Some (crash x s)
        | Ok true => None
        | Ok false => Some (goto (after_send k) s)
        end
    | PcAck k, Applied r =>
        match ack_pending s with
        | Ok true =>
            match executor s with
            | Some PoolRun =>
                match r with
                | HandledBy pid =>
                    if decide (pid < workers s)
                    then Some (update_sequence pid (sequence s) s)
                    else None
                | SocketError => Some (goto (after_send k) s)
                end
            | Some PoolClosed => Some (crash PoolNotRunning s)
            | None => Some (crash AttributeError s)
            end
        | _ => None
        end
    | PcHead, Run =>
        if epochs_done s then Some (goto (PcExit None) s)
        else Some (goto (if shuffle s then PcShuffle else PcFor (order s)) s)
    | PcShuffle, Shuffled perm =>
        if decide (perm ≡ₚ order s)
        then Some (goto (PcFor perm) (set_order perm s))
        else None
    | PcFor [], Run => Some (goto PcBarrier s)
    | PcFor (b :: rest), Run =>
        match event_is_set (stop_signal s) with
        | Err x => Some (crash x s)
        | Ok true => Some (goto (PcExit None) s)
        | Ok false => Some (goto (PcSubmit b rest) s)
        end
    | PcSubmit b rest, Run =>
        match executor s with
        | Some PoolRun =>
            Some (goto (PcPut (length (futures s)) rest)
                    (emit (EvSubmit (e_idx s) b)
                       (set_futures (futures s ++ [Future (e_idx s) b None]) s)))
        | Some PoolClosed => Some (crash PoolNotRunning s)
        | None => Some (crash AttributeError s)
        end
    | PcPut f rest, Run =>
        match queue s with
        | Some q =>
            if put_blocks q then None
            else Some (goto (PcFor rest) (set_queue (Some (q_put f q)) s))
        | None => Some (crash AttributeError s)
        end
    | PcBarrier, Run =>
        match queue s with
        | Some q =>
            if q_empty q then Some (goto PcEpochEnd (emit EvDrained s))
            else Some s
        | None => Some (crash AttributeError s)
        end
    | PcEpochEnd, Run =>
        Some (goto (PcSend KEpoch)
                (emit EvEpochEnd (set_sequence (on_epoch_end (sequence s)) s)))
    | PcInc, Run => Some (goto PcHead (emit EvInc (set_e_idx (S (e_idx s)) s)))
    | _, _ => None
    end
  end.

(** *** The pool workers: [get_index] *)

(** [_SHARED_SEQUENCES[uuid].get_batch(e_idx, b_idx)] as seen by worker [pid]:
    threads read the caller's dictionary, processes their own copy. *)
Definition get_index (pid e b : nat) (s : state) : res E (option Batch) :=
  if use_multiprocessing s then
    match replicas s !! pid with
    | Some sq => get_batch sq e b
    | None => Err KeyError
    end
  else
    match shared_sequence s with
    | Bound _ => get_batch (sequence s) e b
    | IsNone => Err AttributeError
    | Absent => Err KeyError
    end.

Definition complete (fid pid : nat) (s : state) : option state :=
  if decide (pid < workers s) then
    match futures s !! fid with
    | Some (Future e b None) =>
        Some (set_futures
                (<[fid := Future e b (Some (get_index pid e b s))]> (futures s)) s)
    | _ => None
    end
  else None.

(** *** [stop] *)

Inductive stop_res : Type :=
| StopAt (pc : stop_pc) (s : state)
| StopRet (s : state)
| StopExc (x : pyexn E) (s : state).

Definition is_exit (pc : sched_pc E) : bool :=
  match pc with PcExit _ => true | _ => false end.

Definition all_done (s : state) : bool :=
  forallb (fun f => match f_result f with Some _ => true | None => false end) (futures s).

(** The last statements of [stop]. *)
Definition cleanup (s : state) : state :=
  let s1 := set_shared_sequence IsNone s in
  if use_multiprocessing s then
    match shared_dict s1 with
    | Bound _ => set_shared_dict IsNone (clear_shared_dict s1)
    | _ => s1
    end
  else s1.

(** One statement of [stop(timeout)].  [timed_out] says that the step is the
    expiry of [run_thread.join(timeout)]. *)
Definition stop_step (timed_out : bool) (timeout : option nat) (pc : stop_pc)
    (s : state) : option stop_res :=
  match pc with
  | StJoinThread =>
      match run_thread s with
      | Some t =>
          if timed_out then
            match timeout with Some _ => Some (StopAt StCleanup s) | None => None end
          else if is_exit t then Some (StopAt StCleanup s) else None
      | None => if timed_out then None else Some (StopExc AttributeError s)
      end
  | _ =>
    if timed_out then None else
    match pc with
    | StSet =>
        match event_set (stop_signal s) with
        | Ok ev => Some (StopAt StClear (set_stop_signal ev s))
        | Err x => Some (StopExc x s)
        end
    | StClear =>
        match queue s with
        | Some q => Some (StopAt StClose (set_queue (Some (q_clear q)) s))
        | None => Some (StopExc AttributeError s)
        end
    | StClose =>
        match executor s with
        | Some _ => Some (StopAt StJoinPool (set_executor (Some PoolClosed) s))
        | None => Some (StopExc AttributeError s)
        end
    | StJoinPool =>
        match executor s with
        | Some PoolClosed => if all_done s then Some (StopAt StJoinThread s) else None
        | Some PoolRun => Some (StopExc ValueError s)
        | None => Some (StopExc AttributeError s)
        end
    | StJoinThread => None
    | StCleanup => Some (StopRet (cleanup s))
    end
  end.

Definition stop_by_caller (timed_out : bool) (s : state) : option state :=
  match caller s with
  | InStop pc tmo =>
      match stop_step timed_out tmo pc s with
      | Some (StopAt pc' s') => Some (set_caller (InStop pc' tmo) s')
      | Some (StopRet s') => Some (set_caller CallerIdle s')
      | Some (StopExc x s') => Some (set_caller (CallerRaised x) s')
      | None => None
      end
  | _ => None
  end.

(** *** [get] *)

(** The statements of the generator outside the handler's [stop]. *)
Definition gen_step (s : state) : option state :=
  match gen s with
  | GenLoop =>
      match is_running s with
      | Ok true => Some (set_gen GenGet s)
      | Ok false => Some (set_gen (GenDone Exhausted) s)
      | Err x => Some (set_gen (GenStop StSet x) s)
      end
  | GenGet =>
      match queue s with
      | Some q =>
          match items q with
          | f :: its =>
              Some (set_gen (GenResult f) (set_queue (Some (Queue (maxsize q) its)) s))
          | [] => None
          end
      | None => Some (set_gen (GenStop StSet AttributeError) s)
      end
  | GenResult f =>
      match futures s !! f with
      | Some fu =>
          let s1 := set_resolved (resolved s ++ [f]) s in
          match f_result fu with
          | Some (Ok (Some v)) =>
              Some (set_gen GenLoop (set_yielded (yielded s ++ [(f, v)]) s1))
          | Some (Ok None) => Some (set_gen GenLoop s1)
          | Some (Err x) => Some (set_gen (GenStop StSet x) s1)
          | None => None
          end
      | None => None
      end
  | GenStop _ _ => None
  | GenDone _ => None
  end.

(** [self.stop()] inside the handler, then [raise StopIteration(e)]. *)
Definition stop_by_gen (s : state) : option state :=
  match gen s with
  | GenStop pc e =>
      match stop_step false None pc s with
      | Some (StopAt pc' s') => Some (set_gen (GenStop pc' e) s')
      | Some (StopRet s') => Some (set_gen (GenDone (StopIterationOf e)) s')
      | Some (StopExc x s') => Some (set_gen (GenDone (Uncaught x)) s')
      | None => None
      end
  | _ => None
  end.

(** *** [start] *)

(** [_initialize_globals(self.uuid)], called by [start] for process workers:
    the manager hands out the shared dict of this uuid. *)
Definition init_globals (s : state) : state :=
  if use_multiprocessing s then set_shared_dict (Bound ∅) s else s.

(** [start(workers, max_queue_size)] on an instance that was not started
    before.  A pool of no worker is refused by the pool constructor. *)
Definition start (w : nat) (c : Z) (s : state) : option state :=
  match caller s, run_thread s with
  | CallerIdle, None =>
      if decide (w = 0)
      then Some (set_caller (CallerRaised ValueError) (init_globals s))
      else Some (set_run_thread (Some PcEnter)
                   (set_stop_signal (Some false)
                      (set_queue (Some (Queue c []))
                         (set_workers w
                            (set_executor (Some PoolRun) (init_globals s))))))
  | _, _ => None
  end.

Definition call_stop (timeout : option nat) (s : state) : option state :=
  match caller s with
  | CallerIdle => Some (set_caller (InStop StSet timeout) s)
  | _ => None
  end.

(** *** Interleavings *)

Definition step (l : label) (s : state) : option state :=
  match l with
  | Start w c => start w c s
  | Run | Shuffled _ | Applied _ => sched_step l s
  | Complete fid pid => complete fid pid s
  | Next => gen_step s
  | CallStop timeout => call_stop timeout s
  | StopByCaller => stop_by_caller false s
  | JoinTimeout => stop_by_caller true s
  | StopByGen => stop_by_gen s
  end.

Fixpoint run (ls : list label) (s : state) : option state :=
  match ls with
  | [] => Some s
  | l :: ls' =>
      match step l s with
      | Some s' => run ls' s'
      | None => None
      end
  end.

Lemma run_app ls1 ls2 s :
  run (ls1 ++ ls2) s = s1 ← run ls1 s; run ls2 s1.
Proof.
  revert s. induction ls1 as [|l ls1 IH]; intros s; simpl; [done|].
  destruct (step l s); simpl; auto.
Qed.

Lemma run_app_Some ls1 ls2 s s1 s2 :
  run ls1 s = Some s1 → run ls2 s1 = Some s2 → run (ls1 ++ ls2) s = Some s2.
Proof. intros H1 H2. rewrite run_app, H1. done. Qed.

Lemma run_snoc ls l s s1 s2 :
  run ls s = Some s1 → step l s1 = Some s2 → run (ls ++ [l]) s = Some s2.
Proof. intros H1 H2. rewrite run_app, H1. simpl. by rewrite H2. Qed.

(** Invariants are proved along runs. *)
Lemma run_ind (P : state → Prop) (ok : label → Prop) :
  (∀ l s s', ok l → step l s = Some s' → P s → P s') →
  ∀ ls s s', Forall ok ls → run ls s = Some s' → P s → P s'.
Proof.
  intros Hstep ls. induction ls as [|l ls IH]; intros s s' Hok Hrun HP.
  - by simplify_eq/=.
  - simpl in Hrun. destruct (step l s) as [s1|] eqn:Hs; [|done].
    apply Forall_cons in Hok as [Hl Hok]. eauto.
Qed.

Lemma run_inv (P : state → Prop) :
  (∀ l s s', step l s = Some s' → P s → P s') →
  ∀ ls s s', run ls s = Some s' → P s → P s'.
Proof.
  intros Hstep ls s s' Hrun. eapply (run_ind P (fun _ => True)); [eauto| |done].
  by apply Forall_true.
Qed.

(** *** The steps, case by case

    [Step] lists the branches of [step] that produce a state; the proofs below
    analyse a step through it ([step_Step]). *)

(** Why a statement of the run thread can raise. *)
Definition crash_cause (s : state) (pc : sched_pc E) : Prop :=
  executor s ≠ Some PoolRun ∨ stop_signal s = None ∨ queue s = None ∨
  ((∃ k, pc = PcAck k) ∧ ∀ d, shared_dict s ≠ Bound d).

Definition stop_lbl (timed_out : bool) : label :=
  if timed_out then JoinTimeout else StopByCaller.

(** The statements of the run thread that touch the pool, the queue, the
    event or the shared dict. *)
Definition can_raise (pc : sched_pc E) : bool :=
  match pc with
  | PcAck _ | PcFor (_ :: _) | PcSubmit _ _ | PcPut _ _ | PcBarrier => true
  | _ => false
  end.

(** What makes each of them raise. *)
Definition crash_at (s : state) (pc : sched_pc E) : Prop :=
  match pc with
  | PcAck _ => True
  | PcFor _ => stop_signal s = None
  | PcSubmit _ _ => executor s ≠ Some PoolRun
  | PcPut _ _ | PcBarrier => queue s = None
  | _ => False
  end.

Definition caller_after (tmo : option nat) (r : stop_res) : state :=
  match r with
  | StopAt pc s => set_caller (InStop pc tmo) s
  | StopRet s => set_caller CallerIdle s
  | StopExc x s => set_caller (CallerRaised x) s
  end.

Definition gen_after (e : pyexn E) (r : stop_res) : state :=
  match r with
  | StopAt pc s => set_gen (GenStop pc e) s
  | StopRet s => set_gen (GenDone (StopIterationOf e)) s
  | StopExc x s => set_gen (GenDone (Uncaught x)) s
  end.

(** What makes a statement of [stop] raise. *)
Definition raise_at (s : state) (pc : stop_pc) : Prop :=
  match pc with
  | StSet => stop_signal s = None
  | StClear => queue s = None
  | StClose => executor s = None
  | StJoinPool => executor s ≠ Some PoolClosed
  | StJoinThread => run_thread s = None
  | StCleanup => False
  end.

Inductive Stop (tmo : option nat) (s : state) : bool → stop_pc → stop_res → Prop :=
| Stop_set b :
    stop_signal s = Some b →
    Stop tmo s false StSet (StopAt StClear (set_stop_signal (Some true) s))
| Stop_clear q :
    queue s = Some q →
    Stop tmo s false StClear (StopAt StClose (set_queue (Some (q_clear q)) s))
| Stop_close p :
    executor s = Some p →
    Stop tmo s false StClose (StopAt StJoinPool (set_executor (Some PoolClosed) s))
| Stop_join_pool :
    executor s = Some PoolClosed → all_done s = true →
    Stop tmo s false StJoinPool (StopAt StJoinThread s)
| Stop_join_thread x :
    run_thread s = Some (PcExit x) →
    Stop tmo s false StJoinThread (StopAt StCleanup s)
| Stop_join_timeout t n :
    run_thread s = Some t → tmo = Some n →
    Stop tmo s true StJoinThread (StopAt StCleanup s)
| Stop_cleanup :
    Stop tmo s false StCleanup (StopRet (cleanup s))
| Stop_raise pc x :
    raise_at s pc →
    Stop tmo s false pc (StopExc x s).

Inductive Step : label → state → state → Prop :=
| Step_start_refused c s :
    caller s = CallerIdle → run_thread s = None →
    Step (Start 0 c) s (set_caller (CallerRaised ValueError) (init_globals s))
| Step_start w c s :
    caller s = CallerIdle → run_thread s = None → w ≠ 0 →
    Step (Start w c) s
      (set_run_thread (Some PcEnter)
         (set_stop_signal (Some false)
            (set_queue (Some (Queue c []))
               (set_workers w (set_executor (Some PoolRun) (init_globals s))))))
| Step_enter s :
    run_thread s = Some PcEnter →
    Step Run s (goto (PcSend KInit) (set_order (seq 0 (seq_len (sequence s))) s))
| Step_send_process k s :
    run_thread s = Some (PcSend k) → use_multiprocessing s = true →
    Step Run s
      (goto (PcAck k)
         (clear_shared_dict (emit EvPublish (set_shared_sequence (Bound ()) s))))
| Step_send_thread k s :
    run_thread s = Some (PcSend k) → use_multiprocessing s = false →
    Step Run s
      (goto (after_send k) (emit EvPublish (set_shared_sequence (Bound ()) s)))
| Step_ack_exit k s :
    run_thread s = Some (PcAck k) → ack_pending s = Ok false →
    Step Run s (goto (after_send k) s)
| Step_ack_reply k pid s :
    run_thread s = Some (PcAck k) → ack_pending s = Ok true →
    executor s = Some PoolRun → pid < workers s →
    Step (Applied (HandledBy pid)) s (update_sequence pid (sequence s) s)
| Step_ack_socket k s :
    run_thread s = Some (PcAck k) → ack_pending s = Ok true →
    executor s = Some PoolRun →
    Step (Applied SocketError) s (goto (after_send k) s)
| Step_crash l pc x s :
    run_thread s = Some pc → can_raise pc = true → crash_cause s pc →
    crash_at s pc →
    Step l s (crash x s)
| Step_break s :
    run_thread s = Some PcHead → epochs_done s = true →
    Step Run s (goto (PcExit None) s)
| Step_head s :
    run_thread s = Some PcHead → epochs_done s = false →
    Step Run s (goto (if shuffle s then PcShuffle else PcFor (order s)) s)
| Step_shuffle perm s :
    run_thread s = Some PcShuffle → perm ≡ₚ order s →
    Step (Shuffled perm) s (goto (PcFor perm) (set_order perm s))
| Step_for_end s :
    run_thread s = Some (PcFor []) →
    Step Run s (goto PcBarrier s)
| Step_for_stop b rest s :
    run_thread s = Some (PcFor (b :: rest)) → stop_signal s = Some true →
    Step Run s (goto (PcExit None) s)
| Step_for_next b rest s :
    run_thread s = Some (PcFor (b :: rest)) → stop_signal s = Some false →
    Step Run s (goto (PcSubmit b rest) s)
| Step_submit b rest s :
    run_thread s = Some (PcSubmit b rest) → executor s = Some PoolRun →
    Step Run s
      (goto (PcPut (length (futures s)) rest)
         (emit (EvSubmit (e_idx s) b)
            (set_futures (futures s ++ [Future (e_idx s) b None]) s)))
| Step_put f rest q s :
    run_thread s = Some (PcPut f rest) → queue s = Some q →
    put_blocks q = false →
    Step Run s (goto (PcFor rest) (set_queue (Some (q_put f q)) s))
| Step_drained q s :
    run_thread s = Some PcBarrier → queue s = Some q → items q = [] →
    Step Run s (goto PcEpochEnd (emit EvDrained s))
| Step_spin q s :
    run_thread s = Some PcBarrier → queue s = Some q → items q ≠ [] →
    Step Run s s
| Step_epoch_end s :
    run_thread s = Some PcEpochEnd →
    Step Run s
      (goto (PcSend KEpoch)
         (emit EvEpochEnd (set_sequence (on_epoch_end (sequence s)) s)))
| Step_inc s :
    run_thread s = Some PcInc →
    Step Run s (goto PcHead (emit EvInc (set_e_idx (S (e_idx s)) s)))
| Step_complete fid pid e b s :
    pid < workers s → futures s !! fid = Some (Future e b None) →
    Step (Complete fid pid) s
      (set_futures
         (<[fid := Future e b (Some (get_index pid e b s))]> (futures s)) s)
| Step_gen_test b s :
    gen s = GenLoop → stop_signal s = Some b →
    Step Next s (set_gen (if b then GenDone Exhausted else GenGet) s)
| Step_gen_unstarted s :
    gen s = GenLoop → stop_signal s = None →
    Step Next s (set_gen (GenDone Exhausted) s)
| Step_gen_get q f its s :
    gen s = GenGet → queue s = Some q → items q = f :: its →
    Step Next s
      (set_gen (GenResult f) (set_queue (Some (Queue (maxsize q) its)) s))
| Step_gen_get_raise s :
    gen s = GenGet → queue s = None →
    Step Next s (set_gen (GenStop StSet AttributeError) s)
| Step_gen_yield f e b v s :
    gen s = GenResult f →
    futures s !! f = Some (Future e b (Some (Ok (Some v)))) →
    Step Next s
      (set_gen GenLoop
         (set_yielded (yielded s ++ [(f, v)])
            (set_resolved (resolved s ++ [f]) s)))
| Step_gen_skip f e b s :
    gen s = GenResult f →
    futures s !! f = Some (Future e b (Some (Ok None))) →
    Step Next s (set_gen GenLoop (set_resolved (resolved s ++ [f]) s))
| Step_gen_raise f e b x s :
    gen s = GenResult f →
    futures s !! f = Some (Future e b (Some (Err x))) →
    Step Next s (set_gen (GenStop StSet x) (set_resolved (resolved s ++ [f]) s))
| Step_call_stop tmo s :
    caller s = CallerIdle →
    Step (CallStop tmo) s (set_caller (InStop StSet tmo) s)
| Step_stop_caller timed_out pc tmo r s :
    caller s = InStop pc tmo → Stop tmo s timed_out pc r →
    Step (stop_lbl timed_out) s (caller_after tmo r)
| Step_stop_gen pc e r s :
    gen s = GenStop pc e → Stop None s false pc r →
    Step StopByGen s (gen_after e r).

Lemma stop_step_Stop b tmo pc s r :
  stop_step b tmo pc s = Some r → Stop tmo s b pc r.
Proof.
  unfold stop_step, event_set. intros H.
  repeat (case_match; simplify_eq/=; try done).
  all: try (by econstructor; eauto).
  all: try (apply Stop_raise; simpl; congruence).
  match goal with Hx : is_exit ?t = true |- _ => destruct t; try done end.
  by eapply Stop_join_thread.
Qed.

Lemma event_is_set_Ok (ev : option bool) b :
  event_is_set (E:=E) ev = Ok b → ev = Some b.
Proof. destruct ev; simpl; congruence. Qed.

Lemma event_is_set_Err (ev : option bool) x :
  event_is_set (E:=E) ev = Err x → ev = None.
Proof. destruct ev; simpl; congruence. Qed.

Lemma ack_pending_Err s x :
  ack_pending s = Err x → stop_signal s = None ∨ ∀ d, shared_dict s ≠ Bound d.
Proof.
  unfold ack_pending. destruct (shared_dict s); try (right; congruence).
  case_decide; [|done]. destruct (stop_signal s); simpl; [done|]. by left.
Qed.

(** Split on the scrutinee at the head of [H : match .. end = Some _]. *)
Ltac head_case H :=
  repeat match type of H with
  | (match ?x with _ => _ end) = _ =>
      destruct x eqn:?; try discriminate H; cbv beta iota in H
  end.

Lemma q_empty_true {A} (q : queue_obj A) : q_empty q = true → items q = [].
Proof. unfold q_empty. by destruct (items q). Qed.

Lemma q_empty_false {A} (q : queue_obj A) : q_empty q = false → items q ≠ [].
Proof. unfold q_empty. by destruct (items q). Qed.

Ltac solve_crash :=
  eapply Step_crash; [eassumption|reflexivity|..];
  repeat match goal with
  | H : event_is_set _ = Err _ |- _ => apply event_is_set_Err in H
  | H : ack_pending _ = Err _ |- _ => apply ack_pending_Err in H
  end;
  unfold crash_cause; simpl;
  intuition (eauto; congruence).

Ltac solve_step :=
  first [ by econstructor;
            eauto using event_is_set_Ok, q_empty_true, q_empty_false
        | solve_crash ].

Lemma step_Step l s s' : step l s = Some s' → Step l s s'.
Proof.
  intros H. destruct l; simpl in H.
  - unfold start in H. head_case H; simplify_eq.
    + by apply Step_start_refused.
    + by apply Step_start.
  - unfold sched_step in H. head_case H; simplify_eq; solve_step.
  - unfold sched_step in H. head_case H; simplify_eq; solve_step.
  - unfold sched_step in H. head_case H; simplify_eq; solve_step.
  - unfold complete in H. head_case H; simplify_eq; solve_step.
  - unfold gen_step in H. destruct (gen s) eqn:Hg; try done.
    + unfold is_running in H.
      destruct (stop_signal s) as [[]|] eqn:Hs; simpl in H; simplify_eq.
      * by apply (Step_gen_test true).
      * by apply (Step_gen_test false).
      * by apply Step_gen_unstarted.
    + head_case H; simplify_eq; solve_step.
    + destruct (futures s !! fid) as [[e b r]|] eqn:Hf; [|done].
      simpl in H. head_case H; simplify_eq; solve_step.
  - unfold call_stop in H. head_case H; simplify_eq; solve_step.
  - unfold stop_by_caller in H.
    destruct (caller s) eqn:Hc; try done.
    destruct (stop_step false timeout pc s) eqn:Hs; [|by destruct timeout].
    apply stop_step_Stop in Hs.
    replace s' with (caller_after timeout s0) by (destruct s0; simpl; congruence).
    by apply (Step_stop_caller false pc).
  - unfold stop_by_caller in H.
    destruct (caller s) eqn:Hc; try done.
    destruct (stop_step true timeout pc s) eqn:Hs; [|by destruct timeout].
    apply stop_step_Stop in Hs.
    replace s' with (caller_after timeout s0) by (destruct s0; simpl; congruence).
    by apply (Step_stop_caller true pc).
  - unfold stop_by_gen in H.
    destruct (gen s) eqn:Hc; try done.
    destruct (stop_step false None pc s) eqn:Hs; [|done].
    apply stop_step_Stop in Hs.
    replace s' with (gen_after e s0) by (destruct s0; simpl; congruence).
    by apply (Step_stop_gen pc).
Qed.

(** Analyse [H : step l s = Some s'] by cases. *)
Ltac unfold_upd :=
  unfold clear_shared_dict, update_sequence, cleanup, init_globals, crash,
    goto, emit, caller_after, gen_after, after_send in *.

Ltac step_inv H :=
  apply step_Step in H; destruct H;
  repeat match goal with Hs : Stop _ _ _ _ _ |- _ => destruct Hs end;
  match goal with s : state |- _ => destruct s end;
  repeat match goal with q : queue_obj _ |- _ => destruct q end;
  unfold_upd; simpl in *; simplify_eq;
  repeat (match goal with
          | |- context [match ?x with _ => _ end] =>
              first [ is_var x; destruct x | destruct x as [?|?] ]
          end; simpl in *; simplify_eq).

(** Forward chaining on the facts in the context. *)
Ltac fwd :=
  repeat match goal with
  | H : _ ∧ _ |- _ => destruct H
  | H : _ ∨ _ |- _ => destruct H
  | H : ∃ _, _ |- _ => destruct H
  | H : is_Some _ |- _ => destruct H
  | H : ?x = ?x → _ |- _ => specialize (H eq_refl)
  | H : is_Some (Some ?x) → _ |- _ => specialize (H (ex_intro _ x eq_refl))
  | H : ?P → _, H' : ?P |- _ =>
      match type of P with Prop => specialize (H H') end
  | H : ∀ k, Some (?f k) = Some _ → _ |- _ => specialize (H _ eq_refl)
  | H : ∀ pc, Some ?a = Some pc → _ |- _ => specialize (H _ eq_refl)
  | H : ∀ a b, ?f _ _ = ?f a b → _ |- _ => specialize (H _ _ eq_refl)
  | H : ?a ≠ ?b → _ |- _ =>
      let Hn := fresh in assert (a ≠ b) as Hn by discriminate; specialize (H Hn)
  | _ => progress simplify_eq
  end.

Ltac finish :=
  repeat split; intros; fwd; eauto; try (by eexists); try lia; try congruence.

(** Split on the variables that are scrutinised. *)
Ltac split_vars :=
  repeat (match goal with
          | |- context [match ?x with _ => _ end] => is_var x; destruct x
          | H : context [match ?x with _ => _ end] |- _ => is_var x; destruct x
          end; simpl in *; simplify_eq).

(** *** The queue never exceeds its capacity *)

Definition items_of {A} (q : option (queue_obj A)) : list A :=
  match q with Some q => items q | None => [] end.

Definition qitems (s : state) : list nat := items_of (queue s).

Definition qbound (s : state) : Prop :=
  match queue s with
  | Some q => (0 < maxsize q)%Z → (Z.of_nat (length (items q)) ≤ maxsize q)%Z
  | None => True
  end.

Lemma put_blocks_false {A} (q : queue_obj A) (x : A) :
  put_blocks q = false →
  (0 < maxsize q)%Z → (Z.of_nat (length (items q)) ≤ maxsize q)%Z →
  (Z.of_nat (length (items q ++ [x])) ≤ maxsize q)%Z.
Proof.
  unfold put_blocks. intros H Hpos Hle. rewrite length_app. simpl.
  apply andb_false_iff in H as [H|H]; apply bool_decide_eq_false in H; lia.
Qed.

Lemma step_qbound l s s' : step l s = Some s' → qbound s → qbound s'.
Proof.
  intros H. step_inv H; unfold qbound; simpl; split_vars; auto.
  all: try (intros; simpl; lia).
  - intros Hq Hpos.
    by apply (put_blocks_false (Queue _ _)); auto.
Qed.

(** *** Structure of reachable states *)

Record wf (s : state) : Prop := Wf {
  (* before [start] nothing has been created *)
  wf_unstarted : run_thread s = None →
    queue s = None ∧ stop_signal s = None ∧ executor s = None ∧
    futures s = [] ∧ log s = [] ∧ resolved s = [] ∧ yielded s = [] ∧
    (gen s = GenLoop ∨ gen s = GenDone Exhausted);
  (* [start] creates the pool, the queue and the event *)
  wf_started : is_Some (run_thread s) →
    is_Some (queue s) ∧ is_Some (stop_signal s) ∧ is_Some (executor s) ∧
    0 < workers s;
  (* until a [stop] sets the event, the pool runs and the shared dict exists *)
  wf_live : stop_signal s = Some false →
    executor s = Some PoolRun ∧
    (use_multiprocessing s = true → ∃ d, shared_dict s = Bound d);
  (* a [stop] past its first statement has set the event *)
  wf_caller_stop : ∀ pc t,
    caller s = InStop pc t → pc ≠ StSet → stop_signal s = Some true;
  wf_gen_stop : ∀ pc e,
    gen s = GenStop pc e → pc ≠ StSet → stop_signal s = Some true;
  (* only process workers are waited for in [_send_sequence] *)
  wf_ack : ∀ k, run_thread s = Some (PcAck k) → use_multiprocessing s = true
}.

Lemma wf_init sq mp sh e0 me : wf (init sq mp sh e0 me).
Proof. split; simpl; try done; naive_solver. Qed.

Lemma step_wf l s s' : step l s = Some s' → wf s → wf s'.
Proof.
  intros H. step_inv H.
  all: intros [W1 W2 W3 W4 W5 W6]; simpl in *.
  all: split; simpl.
  all: try (intros; simplify_eq; eauto; fail).
  all: intros; fwd; finish.
Qed.

Lemma live_no_crash s pc :
  wf s → stop_signal s = Some false → run_thread s = Some pc →
  ¬ crash_cause s pc.
Proof.
  intros [W1 W2 W3 W4 W5 W6] Hs Hpc [Hc|[Hc|[Hc|[[k ->] Hc]]]].
  - apply W3 in Hs as [? _]. congruence.
  - congruence.
  - destruct W2 as ([q Hq] & _); [by eexists|]. congruence.
  - apply W3 in Hs as [_ Hd]. destruct Hd as [d Hd]; [by eapply W6|].
    by eapply Hc.
Qed.

(** *** Futures are consumed in the order they were created *)

(** The future the run thread is about to put, and the future the generator
    is waiting on. *)
Definition hand_of (t : option (sched_pc E)) : list nat :=
  match t with Some (PcPut f _) => [f] | _ => [] end.

Definition held_of (g : gen_pc E) : list nat :=
  match g with GenResult f => [f] | _ => [] end.

Definition hand (s : state) : list nat := hand_of (run_thread s).
Definition held (s : state) : list nat := held_of (gen s).

(** Every future that entered the pipeline and was not dropped by a [stop],
    from the consumer's end to the producer's end. *)
Definition chain (s : state) : list nat :=
  resolved s ++ held s ++ qitems s ++ hand s.

(** What [get] yields for future [i]: its result, unless that is [None]. *)
Definition item_of (fs : list future) (i : nat) : option (nat * Batch) :=
  match fs !! i with
  | Some (Future _ _ (Some (Ok (Some v)))) => Some (i, v)
  | _ => None
  end.

Definition has_result (fs : list future) (i : nat) : Prop :=
  ∃ e b r, fs !! i = Some (Future e b (Some r)).

Record fifo (s : state) : Prop := Fifo {
  (* the futures still in the pipeline are in creation order *)
  fifo_order : chain s `sublist_of` seq 0 (length (futures s));
  (* [get] has yielded the results that are not [None], in that order *)
  fifo_yield : yielded s = omap (item_of (futures s)) (resolved s);
  fifo_done : Forall (has_result (futures s)) (resolved s);
  (* no future leaves the pipeline before a [stop] sets the event *)
  fifo_exact : stop_signal s = Some false → chain s = seq 0 (length (futures s))
}.

Lemma fifo_init sq mp sh e0 me : fifo (init sq mp sh e0 me).
Proof. split; unfold chain; simpl; try done; constructor. Qed.

Lemma has_result_lt fs i : has_result fs i → i < length fs.
Proof. intros (e & b & r & H). by eapply lookup_lt_Some. Qed.

Lemma has_result_app fs k i : has_result fs i → has_result (fs ++ k) i.
Proof.
  intros H. pose proof (has_result_lt _ _ H) as Hlt.
  destruct H as (e & b & r & H). exists e, b, r. by rewrite lookup_app_l.
Qed.

Lemma item_of_app fs k i : i < length fs → item_of (fs ++ k) i = item_of fs i.
Proof. intros H. unfold item_of. by rewrite lookup_app_l. Qed.

Lemma has_result_insert fs fid e b x i :
  fs !! fid = Some (Future e b None) →
  has_result fs i → has_result (<[fid := x]> fs) i.
Proof.
  intros Hf (e' & b' & r & H). exists e', b', r.
  rewrite list_lookup_insert_ne; [done|]. congruence.
Qed.

Lemma item_of_insert fs fid e b x i :
  fs !! fid = Some (Future e b None) →
  has_result fs i → item_of (<[fid := x]> fs) i = item_of fs i.
Proof.
  intros Hf (e' & b' & r & H). unfold item_of.
  rewrite list_lookup_insert_ne; [done|]. congruence.
Qed.

Lemma omap_agree {A B} (f g : A → option B) l :
  Forall (fun x => f x = g x) l → omap f l = omap g l.
Proof.
  induction 1 as [|x l Hx _ IH]; [done|]. csimpl. by rewrite Hx, IH.
Qed.

Lemma item_of_Some fs i e b v :
  fs !! i = Some (Future e b (Some (Ok (Some v)))) → item_of fs i = Some (i, v).
Proof. unfold item_of. by intros ->. Qed.

Lemma item_of_None fs i e b :
  fs !! i = Some (Future e b (Some (Ok None))) → item_of fs i = None.
Proof. unfold item_of. by intros ->. Qed.

Lemma item_of_Err fs i e b x :
  fs !! i = Some (Future e b (Some (Err x))) → item_of fs i = None.
Proof. unfold item_of. by intros ->. Qed.

Lemma yield_app fs k l (ys : list (nat * Batch)) :
  Forall (has_result fs) l →
  ys = omap (item_of fs) l → ys = omap (item_of (fs ++ k)) l.
Proof.
  intros HF ->. apply omap_agree. eapply Forall_impl; [exact HF|].
  intros i Hi. simpl. symmetry. by apply item_of_app, has_result_lt.
Qed.

Lemma yield_insert fs fid e b x l (ys : list (nat * Batch)) :
  fs !! fid = Some (Future e b None) →
  Forall (has_result fs) l →
  ys = omap (item_of fs) l → ys = omap (item_of (<[fid := x]> fs)) l.
Proof.
  intros Hf HF ->. apply omap_agree. eapply Forall_impl; [exact HF|].
  intros i Hi. simpl. symmetry. by eapply item_of_insert.
Qed.

Lemma chain_snoc_sub (a b c : list nat) n :
  a ++ b ++ c `sublist_of` seq 0 n →
  a ++ b ++ c ++ [n] `sublist_of` seq 0 (S n).
Proof.
  intros H. rewrite seq_S. simpl. rewrite !app_assoc.
  apply sublist_app; [|done]. by rewrite <-app_assoc.
Qed.

Lemma chain_snoc_eq (a b c : list nat) n :
  a ++ b ++ c = seq 0 n → a ++ b ++ c ++ [n] = seq 0 (S n).
Proof. intros H. rewrite seq_S. simpl. by rewrite !app_assoc, <-(app_assoc a), H. Qed.

(** [k] is [l] with some segments left out. *)
Ltac solve_sublist :=
  simpl; rewrite ?app_nil_r, <-?app_assoc; simpl;
  repeat first
    [ apply sublist_nil_l
    | reflexivity
    | apply sublist_skip
    | apply sublist_app; [reflexivity|]
    | apply sublist_inserts_r; reflexivity
    | apply sublist_inserts_l
    | apply sublist_cons ].

Lemma step_fifo l s s' : step l s = Some s' → wf s → fifo s → fifo s'.
Proof.
  intros H Hwf. pose proof (fun pc => live_no_crash s pc Hwf) as Hlive.
  revert Hwf Hlive. step_inv H.
  all: intros [W1 W2 W3 W4 W5 W6] Hlive [F1 F2 F3 F4].
  all: unfold chain, hand, held, qitems in *; simpl in *.
  all: split; unfold chain, hand, held, qitems; simpl.
  all: rewrite ?app_nil_r, ?length_insert, ?length_app, ?Nat.add_1_r in *.
  all: try done.
  all: try (etrans; [|exact F1]; solve_sublist; fail).
  all: try (intros Hs; exfalso; eapply Hlive; eauto; fail).
  all: try (by apply chain_snoc_sub).
  all: try (intros Hs; by apply chain_snoc_eq, F4).
  all: try (by apply yield_app).
  all: try (by eapply yield_insert).
  all: try (eapply Forall_impl; [exact F3|]; simpl;
            eauto using has_result_app, has_result_insert; fail).
  all: try (rewrite omap_app; simpl;
            erewrite ?item_of_Some, ?item_of_None, ?item_of_Err by eauto;
            simpl; rewrite ?app_nil_r; congruence).
  all: try (apply Forall_app; split; [done|]; repeat constructor;
            by do 3 eexists).
  all: try (rewrite <-app_assoc; done).
  all: intros; fwd; finish.
Qed.

(** *** The queue holds futures of the current epoch only *)

Definition epoch_at (fs : list future) (e i : nat) : Prop :=
  ∃ fu, fs !! i = Some fu ∧ f_epoch fu = e.

(** The statements of [_run] between two epochs and before the first. *)
Definition between_epochs (t : option (sched_pc E)) : bool :=
  match t with
  | Some (PcFor _ | PcSubmit _ _ | PcPut _ _ | PcBarrier | PcExit _) => false
  | _ => true
  end.

Record epoch_ok (s : state) : Prop := EpochOk {
  epoch_queue : Forall (epoch_at (futures s) (e_idx s)) (qitems s ++ hand s);
  epoch_drained : between_epochs (run_thread s) = true → qitems s = []
}.

Lemma epoch_init sq mp sh e0 me : epoch_ok (init sq mp sh e0 me).
Proof. split; simpl; try done. Qed.

Lemma epoch_at_app fs k e i : epoch_at fs e i → epoch_at (fs ++ k) e i.
Proof.
  intros (fu & H & He). exists fu. split; [|done].
  rewrite lookup_app_l; [done|]. by eapply lookup_lt_Some.
Qed.

Lemma epoch_at_insert fs fid e b r e' i :
  fs !! fid = Some (Future e b None) →
  epoch_at fs e' i → epoch_at (<[fid := Future e b r]> fs) e' i.
Proof.
  intros Hf (fu & H & He). destruct (decide (fid = i)) as [->|Hne].
  - eexists. rewrite list_lookup_insert_eq by by eapply lookup_lt_Some.
    split; [done|]. simplify_eq. done.
  - exists fu. by rewrite list_lookup_insert_ne.
Qed.

Lemma epoch_at_new fs e b : epoch_at (fs ++ [Future e b None]) e (length fs).
Proof. eexists. split; [apply list_lookup_middle; done|done]. Qed.

Lemma step_epoch l s s' : step l s = Some s' → epoch_ok s → epoch_ok s'.
Proof.
  intros H. step_inv H.
  all: intros [E1 E2].
  all: unfold hand, qitems in *; simpl in *.
  all: split; unfold hand, qitems; simpl.
  all: rewrite ?app_nil_r in *.
  all: try done.
  all: try (by rewrite E2).
  all: try (eapply Forall_impl; [exact E1|]; simpl;
            eauto using epoch_at_app, epoch_at_insert; fail).
  all: try (intros; fwd; finish; fail).
  all: try (apply Forall_app in E1 as [E1 E3]; done).
  - apply Forall_app. split; [|repeat constructor; apply epoch_at_new].
    eapply Forall_impl; [exact E1|]. eauto using epoch_at_app.
  - by apply Forall_cons in E1 as [_ E1].
Qed.

(** *** The events of the run thread, epoch by epoch *)

Definition submit_events (e : nat) (o : list nat) : list event :=
  EvSubmit e <$> o.

(** What [_run] does for one epoch [e] whose indices are visited in order [o]. *)
Definition epoch_block (e : nat) (o : list nat) : list event :=
  submit_events e o ++ [EvDrained; EvEpochEnd; EvPublish; EvInc].

(** The finished epochs, from epoch [e] on, one visiting order each. *)
Fixpoint past_blocks (e : nat) (past : list (list nat)) : list event :=
  match past with
  | [] => []
  | o :: past' => epoch_block e o ++ past_blocks (S e) past'
  end.

Definition before_publish (pc : sched_pc E) : bool :=
  match pc with PcEnter | PcSend KInit => true | _ => false end.

(** The events of the epoch in progress, by program counter. *)
Definition cur_ok (s : state) (pc : sched_pc E) (cur : list event) : Prop :=
  match pc with
  | PcEnter | PcSend KInit | PcAck KInit | PcHead => cur = []
  | PcShuffle => cur = [] ∧ shuffle s = true
  | PcFor rest | PcPut _ rest =>
      ∃ done, order s = done ++ rest ∧ cur = submit_events (e_idx s) done
  | PcSubmit b rest =>
      ∃ done, order s = done ++ b :: rest ∧ cur = submit_events (e_idx s) done
  | PcBarrier => cur = submit_events (e_idx s) (order s)
  | PcEpochEnd => cur = submit_events (e_idx s) (order s) ++ [EvDrained]
  | PcSend KEpoch =>
      cur = submit_events (e_idx s) (order s) ++ [EvDrained; EvEpochEnd]
  | PcAck KEpoch | PcInc =>
      cur = submit_events (e_idx s) (order s) ++ [EvDrained; EvEpochEnd; EvPublish]
  | PcExit x =>
      (cur = [] ∧ x = None ∧ epochs_done s = true) ∨
      (stop_signal s = Some true ∧
       cur `prefix_of` epoch_block (e_idx s) (order s))
  end.

Definition shape_ok (sq0 : Seq) (e0 : nat) (s : state) (pc : sched_pc E) : Prop :=
  ∃ past cur,
    log s = (if before_publish pc then [] else [EvPublish]) ++
            past_blocks e0 past ++ cur ∧
    e_idx s = e0 + length past ∧
    Forall (fun o => o ≡ₚ seq 0 (seq_len sq0)) past ∧
    (shuffle s = false → Forall (fun o => o = seq 0 (seq_len sq0)) past) ∧
    (before_publish pc = true → past = []) ∧
    cur_ok s pc cur.

Record log_ok (sq0 : Seq) (e0 : nat) (s : state) : Prop := LogOk {
  log_unstarted : run_thread s = None →
    log s = [] ∧ e_idx s = e0 ∧ sequence s = sq0;
  log_entering : run_thread s = Some PcEnter → sequence s = sq0;
  log_order : ∀ pc, run_thread s = Some pc → pc ≠ PcEnter →
    order s ≡ₚ seq 0 (seq_len sq0) ∧
    (shuffle s = false → order s = seq 0 (seq_len sq0));
  log_shape : ∀ pc, run_thread s = Some pc → shape_ok sq0 e0 s pc
}.

Lemma log_init sq mp sh e0 me : log_ok sq e0 (init sq mp sh e0 me).
Proof. split; simpl; try done. Qed.

Lemma past_blocks_snoc e past o :
  past_blocks e (past ++ [o]) = past_blocks e past ++ epoch_block (e + length past) o.
Proof.
  revert e. induction past as [|o' past IH]; intros e; simpl.
  - by rewrite app_nil_r, Nat.add_0_r.
  - rewrite IH. replace (S e + length past) with (e + S (length past)) by lia.
    by rewrite !app_assoc.
Qed.

(** Steps of the other threads leave the run thread's history alone. *)
Lemma log_ok_frame sq0 e0 s s' :
  run_thread s' = run_thread s → log s' = log s → e_idx s' = e_idx s →
  order s' = order s → sequence s' = sequence s → shuffle s' = shuffle s →
  max_epoch s' = max_epoch s →
  (stop_signal s = Some true → stop_signal s' = Some true) →
  log_ok sq0 e0 s → log_ok sq0 e0 s'.
Proof.
  intros Ht Hl He Ho Hs Hsh Hm Hst [L1 L2 L3 L4].
  split; rewrite ?Ht, ?Hl, ?He, ?Ho, ?Hs, ?Hsh; try done.
  intros pc Hpc. destruct (L4 pc Hpc) as (past & cur & Hlog & Hidx & HF & HF' & Hb & Hc).
  exists past, cur. rewrite Hl, He, Hsh. split_and!; try done.
  destruct pc; simpl in *; rewrite ?He, ?Ho, ?Hsh; try done.
  unfold epochs_done in *. rewrite Hm, He. naive_solver.
Qed.

Lemma submit_events_snoc e o b :
  submit_events e (o ++ [b]) = submit_events e o ++ [EvSubmit e b].
Proof. unfold submit_events. by rewrite fmap_app. Qed.

Lemma submit_events_prefix e o1 o2 k :
  submit_events e o1 `prefix_of` submit_events e (o1 ++ o2) ++ k.
Proof.
  unfold submit_events. rewrite fmap_app, <-app_assoc. by eexists.
Qed.

Lemma tail_prefix (l : list event) k1 k2 k :
  k1 `prefix_of` k2 → l ++ k1 `prefix_of` (l ++ k2) ++ k.
Proof. intros [k' ->]. exists (k' ++ k). by rewrite <-!app_assoc. Qed.

Lemma cons_middle_nat (done : list nat) b rest :
  done ++ b :: rest = (done ++ [b]) ++ rest.
Proof. by rewrite <-app_assoc. Qed.

(** The conjuncts of [shape_ok], once witnesses are chosen. *)
Ltac shape_log :=
  subst; unfold epoch_block; rewrite ?past_blocks_snoc, ?submit_events_snoc;
  simpl; rewrite ?app_nil_r, <-?app_assoc; simpl;
  rewrite ?app_nil_r, <-?app_assoc; simpl; (done || congruence).

Ltac shape_past :=
  first [ done
        | by constructor
        | intros; fwd; first [ done | by constructor ]
        | intros; fwd; apply Forall_app; split;
          [auto|repeat constructor; auto] ].

Ltac shape_cur :=
  first
    [ done
    | subst; simpl; rewrite ?app_nil_r, <-?app_assoc; simpl; done
    | left; done
    | eexists; split; [eassumption|done]
    | eexists; split; [apply cons_middle_nat|by rewrite submit_events_snoc]
    | exists []; split; done
    | eexists; split; [symmetry; apply app_nil_r|done]
    | right; split; [done|];
      first [ subst; apply submit_events_prefix
            | subst; rewrite <-(app_nil_r (submit_events _ _)) at 1;
              apply submit_events_prefix
            | subst; unfold epoch_block; apply tail_prefix; by eexists
            | subst; apply prefix_nil ] ].

Ltac shape_parts :=
  split; [shape_log|];
  split; [subst; rewrite ?length_app; simpl; lia|];
  split; [shape_past|];
  split; [shape_past|];
  split; [try done; intros; fwd; subst; done|];
  shape_cur.

Lemma step_log sq0 e0 l s s' :
  step l s = Some s' → wf s → log_ok sq0 e0 s → log_ok sq0 e0 s'.
Proof.
  intros H Hwf. pose proof (fun pc => live_no_crash s pc Hwf) as Hlive.
  revert Hwf Hlive. step_inv H.
  all: try (intros _ _; apply log_ok_frame; simpl; congruence).
  all: intros [W1 W2 W3 W4 W5 W6] Hlive [L1 L2 L3 L4]; simpl in *.
  all: split; simpl.
  all: try done.
  all: try (intros; fwd; repeat split; eauto; congruence).
  all: intros pc' Hpc'; simplify_eq.
  all: unfold shape_ok, cur_ok, epochs_done in *; simpl in *.
  all: repeat match goal with k : cont |- _ => destruct k end; simpl in *.
  all: try (exists [], []; fwd; shape_parts; fail).
  all: destruct (L4 _ eq_refl) as (past & cur & Hlog & Hidx & HF & HF' & Hb & Hc);
       clear L4; simpl in *.
  all: first
    [ exists past, cur; fwd; shape_parts; fail
    | match goal with
      | |- ∃ _ _, _ ++ [?ev] = _ ∧ _ => exists past, (cur ++ [ev])
      end; fwd; shape_parts; fail
    | match goal with
      | Hc : _ = submit_events _ ?o ++ _ |- _ => exists (past ++ [o]), []
      end; fwd; shape_parts; fail
    | idtac ].
  - intros _. destruct pc; try discriminate; apply (L3 _ eq_refl); discriminate.
  - assert (stop_signal0 = Some true) as Hsig.
    { destruct W2 as (_ & [b Hsig] & _); [by eexists|].
      destruct b; [done|]. exfalso. eapply Hlive; eauto. }
    exists past, cur.
    destruct pc as [| |[]| | |[]| | | | | |]; try discriminate; simpl in *; fwd.
    all: split; [done|]; split; [done|]; split; [done|]; split; [done|].
    all: split; [done|]; right; split; [done|]; unfold epoch_block.
    all: first [ apply prefix_nil
               | apply prefix_app; by exists [EvInc]
               | apply submit_events_prefix
               | by apply prefix_app_r ].
  - intros _. destruct Hc as [_ Hsh]. destruct (L3 _ eq_refl) as [Hp _]; [done|].
    split; [by etrans|]. congruence.
Qed.

Lemma cur_ok_prefix s pc cur :
  cur_ok s pc cur → cur `prefix_of` epoch_block (e_idx s) (order s).
Proof.
  unfold epoch_block.
  destruct pc as [|[]|[]| | | | | | | | |]; simpl; intros Hc; fwd;
    try apply prefix_nil; try apply prefix_nil;
    try (rewrite ?H; apply submit_events_prefix).
  - apply prefix_app. by exists [EvPublish; EvInc].
  - apply prefix_app. by exists [EvInc].
  - by apply prefix_app_r.
  - apply prefix_app. by exists [EvEpochEnd; EvPublish; EvInc].
  - apply prefix_app. by exists [EvInc].
  - done.
Qed.

(** *** The futures are the submitted tasks *)

Definition submitted (l : list event) : list (nat * nat) :=
  omap (fun ev => match ev with EvSubmit e b => Some (e, b) | _ => None end) l.

Definition task (fu : future) : nat * nat := (f_epoch fu, f_index fu).

Definition tasks_ok (s : state) : Prop := submitted (log s) = task <$> futures s.

Lemma tasks_init sq mp sh e0 me : tasks_ok (init sq mp sh e0 me).
Proof. done. Qed.

Lemma step_tasks l s s' : step l s = Some s' → tasks_ok s → tasks_ok s'.
Proof.
  intros H. step_inv H.
  all: unfold tasks_ok, submitted; simpl; try done.
  all: rewrite ?omap_app, ?fmap_app; simpl; rewrite ?app_nil_r; try done.
  all: try (intros ->; done).
  intros ->. rewrite list_fmap_insert. simpl.
  symmetry. apply list_insert_id. rewrite list_lookup_fmap.
  match goal with Hf : _ !! _ = Some _ |- _ => by rewrite Hf end.
Qed.

(** *** Reachable states *)

Record inv (sq0 : Seq) (e0 : nat) (s : state) : Prop := Inv {
  inv_wf : wf s;
  inv_qbound : qbound s;
  inv_fifo : fifo s;
  inv_epoch : epoch_ok s;
  inv_log : log_ok sq0 e0 s;
  inv_tasks : tasks_ok s
}.

Lemma inv_init sq mp sh e0 me : inv sq e0 (init sq mp sh e0 me).
Proof.
  split; auto using wf_init, fifo_init, epoch_init, log_init, tasks_init.
  done.
Qed.

Lemma step_inv_ok sq0 e0 l s s' : step l s = Some s' → inv sq0 e0 s → inv sq0 e0 s'.
Proof.
  intros H [H1 H2 H3 H4 H5 H6].
  split; eauto using step_wf, step_qbound, step_fifo, step_epoch, step_log,
    step_tasks.
Qed.

Lemma run_inv_ok sq0 e0 ls s s' : run ls s = Some s' → inv sq0 e0 s → inv sq0 e0 s'.
Proof. apply run_inv. intros l. apply step_inv_ok. Qed.

Lemma reach_inv ls sq mp sh e0 me s :
  run ls (init sq mp sh e0 me) = Some s → inv sq e0 s.
Proof. intros H. eapply run_inv_ok; [done|]. apply inv_init. Qed.

(** ** Ordering of what [get] yields *)

Definition task_of (fs : list future) (i : nat) : option (nat * nat) :=
  task <$> fs !! i.

(** The tasks whose items [get] has yielded, in the order of the yields. *)
Definition yielded_tasks (s : state) : list (nat * nat) :=
  omap (fun y => task_of (futures s) y.1) (yielded s).

Definition in_epoch (e : nat) (t : nat * nat) : Prop := t.1 = e.

Global Instance in_epoch_dec e t : Decision (in_epoch e t).
Proof. unfold in_epoch. apply _. Defined.

Lemma omap_sublist {A B} (f : A → option B) l k :
  l `sublist_of` k → omap f l `sublist_of` omap f k.
Proof.
  induction 1 as [|x l k _ IH|x l k _ IH]; csimpl; [done| |].
  - destruct (f x); [by apply sublist_skip|done].
  - destruct (f x); [by apply sublist_cons|done].
Qed.

Lemma filter_sublist_mono {A} (P : A → Prop) `{!∀ x, Decision (P x)} l k :
  l `sublist_of` k → filter P l `sublist_of` filter P k.
Proof.
  induction 1 as [|x l k _ IH|x l k _ IH]; [done| |]; rewrite !filter_cons.
  - destruct (decide (P x)); [by apply sublist_skip|done].
  - destruct (decide (P x)); [by apply sublist_cons|done].
Qed.


Lemma item_of_fst fs l : (omap (item_of fs) l).*1 `sublist_of` l.
Proof.
  induction l as [|i l IH]; csimpl; [done|].
  unfold item_of at 1.
  destruct (fs !! i) as [[e b [[[v|]|x]|]]|]; csimpl;
    first [by apply sublist_skip | by apply sublist_cons].
Qed.

Lemma task_of_seq fs : omap (task_of fs) (seq 0 (length fs)) = task <$> fs.
Proof.
  induction fs as [|fu fs IH] using rev_ind; [done|].
  rewrite length_app, Nat.add_1_r, seq_S, omap_app, fmap_app. simpl.
  unfold task_of at 2. rewrite list_lookup_middle by done. simpl.
  f_equal. rewrite <-IH. apply omap_agree, Forall_forall.
  intros i Hi%elem_of_seq. unfold task_of. rewrite lookup_app_l by lia. done.
Qed.

Lemma yielded_tasks_ids s :
  yielded_tasks s = omap (task_of (futures s)) (yielded s).*1.
Proof.
  unfold yielded_tasks. induction (yielded s) as [|y l IH]; csimpl; [done|].
  rewrite IH. done.
Qed.

Lemma yielded_in_order sq0 e0 s :
  inv sq0 e0 s → yielded_tasks s `sublist_of` submitted (log s).
Proof.
  intros [_ _ [F1 F2 F3 F4] _ _ Ht].
  rewrite Ht, <-task_of_seq, yielded_tasks_ids. apply omap_sublist.
  rewrite F2. etrans; [apply item_of_fst|]. etrans; [|exact F1].
  unfold chain. solve_sublist.
Qed.

(** C1: in every reachable state and for every epoch, the batch indices of
    the items [get] has yielded so far form, in the order of the yields, a
    subsequence of the indices submitted for that epoch in the order of
    submission, whatever the order of completion of the tasks.  What [get]
    yields is exactly the non-[None] results of the futures it resolved; and
    until a [stop] is requested no future is dropped: the futures resolved,
    waited on, queued and about to be queued are all the futures created, in
    creation order. *)
Theorem get_yields_in_submission_order ls sq mp sh e0 me s :
  run ls (init sq mp sh e0 me) = Some s →
  (∀ e, filter (in_epoch e) (yielded_tasks s)
          `sublist_of` filter (in_epoch e) (submitted (log s))) ∧
  yielded s = omap (item_of (futures s)) (resolved s) ∧
  (stop_signal s = Some false → chain s = seq 0 (length (futures s))).
Proof.
  intros H%reach_inv. split; [|split].
  - intros e. apply filter_sublist_mono. by eapply yielded_in_order.
  - apply H.
  - apply H.
Qed.

(** ** The epoch barrier *)


(** ** Runs in which nobody calls [stop] *)

Definition calls_stop (l : label) : bool :=
  match l with CallStop _ => true | _ => false end.

Definition no_stop_call (l : label) : Prop := calls_stop l = false.

(** ** No epoch to run: [max_epoch <= initial_epoch] *)

Definition idle_pc (s : state) : Prop :=
  match run_thread s with
  | None => log s = [] ∧ stop_signal s = None
  | Some pc =>
      stop_signal s = Some false ∧
      match pc with
      | PcEnter | PcSend KInit => log s = []
      | PcAck KInit | PcHead | PcExit None =>
          log s = [EvPublish] ∧ shared_sequence s = Bound ()
      | _ => False
      end
  end.

Record idle_ok (m : nat) (s : state) : Prop := IdleOk {
  idle_max : max_epoch s = Some m ∧ m ≤ e_idx s;
  idle_futures : futures s = [] ∧ qitems s = [];
  idle_caller : ∀ pc t, caller s ≠ InStop pc t;
  idle_gen : gen s = GenLoop ∨ gen s = GenGet ∨ gen s = GenDone Exhausted;
  idle_run : idle_pc s
}.

Lemma step_idle m l s s' :
  no_stop_call l → step l s = Some s' → wf s → idle_ok m s → idle_ok m s'.
Proof.
  intros Hl H Hwf. pose proof (fun pc => live_no_crash s pc Hwf) as Hlive.
  revert Hwf Hlive. step_inv H.
  all: try done.
  all: intros [W1 W2 W3 W4 W5 W6] Hlive [[I1 I1'] [I2 I2'] I3 I4 I5].
  all: unfold idle_pc, qitems, epochs_done in *; simpl in *.
  all: try (exfalso; fwd; by eapply I3).
  all: try (exfalso; fwd; eapply Hlive; eauto; fail).
  all: split; unfold idle_pc, qitems, epochs_done; simpl.
  all: try done.
  all: try (intros; fwd; finish; fail).
  all: repeat match goal with k : cont |- _ => destruct k end.
  all: try (fwd; case_bool_decide; done || lia).
  all: try (fwd; done).
  all: destruct run_thread0; fwd; try done.
  all: destruct W2 as ([? ?] & _); [by eexists|done].
  Unshelve. all: first [exact StSet | exact None].
Qed.

Lemma run_idle m ls s s' :
  Forall no_stop_call ls → run ls s = Some s' →
  wf s → idle_ok m s → wf s' ∧ idle_ok m s'.
Proof.
  revert s. induction ls as [|l ls IH]; intros s Hls Hrun Hwf Hi.
  - by simplify_eq/=.
  - simpl in Hrun. destruct (step l s) as [s1|] eqn:Hs; [|done].
    apply Forall_cons in Hls as [Hl Hls].
    eapply IH; eauto using step_wf, step_idle.
Qed.

Lemma idle_init sq mp sh e0 m :
  m ≤ e0 → idle_ok m (init sq mp sh e0 (Some m)).
Proof. intros Hm. split; simpl; try done; auto. Qed.

(** Every worker process serves one [executor.apply] of the ack loop. *)
Definition acks (n k : nat) : list label :=
  (fun pid => Applied (HandledBy pid)) <$> seq n k.

Lemma acks_no_stop n k : Forall no_stop_call (acks n k).
Proof. unfold acks. apply Forall_fmap, Forall_true. done. Qed.

Lemma ack_round k : ∀ n s K,
  run_thread s = Some (PcAck K) → stop_signal s = Some false →
  executor s = Some PoolRun → shared_dict s = Bound (set_seq 0 n) →
  n + k = workers s →
  ∃ s', run (acks n k) s = Some s' ∧
    run_thread s' = Some (PcAck K) ∧ stop_signal s' = Some false ∧
    shared_dict s' = Bound (set_seq 0 (workers s)) ∧
    workers s' = workers s ∧ max_epoch s' = max_epoch s ∧ e_idx s' = e_idx s.
Proof.
  induction k as [|k IH]; intros n s K Ht Hs He Hd Hw.
  - exists s. rewrite Nat.add_0_r in Hw. subst n. done.
  - unfold acks. simpl. unfold sched_step, ack_pending. rewrite Ht, Hd, He, Hs.
    rewrite size_set_seq. simpl.
    destruct (decide (n < workers s)) as [Hn|]; [|lia].
    unfold update_sequence. rewrite Hd.
    destruct (decide (n ∈ set_seq (C:=gset nat) 0 n)) as [Hin|_].
    { apply elem_of_set_seq in Hin. lia. }
    match goal with |- ∃ _, run _ ?s1 = _ ∧ _ =>
      destruct (IH (S n) s1 K) as (s' & Hrun & H1 & H2 & H3 & H4 & H5 & H6)
    end; try (simpl; done || lia).
    { unfold set_shared_dict, set_replicas. cbn [shared_dict].
      f_equal. replace n with (0 + n) at 1 by done.
      symmetry. apply set_seq_S_end_union_L. }
    exists s'. split; [exact Hrun|done].
Qed.

Lemma exit_after_acks m s :
  run_thread s = Some (PcAck KInit) → stop_signal s = Some false →
  shared_dict s = Bound (set_seq 0 (workers s)) →
  max_epoch s = Some m → m ≤ e_idx s →
  ∃ s', run [Run; Run] s = Some s' ∧ run_thread s' = Some (PcExit None).
Proof.
  intros Ht Hs Hd Hm Hle. cbn [run step]. unfold sched_step at 1.
  rewrite Ht. unfold ack_pending. rewrite Hd, size_set_seq.
  destruct (decide (workers s < workers s)); [lia|].
  cbn [after_send]. unfold sched_step, epochs_done, goto. simpl.
  rewrite Hm. rewrite bool_decide_eq_true_2 by done. by eexists.
Qed.

Lemma break_at_head m s :
  run_thread s = Some PcHead → max_epoch s = Some m → m ≤ e_idx s →
  ∃ s', run [Run] s = Some s' ∧ run_thread s' = Some (PcExit None).
Proof.
  intros Ht Hm Hle. cbn [run step]. unfold sched_step, epochs_done.
  rewrite Ht, Hm. rewrite bool_decide_eq_true_2 by done. by eexists.
Qed.

Lemma start_to_ack sq sh e0 me w c :
  ∃ s1,
    run [Start (S w) c; Run; Run] (init sq true sh e0 me) = Some s1 ∧
    run_thread s1 = Some (PcAck KInit) ∧ stop_signal s1 = Some false ∧
    executor s1 = Some PoolRun ∧ shared_dict s1 = Bound (set_seq 0 0) ∧
    workers s1 = S w ∧ max_epoch s1 = me ∧ e_idx s1 = e0.
Proof.
  destruct (run [Start (S w) c; Run; Run] (init sq true sh e0 me))
    as [s1|] eqn:Hr; vm_compute in Hr; [|discriminate].
  exists s1. split; [done|]. by injection Hr as <-.
Qed.

Lemma start_to_head sq sh e0 me w c :
  ∃ s1,
    run [Start (S w) c; Run; Run] (init sq false sh e0 me) = Some s1 ∧
    run_thread s1 = Some PcHead ∧ stop_signal s1 = Some false ∧
    max_epoch s1 = me ∧ e_idx s1 = e0.
Proof.
  destruct (run [Start (S w) c; Run; Run] (init sq false sh e0 me))
    as [s1|] eqn:Hr; vm_compute in Hr; [|discriminate].
  exists s1. split; [done|]. by injection Hr as <-.
Qed.

(** C10: when [max_epoch <= initial_epoch] and nobody calls [stop], no task
    is ever submitted and [on_epoch_end] is never invoked; once the run
    thread has exited it has exited normally, the sequence has been published
    exactly once, and [is_running] still answers true.  The run thread can
    indeed exit, for thread and for process workers. *)
Theorem no_epoch_to_run sq mp sh e0 m :
  m ≤ e0 →
  (∀ ls s, Forall no_stop_call ls →
     run ls (init sq mp sh e0 (Some m)) = Some s →
     futures s = [] ∧ submitted (log s) = [] ∧ (EvEpochEnd ∉ log s) ∧
     (∀ x, run_thread s = Some (PcExit x) →
        x = None ∧ log s = [EvPublish] ∧ shared_sequence s = Bound () ∧
        is_running s = Ok true)) ∧
  (∀ w c, 0 < w →
     ∃ ls s, Forall no_stop_call ls ∧
       run (Start w c :: ls) (init sq mp sh e0 (Some m)) = Some s ∧
       run_thread s = Some (PcExit None)).
Proof.
  intros Hm. split.
  - intros ls s Hls Hrun.
    destruct (run_idle m ls _ s Hls Hrun (wf_init _ _ _ _ _) (idle_init _ _ _ _ _ Hm))
      as [Hwf [_ [Hf _] _ _ Hpc]].
    unfold idle_pc in Hpc. split; [done|].
    destruct (run_thread s) as [pc|] eqn:Ht.
    + destruct Hpc as [Hs Hpc].
      assert (log s = [] ∨ log s = [EvPublish]) as [Hl|Hl].
      { destruct pc as [|[]|[]| | | | | | | | |[]]; naive_solver. }
      * rewrite Hl. split; [done|]. split; [by inversion 1|].
        intros x Hx. injection Hx as ->.
        destruct x; simpl in Hpc; [done|]. destruct Hpc as [Hp _]. congruence.
      * rewrite Hl. split; [done|]. split.
        { intros Hin. inversion Hin as [|? ? ? Hin']. inversion Hin'. }
        intros x Hx. injection Hx as ->.
        destruct x; simpl in Hpc; [done|].
        destruct Hpc as [_ Hb]. unfold is_running. rewrite Hs. done.
    + destruct Hpc as [-> _]. split; [done|]. split; [by inversion 1|done].
  - intros w c Hw. destruct w as [|w]; [lia|]. destruct mp.
    + destruct (start_to_ack sq sh e0 (Some m) w c)
        as (s1 & Hr1 & Ht1 & Hs1 & He1 & Hd1 & Hw1 & Hm1 & Hi1).
      destruct (ack_round (S w) 0 s1 KInit)
        as (s' & Hrun & H1 & H2 & H3 & H4 & H5 & H6); try done.
      destruct (exit_after_acks m s') as (s2 & Hr2 & Ht2); try done.
      { by rewrite H4. }
      { congruence. }
      { rewrite H6, Hi1. done. }
      exists ([Run; Run] ++ acks 0 (S w) ++ [Run; Run]), s2.
      split; [|split; [|done]].
      * repeat constructor. apply Forall_app. split; [apply acks_no_stop|].
        by repeat constructor.
      * apply (run_app_Some [Start (S w) c; Run; Run] _ _ s1); [exact Hr1|].
        by apply (run_app_Some _ _ _ s').
    + destruct (start_to_head sq sh e0 (Some m) w c)
        as (s1 & Hr1 & Ht1 & Hs1 & Hm1 & Hi1).
      destruct (break_at_head m s1) as (s2 & Hr2 & Ht2); try done.
      { by rewrite Hi1. }
      exists [Run; Run; Run], s2. split; [by repeat constructor|].
      split; [|done].
      by apply (run_app_Some [Start (S w) c; Run; Run] [Run] _ s1).
Qed.

(** ** Runs without [stop] and without pool failure, over a source that
    always returns a batch *)





Section AlwaysItems.

Hypothesis Hitems : ∀ sq e b, ∃ v, get_batch sq e b = Ok (Some v).



End AlwaysItems.

(** ** A maximum epoch count bounds the epoch index *)

Definition mid_epoch (pc : sched_pc E) : bool :=
  match pc with
  | PcEnter | PcSend KInit | PcAck KInit | PcHead | PcExit _ => false
  | _ => true
  end.

Record bound_ok (m : nat) (s : state) : Prop := BoundOk {
  bound_max : max_epoch s = Some m;
  bound_le : e_idx s ≤ m;
  bound_lt : ∀ pc, run_thread s = Some pc → mid_epoch pc = true → e_idx s < m
}.

Lemma bound_init sq mp sh e0 m : e0 ≤ m → bound_ok m (init sq mp sh e0 (Some m)).
Proof. intros. split; simpl; done. Qed.

Lemma step_bound m l s s' : step l s = Some s' → bound_ok m s → bound_ok m s'.
Proof.
  intros H. step_inv H.
  all: intros [B1 B2 B3]; unfold epochs_done in *; simpl in *.
  all: split; simpl; try done.
  all: try (intros; fwd; finish; fail).
  all: try (fwd; specialize (B3 _ eq_refl eq_refl); lia).
  1,2: intros _ _ _; rewrite B1 in *; case_bool_decide; [done|lia].
  specialize (B3 _ eq_refl eq_refl). lia.
Qed.







(** ** A [stop] that overtakes the put of an epoch's last index

    When the queue is cleared by [stop] while the run thread holds the future
    of the last index of the epoch, the thread puts it afterwards and reaches
    the barrier with a non-empty queue that nobody drains any more. *)

Definition gen_gone (g : gen_pc E) : bool :=
  match g with
  | GenLoop | GenDone _
  | GenStop (StClose | StJoinPool | StJoinThread | StCleanup) _ => true
  | _ => false
  end.

Definition caller_past_clear (c : caller_pc E) : bool :=
  match c with InStop (StSet | StClear) _ => false | _ => true end.

Record stuck (s : state) : Prop := Stuck {
  stuck_pc : run_thread s = Some PcBarrier;
  stuck_queue : qitems s ≠ [];
  stuck_stop : stop_signal s = Some true;
  stuck_gen : gen_gone (gen s) = true;
  stuck_caller : caller_past_clear (caller s) = true
}.

Lemma step_stuck l s s' :
  no_stop_call l → step l s = Some s' → stuck s → stuck s'.
Proof.
  intros Hl H. step_inv H.
  all: try done.
  all: intros [S1 S2 S3 S4 S5]; unfold qitems in *; simpl in *.
  all: try done.
  all: split; unfold qitems; simpl; try done.
  simplify_eq. simpl in *. by destruct queue0.
Qed.

Lemma run_stuck ls s s' :
  Forall no_stop_call ls → run ls s = Some s' → stuck s → stuck s'.
Proof. apply run_ind. intros l. apply step_stuck. Qed.

(** A [stop] waiting for the run thread without timeout waits for ever. *)
Lemma step_gen_hung e l s s' :
  no_stop_call l → step l s = Some s' → stuck s →
  gen s = GenStop StJoinThread e → gen s' = GenStop StJoinThread e.
Proof.
  intros Hl H. step_inv H.
  all: try done.
  all: intros [S1 S2 S3 S4 S5]; unfold qitems in *; simpl in *.
  all: try done.
  all: intros; simplify_eq; try done.
Qed.

Lemma step_caller_hung l s s' :
  no_stop_call l → step l s = Some s' → stuck s →
  caller s = InStop StJoinThread None → caller s' = InStop StJoinThread None.
Proof.
  intros Hl H. step_inv H.
  all: try done.
  all: intros [S1 S2 S3 S4 S5]; unfold qitems in *; simpl in *.
  all: try done.
  all: intros; simplify_eq; try done.
Qed.

Lemma run_gen_hung e ls s s' :
  Forall no_stop_call ls → run ls s = Some s' →
  stuck s ∧ gen s = GenStop StJoinThread e →
  stuck s' ∧ gen s' = GenStop StJoinThread e.
Proof.
  apply (run_ind (fun s => stuck s ∧ gen s = GenStop StJoinThread e)).
  intros l s1 s2 Hl Hs [H1 H2]. eauto using step_stuck, step_gen_hung.
Qed.

Lemma run_caller_hung ls s s' :
  Forall no_stop_call ls → run ls s = Some s' →
  stuck s ∧ caller s = InStop StJoinThread None →
  stuck s' ∧ caller s' = InStop StJoinThread None.
Proof.
  apply (run_ind (fun s => stuck s ∧ caller s = InStop StJoinThread None)).
  intros l s1 s2 Hl Hs [H1 H2]. eauto using step_stuck, step_caller_hung.
Qed.

(** The constructor arguments are never written again. *)
Lemma step_config l s s' :
  step l s = Some s' →
  shuffle s' = shuffle s ∧ use_multiprocessing s' = use_multiprocessing s.
Proof. intros H. step_inv H; done. Qed.

Lemma run_config ls s s' :
  run ls s = Some s' →
  shuffle s' = shuffle s ∧ use_multiprocessing s' = use_multiprocessing s.
Proof.
  intros H. eapply (run_inv (fun s1 => shuffle s1 = shuffle s ∧
    use_multiprocessing s1 = use_multiprocessing s)); [|exact H|done].
  intros l s1 s2 Hs [H1 H2]. apply step_config in Hs as [-> ->]. done.
Qed.

(** ** The ack loop of [_send_sequence] *)

(** Every worker process has acknowledged the published sequence. *)
Definition acked (s : state) : Prop :=
  ∃ d, shared_dict s = Bound d ∧ workers s ≤ size d.

Lemma ack_pending_false s :
  ack_pending s = Ok false → acked s ∨ stop_signal s = Some true.
Proof.
  unfold ack_pending, acked. destruct (shared_dict s) as [| |d]; try done.
  destruct (decide (size d < workers s)).
  - destruct (stop_signal s) as [[]|]; simpl; try done. by right.
  - intros _. left. exists d. split; [done|lia].
Qed.

(** [stop] never writes [self.run_thread]. *)
Lemma stop_step_thread b tmo pc s r :
  stop_step b tmo pc s = Some r →
  run_thread (match r with StopAt _ s' | StopRet s' | StopExc _ s' => s' end)
  = run_thread s.
Proof.
  unfold stop_step, event_set, cleanup, clear_shared_dict. intros H.
  repeat (case_match; simplify_eq/=; try done).
Qed.

(** Only the run thread's own statements move its program counter. *)
Lemma step_thread_frame l s s' :
  step l s = Some s' → is_Some (run_thread s) →
  match l with Run | Shuffled _ | Applied _ => True
  | _ => run_thread s' = run_thread s end.
Proof.
  intros H [pc Hpc]. destruct l; simpl in H; try done.
  - unfold start in H. rewrite Hpc in H. by destruct (caller s).
  - unfold complete in H. repeat (case_match; simplify_eq/=; try done).
  - unfold gen_step in H. repeat (case_match; simplify_eq/=; try done).
  - unfold call_stop in H. repeat (case_match; simplify_eq/=; try done).
  - unfold stop_by_caller in H. destruct (caller s) as [|pc' tmo|]; try done.
    destruct (stop_step false tmo pc' s) as [r|] eqn:Hr; [|done].
    apply stop_step_thread in Hr. by destruct r; simplify_eq/=.
  - unfold stop_by_caller in H. destruct (caller s) as [|pc' tmo|]; try done.
    destruct (stop_step true tmo pc' s) as [r|] eqn:Hr; [|done].
    apply stop_step_thread in Hr. by destruct r; simplify_eq/=.
  - unfold stop_by_gen in H. destruct (gen s) as [| | |pc' e|]; try done.
    destruct (stop_step false None pc' s) as [r|] eqn:Hr; [|done].
    apply stop_step_thread in Hr. by destruct r; simplify_eq/=.
Qed.

Lemma update_sequence_thread pid sq s :
  run_thread (update_sequence pid sq s) = run_thread s.
Proof.
  unfold update_sequence. destruct (shared_dict s); try done. by case_decide.
Qed.

Lemma ack_leaves k l s s' :
  step l s = Some s' → run_thread s = Some (PcAck k) →
  run_thread s' ≠ Some (PcAck k) →
  (l = Run ∧ (acked s ∨ stop_signal s = Some true) ∧
     run_thread s' = Some (after_send k)) ∨
  (l = Applied SocketError ∧ run_thread s' = Some (after_send k)) ∨
  (∃ x, run_thread s' = Some (PcExit (Some x)) ∧
     ((l = Run ∧ ack_pending s = Err x) ∨
      (∃ r, l = Applied r ∧ executor s ≠ Some PoolRun))).
Proof.
  intros H Ht Hne.
  pose proof (step_thread_frame _ _ _ H (ltac:(by rewrite Ht))) as Hfr.
  destruct l as [w c| |perm|r|fid pid| |tmo| | |];
    try (rewrite Hfr in Hne; congruence).
  - simpl in H. unfold sched_step in H. rewrite Ht in H.
    destruct (ack_pending s) as [[]|x] eqn:Ha; simplify_eq.
    + left. split; [done|]. split; [by apply ack_pending_false|done].
    + right. right. exists x. split; [done|]. by left.
  - simpl in H. unfold sched_step in H. by rewrite Ht in H.
  - simpl in H. unfold sched_step in H. rewrite Ht in H.
    destruct (ack_pending s) as [[]|x] eqn:Ha; try done.
    destruct (executor s) as [[]|] eqn:He.
    + destruct r as [pid|].
      * destruct (decide (pid < workers s)); simplify_eq.
        by rewrite update_sequence_thread in Hne.
      * simplify_eq. right. left. done.
    + simplify_eq. right. right. eexists. split; [done|]. right. by exists r.
    + simplify_eq. right. right. eexists. split; [done|]. right. by exists r.
Qed.

(** Thread workers share the caller's dictionary: [_send_sequence] returns
    right after the publication. *)
Lemma send_thread_returns k s :
  run_thread s = Some (PcSend k) → use_multiprocessing s = false →
  ∃ s', step Run s = Some s' ∧ run_thread s' = Some (after_send k) ∧
    shared_sequence s' = Bound ().
Proof. intros Ht Hmp. unfold step, sched_step. rewrite Ht, Hmp. by eexists. Qed.

(** With process workers it enters the ack loop. *)
Lemma send_process_waits k s :
  run_thread s = Some (PcSend k) → use_multiprocessing s = true →
  ∃ s', step Run s = Some s' ∧ run_thread s' = Some (PcAck k) ∧
    shared_sequence s' = Bound ().
Proof.
  intros Ht Hmp. unfold step, sched_step. rewrite Ht, Hmp.
  eexists. split; [done|]. split; [done|].
  unfold clear_shared_dict. simpl. by destruct (shared_dict s).
Qed.

(** Worker process [p] serves no request of the ack loop, no request fails
    and no statement of a [stop] is executed. *)
Definition unserved (p : nat) (l : label) : Prop :=
  match l with
  | Applied (HandledBy q) => q ≠ p
  | Applied SocketError | CallStop _ | StopByCaller | JoinTimeout | StopByGen => False
  | _ => True
  end.

(** The run thread is in the ack loop of continuation [k], the pool runs,
    the stop signal is not set, and worker process [p] of the pool has not
    acknowledged. *)
Record waiting (k : cont) (p : nat) (s : state) : Prop := Waiting {
  waiting_pc : run_thread s = Some (PcAck k);
  waiting_live : stop_signal s = Some false;
  waiting_pool : executor s = Some PoolRun;
  waiting_pid : p < workers s;
  waiting_dict : ∃ d, shared_dict s = Bound d ∧ (p ∉ d) ∧ ∀ q, q ∈ d → q < workers s
}.

Lemma missing_ack (d : gset nat) (w p : nat) :
  p < w → p ∉ d → (∀ q, q ∈ d → q < w) → size d < w.
Proof.
  intros Hp Hd Hall.
  assert (size ({[p]} ∪ d) ≤ size (set_seq (C:=gset nat) 0 w)) as Hle.
  { apply subseteq_size. intros q [->%elem_of_singleton|Hq]%elem_of_union;
      apply elem_of_set_seq; [lia|]. specialize (Hall q Hq). lia. }
  rewrite size_union, size_singleton, size_set_seq in Hle; [lia|].
  intros q ->%elem_of_singleton. done.
Qed.

Lemma waiting_pending k p s : waiting k p s → ack_pending s = Ok true.
Proof.
  intros [_ Hs _ Hp (d & Hd & Hn & Hall)]. unfold ack_pending. rewrite Hd, Hs.
  destruct (decide (size d < workers s)) as [|Hge]; [done|].
  destruct Hge. by eapply missing_ack.
Qed.

Lemma step_waiting k p l s s' :
  unserved p l → step l s = Some s' → waiting k p s → waiting k p s'.
Proof.
  intros Hl H Hw. pose proof (waiting_pending _ _ _ Hw) as Hpend.
  destruct Hw as [W1 W2 W3 W4 (d & W5 & W6 & W7)].
  destruct l as [w c| |perm|r|fid pid| |tmo| | |]; simpl in Hl, H; try done.
  - unfold start in H. rewrite W1 in H. by destruct (caller s).
  - unfold sched_step in H. by rewrite W1, Hpend in H.
  - unfold sched_step in H. by rewrite W1 in H.
  - unfold sched_step in H. rewrite W1, Hpend, W3 in H.
    destruct r as [q|]; [|done].
    destruct (decide (q < workers s)) as [Hq|]; simplify_eq.
    unfold update_sequence. rewrite W5.
    destruct (decide (q ∈ d)); [split; try done; by exists d|].
    split; simpl; try done. exists ({[q]} ∪ d). split; [done|]. split.
    + intros [?%elem_of_singleton|?]%elem_of_union; congruence.
    + intros q' [->%elem_of_singleton|?]%elem_of_union; auto.
  - unfold complete in H. repeat (case_match; simplify_eq/=; try done).
    split; simpl; try done. by exists d.
  - unfold gen_step in H. repeat (case_match; simplify_eq/=; try done).
    all: split; simpl; try done; by exists d.
Qed.

(** C7 (amended): the ack loop has no timeout.  With thread workers
    [_send_sequence] returns at once; with process workers it enters the
    loop.  The run thread leaves the loop only when the loop test fails, that
    is when as many worker processes as [workers] have acknowledged or the
    stop signal is set; or when [executor.apply] raises [socket_error]; or by
    an exception that ends the thread, raised by the loop test or by a pool
    that is not running.  When the loop test fails the thread does leave.
    And if a worker process of the pool never serves a request, no request
    fails and no statement of [stop] is executed, the thread is still in the
    loop after any number of steps and cannot proceed by itself. *)
Theorem ack_barrier_has_no_timeout :
  (∀ k s, run_thread s = Some (PcSend k) → use_multiprocessing s = false →
     ∃ s', step Run s = Some s' ∧ run_thread s' = Some (after_send k) ∧
       shared_sequence s' = Bound ()) ∧
  (∀ k s, run_thread s = Some (PcSend k) → use_multiprocessing s = true →
     ∃ s', step Run s = Some s' ∧ run_thread s' = Some (PcAck k) ∧
       shared_sequence s' = Bound ()) ∧
  (∀ k l s s', run_thread s = Some (PcAck k) → step l s = Some s' →
     run_thread s' ≠ Some (PcAck k) →
     (l = Run ∧ (acked s ∨ stop_signal s = Some true) ∧
        run_thread s' = Some (after_send k)) ∨
     (l = Applied SocketError ∧ run_thread s' = Some (after_send k)) ∨
     (∃ x, run_thread s' = Some (PcExit (Some x)) ∧
        ((l = Run ∧ ack_pending s = Err x) ∨
         (∃ r, l = Applied r ∧ executor s ≠ Some PoolRun)))) ∧
  (∀ k s, run_thread s = Some (PcAck k) → ack_pending s = Ok false →
     ∃ s', step Run s = Some s' ∧ run_thread s' = Some (after_send k)) ∧
  (∀ k p d ls s s',
     run_thread s = Some (PcAck k) → stop_signal s = Some false →
     executor s = Some PoolRun → shared_dict s = Bound d →
     (∀ q, q ∈ d → q < workers s) → p < workers s → p ∉ d →
     Forall (unserved p) ls → run ls s = Some s' →
     run_thread s' = Some (PcAck k) ∧ step Run s' = None ∧
     ∃ d', shared_dict s' = Bound d' ∧ (p ∉ d') ∧ size d' < workers s').
Proof.
  split; [exact send_thread_returns|]. split; [exact send_process_waits|].
  split; [|split].
  - intros k l s s' Ht Hs Hne. by eapply ack_leaves.
  - intros k s Ht Ha. unfold step, sched_step. rewrite Ht, Ha. by eexists.
  - intros k p d ls s s' Ht Hsig Hex Hd Hall Hp Hn Hls Hrun.
    assert (waiting k p s') as Hw.
    { eapply (run_ind (waiting k p) (unserved p)); [|exact Hls|exact Hrun|].
      - intros l s1 s2 Hl Hs. exact (step_waiting k p l s1 s2 Hl Hs).
      - split; [done..|]. by exists d. }
    pose proof (waiting_pending _ _ _ Hw) as Hpend.
    destruct Hw as [W1 W2 W3 W4 (d' & W5 & W6 & W7)].
    split; [done|]. split.
    + unfold step, sched_step. by rewrite W1, Hpend.
    + exists d'. split; [done|]. split; [done|]. by eapply missing_ack.
Qed.

(** ** The capacity of the queue *)

Definition capacity_ok (c : Z) (s : state) : Prop :=
  is_Some (run_thread s) ∧ ∀ q, queue s = Some q → maxsize q = c.

Lemma step_capacity c l s s' :
  step l s = Some s' → capacity_ok c s → capacity_ok c s'.
Proof.
  intros H. step_inv H.
  all: intros [[? Hpc] Hq]; simplify_eq.
  all: split; simpl; [by eexists|].
  all: intros q' ?; simplify_eq; simpl; try (by apply Hq).
  all: by specialize (Hq _ eq_refl).
Qed.

Lemma run_capacity c ls s s' :
  run ls s = Some s' → capacity_ok c s → capacity_ok c s'.
Proof. apply run_inv. intros l. apply step_capacity. Qed.

Lemma started_queue_bound w c sq mp sh e0 me ls s q :
  0 < w → (0 < c)%Z →
  run (Start w c :: ls) (init sq mp sh e0 me) = Some s → queue s = Some q →
  maxsize q = c ∧ (Z.of_nat (length (items q)) ≤ c)%Z.
Proof.
  intros Hw Hc Hrun Hq.
  pose proof (reach_inv _ _ _ _ _ _ _ Hrun) as [_ Hb _ _ _ _].
  assert (maxsize q = c) as Hm.
  { simpl in Hrun. unfold start in Hrun. simpl in Hrun.
    destruct (decide (w = 0)); [lia|].
    eapply (run_capacity c) in Hrun as [_ Hcap]; [by apply Hcap|].
    split; simpl; [by eexists|]. by intros ? [= <-]. }
  split; [done|]. unfold qbound in Hb. rewrite Hq in Hb. rewrite <-Hm. apply Hb. lia.
Qed.

(** [put(block=True)] on a full queue waits. *)
Lemma put_waits f rest s q :
  run_thread s = Some (PcPut f rest) → queue s = Some q →
  (0 < maxsize q)%Z → Z.of_nat (length (items q)) = maxsize q →
  step Run s = None.
Proof.
  intros Ht Hq Hpos Hfull. unfold step, sched_step, put_blocks. rewrite Ht, Hq.
  by rewrite !bool_decide_eq_true_2.
Qed.

(** [get(block=True)] waits on an empty queue and otherwise takes the head. *)
Lemma get_waits s q :
  gen s = GenGet → queue s = Some q → items q = [] → step Next s = None.
Proof. intros Hg Hq Hi. unfold step, gen_step. by rewrite Hg, Hq, Hi. Qed.

Lemma get_takes_head s s' q :
  gen s = GenGet → queue s = Some q → step Next s = Some s' →
  ∃ f its, items q = f :: its ∧ gen s' = GenResult f ∧
    queue s' = Some (Queue (maxsize q) its).
Proof.
  intros Hg Hq. unfold step, gen_step. rewrite Hg, Hq.
  destruct (items q) as [|f its]; [done|]. intros [= <-]. by exists f, its.
Qed.

(** ** [stop] on an instance that is already stopped *)

Definition stop_labels : list label :=
  [StopByCaller; StopByCaller; StopByCaller; StopByCaller; StopByCaller; StopByCaller].

(** When the pool is closed, its tasks are over and the run thread has
    exited, a further [stop] runs through all its statements and returns. *)
Lemma stop_again tmo s q b x :
  caller s = CallerIdle → stop_signal s = Some b → queue s = Some q →
  executor s = Some PoolClosed → all_done s = true →
  run_thread s = Some (PcExit x) →
  ∃ s', run (CallStop tmo :: stop_labels) s = Some s' ∧
    caller s' = CallerIdle ∧ stop_signal s' = Some true ∧
    queue s' = Some (q_clear q) ∧ executor s' = Some PoolClosed ∧
    run_thread s' = run_thread s ∧ futures s' = futures s ∧
    yielded s' = yielded s ∧ log s' = log s ∧ shared_sequence s' = IsNone.
Proof.
  intros Hc Hs Hq He Hd Ht. destruct s, q. simpl in *. subst.
  cbv [run stop_labels step call_stop stop_by_caller stop_step event_set
       q_clear is_exit all_done cleanup clear_shared_dict
       set_caller set_stop_signal set_queue set_executor set_shared_sequence
       set_shared_dict sequence use_multiprocessing shuffle workers executor
       queue run_thread stop_signal e_idx max_epoch shared_sequence
       shared_dict replicas order futures gen caller resolved yielded log
       maxsize items] in *.
  rewrite Hd.
  destruct use_multiprocessing0; [destruct shared_dict0|].
  all: eexists; split; [reflexivity|]; done.
Qed.

(** ** A sequence without batches *)





(** ** [max_epoch] caps the epochs *)

Definition capped (e0 m : nat) (s : state) : Prop :=
  Forall (fun fu => e0 ≤ f_epoch fu ∧ f_epoch fu < m) (futures s).

Lemma Forall_sublist_of {A} (P : A → Prop) l k :
  l `sublist_of` k → Forall P k → Forall P l.
Proof.
  induction 1 as [|x l k _ IH|x l k _ IH]; [done| |]; intros Hk;
    apply Forall_cons in Hk as [? ?]; [constructor|]; auto.
Qed.

Lemma epoch_from sq0 e0 s : log_ok sq0 e0 s → e0 ≤ e_idx s.
Proof.
  intros [L1 _ _ L4]. destruct (run_thread s) as [pc|] eqn:Ht.
  - destruct (L4 pc eq_refl) as (past & cur & _ & He & _). lia.
  - destruct L1 as (_ & -> & _); done.
Qed.

Lemma step_capped sq0 e0 m l s s' :
  step l s = Some s' → log_ok sq0 e0 s → bound_ok m s →
  capped e0 m s → capped e0 m s'.
Proof.
  intros H Hlog. pose proof (epoch_from _ _ _ Hlog) as He. clear Hlog.
  revert He. unfold capped. step_inv H.
  all: intros He [B1 B2 B3] Hc; simpl in *.
  all: try done.
  - apply Forall_app. split; [done|]. repeat constructor; simpl; [done|].
    by apply (B3 _ eq_refl).
  - apply Forall_insert; [done|]. simpl.
    match goal with Hf : futures0 !! _ = Some _ |- _ =>
      apply (Forall_lookup_1 _ _ _ _ Hc Hf) end.
Qed.

(** X4: with [max_epoch = m] and [initial_epoch <= m], the epoch index stays
    between the initial epoch and [m], and every task ever submitted, hence
    every batch [get] yields, belongs to an epoch from the initial one up to
    [m - 1]. *)
Theorem max_epoch_caps_the_epochs ls sq mp sh e0 m s :
  e0 ≤ m → run ls (init sq mp sh e0 (Some m)) = Some s →
  e0 ≤ e_idx s ∧ e_idx s ≤ m ∧
  Forall (fun t => e0 ≤ t.1 ∧ t.1 < m) (submitted (log s)) ∧
  Forall (fun t => e0 ≤ t.1 ∧ t.1 < m) (yielded_tasks s).
Proof.
  intros Hm Hrun.
  pose proof (reach_inv _ _ _ _ _ _ _ Hrun) as Hinv.
  assert (inv sq e0 s ∧ bound_ok m s ∧ capped e0 m s) as (_ & [_ Hle _] & Hc).
  { eapply (run_inv (fun s => inv sq e0 s ∧ bound_ok m s ∧ capped e0 m s));
      [|exact Hrun|].
    - intros l s1 s2 Hs (Hi & Hb & Hc). split; [by eapply step_inv_ok|].
      split; [by eapply step_bound|].
      eapply step_capped; eauto. apply Hi.
    - split; [apply inv_init|]. split; [by apply bound_init|]. by constructor. }
  assert (Forall (fun t => e0 ≤ t.1 ∧ t.1 < m) (submitted (log s))) as Hsub.
  { rewrite (inv_tasks _ _ _ Hinv). apply Forall_fmap.
    eapply Forall_impl; [exact Hc|]. done. }
  split; [eapply epoch_from; apply Hinv|]. split; [done|]. split; [done|].
  eapply Forall_sublist_of; [|exact Hsub]. by eapply yielded_in_order.
Qed.

(** ** What [stop] has done when it returns *)







(** ** The indices of a finished epoch *)

Lemma submitted_app l k : submitted (l ++ k) = submitted l ++ submitted k.
Proof. apply omap_app. Qed.

Lemma submitted_block e (o : list nat) :
  submitted (epoch_block e o) = (fun b => (e, b)) <$> o.
Proof.
  unfold epoch_block, submit_events. rewrite submitted_app. simpl.
  rewrite app_nil_r. unfold submitted. induction o as [|b o IH]; csimpl; [done|].
  by rewrite IH.
Qed.

Lemma filter_epoch_same e (o : list nat) :
  filter (in_epoch e) ((fun b => (e, b)) <$> o) = (fun b => (e, b)) <$> o.
Proof.
  induction o as [|b o IH]; csimpl; [done|].
  rewrite filter_cons_True by done. by rewrite IH.
Qed.

Lemma filter_epoch_other e e' (l : list (nat * nat)) :
  Forall (fun t : nat * nat => t.1 = e') l → e ≠ e' → filter (in_epoch e) l = [].
Proof.
  induction 1 as [|t l Ht _ IH]; intros Hne; [done|].
  rewrite filter_cons_False; [by apply IH|]. unfold in_epoch. congruence.
Qed.

Lemma block_epoch e (o : list nat) :
  Forall (fun t : nat * nat => t.1 = e) ((fun b => (e, b)) <$> o).
Proof. apply Forall_fmap, Forall_true. done. Qed.

Lemma filter_past_later e e2 past :
  e < e2 → filter (in_epoch e) (submitted (past_blocks e2 past)) = [].
Proof.
  revert e2. induction past as [|o past IH]; intros e2 Hlt; simpl; [done|].
  rewrite submitted_app, filter_app, submitted_block.
  rewrite (filter_epoch_other e e2); [|apply block_epoch|lia].
  simpl. apply IH. lia.
Qed.

(** The tasks of epoch [e] among those of consecutive finished epochs. *)
Lemma filter_past_blocks e e1 past :
  e1 ≤ e → e < e1 + length past →
  ∃ o, past !! (e - e1) = Some o ∧
    filter (in_epoch e) (submitted (past_blocks e1 past)) = (fun b => (e, b)) <$> o.
Proof.
  revert e1. induction past as [|o past IH]; intros e1 H1 H2; simpl in *; [lia|].
  rewrite submitted_app, filter_app, submitted_block.
  destruct (decide (e = e1)) as [->|Hne].
  - exists o. rewrite Nat.sub_diag. split; [done|].
    rewrite filter_epoch_same, filter_past_later by lia. by rewrite app_nil_r.
  - destruct (IH (S e1)) as (o' & Ho & Hf); [lia..|].
    exists o'. split.
    + replace (e - e1) with (S (e - S e1)) by lia. done.
    + rewrite (filter_epoch_other e e1); [|apply block_epoch|done]. done.
Qed.

(** X6: [_run] computes the index list once, from the length the sequence has
    when the run thread starts.  Every epoch it has finished submitted
    exactly one task per index of that range, in the order of a permutation
    of it (the range itself without [shuffle]), whatever [on_epoch_end] did
    to the sequence since. *)
Theorem finished_epochs_visit_every_index ls sq mp sh e0 me s e :
  run ls (init sq mp sh e0 me) = Some s → e0 ≤ e → e < e_idx s →
  ∃ o, o ≡ₚ seq 0 (seq_len sq) ∧ (sh = false → o = seq 0 (seq_len sq)) ∧
    filter (in_epoch e) (submitted (log s)) = (fun b => (e, b)) <$> o.
Proof.
  intros Hrun H1 H2.
  pose proof (reach_inv _ _ _ _ _ _ _ Hrun) as Hinv.
  destruct (run_config _ _ _ Hrun) as [Hsh _]. simpl in Hsh.
  destruct (inv_log _ _ _ Hinv) as [L1 _ _ L4].
  destruct (run_thread s) as [pc|] eqn:Ht;
    [|destruct L1 as (_ & ? & _); [done|lia]].
  destruct (L4 pc eq_refl) as (past & cur & Hlog & He & Hp & Hid & _ & Hcur).
  destruct (filter_past_blocks e e0 past) as (o & Ho & Hf); [lia..|].
  exists o. split; [exact (Forall_lookup_1 _ _ _ _ Hp Ho)|].
  split.
  { intros ->. exact (Forall_lookup_1 _ _ _ _ (Hid Hsh) Ho). }
  rewrite Hlog, !submitted_app, !filter_app, Hf.
  apply cur_ok_prefix in Hcur as [k Hk].
  pose proof (submitted_block (e_idx s) (order s)) as Hb.
  rewrite Hk, submitted_app in Hb.
  pose proof (block_epoch (e_idx s) (order s)) as Hall.
  rewrite <-Hb in Hall. apply Forall_app in Hall as [Hall _].
  rewrite (filter_epoch_other e (e_idx s) _ Hall) by lia.
  rewrite app_nil_r. by destruct (before_publish pc).
Qed.

End WorkSource.

(** ** Runs only depend on the values of [get_batch] *)



Lemma run_cons_Some {Seq Batch E} (seq_len : Seq → nat)
    (gb : Seq → nat → nat → res E (option Batch)) (oee : Seq → Seq) l ls s s1 :
  step seq_len gb oee l s = Some s1 →
  run seq_len gb oee (l :: ls) s = run seq_len gb oee ls s1.
Proof. intros H. simpl. by rewrite H. Qed.

(** ** The two-epoch scenario *)

(** One index served from submission to yield: the run thread tests the stop
    signal, submits and puts; worker [pid] completes the task; the consumer
    tests [is_running], takes the future and resolves it. *)
Definition one_item (f pid : nat) : list label :=
  [Run; Run; Run; Complete f pid; Next; Next; Next].

(** The ack loop after a publication, every worker answering once. *)
Definition ack_all (mp : bool) (w : nat) : list label :=
  if mp then acks 0 w ++ [Run] else [].

(** One whole epoch of [len] indices whose first future is [first]. *)
Definition one_epoch (mp : bool) (w first len : nat) : list label :=
  [Run] ++ concat ((fun i => one_item (first + i) 0) <$> seq 0 len)
    ++ [Run; Run; Run; Run] ++ ack_all mp w ++ [Run].

Definition scenario_rest (mp : bool) : list label :=
  [Run] ++ ack_all mp 2 ++ one_epoch mp 2 0 5 ++ one_epoch mp 2 5 5 ++ [Run].

Definition scenario_run (mp : bool) : list label := Run :: scenario_rest mp.






Section Scenario.

Context {Seq Batch E : Type}.
Variable seq_len : Seq → nat.
Variable get_batch : Seq → nat → nat → res E (option Batch).
Variable on_epoch_end : Seq → Seq.
Variable payload : Seq → nat → nat → Batch.
Variable sq : Seq.

Hypothesis always_item : ∀ σ e b, get_batch σ e b = Ok (Some (payload σ e b)).
Hypothesis five : seq_len sq = 5.










End Scenario.

(** ** Concrete work sources

    A source whose state is its length: batch [b] of epoch [e] is the pair
    [(e, b)], and [on_epoch_end] changes nothing. *)
Definition range_len (n : nat) : nat := n.
Definition range_batch (n e b : nat) : res unit (option (nat * nat)) := Ok (Some (e, b)).
Definition range_epoch_end (n : nat) : nat := n.

(** The same source with a [get_batch] that raises on index 0. *)
Definition flaky_batch (n e b : nat) : res unit (option (nat * nat)) :=
  match b with 0 => Err (WorkError ()) | _ => Ok (Some (e, b)) end.




(** ** Witnesses on the concrete source *)

(** Three indices shuffled into the order 2, 0, 1, two thread workers and a
    queue of two.  The task of index 0 (future 1) is over before the task of
    index 2 (future 0), which the consumer is waiting for. *)
Definition shuffled_run : list label :=
  [Start 2 2; Run; Run; Run; Shuffled [2; 0; 1];
   Run; Run; Run; Run; Run; Run;
   Complete 1 1; Next; Next; Complete 0 0; Next; Next; Next; Next;
   Run; Run; Run; Complete 2 1; Next; Next; Next].

Lemma get_yields_in_submission_order_witness :
  ∃ s, run range_len range_batch range_epoch_end shuffled_run
         (init 3 false true 0 None) = Some s ∧
    submitted (log s) = [(0, 2); (0, 0); (0, 1)] ∧
    yielded_tasks s = [(0, 2); (0, 0); (0, 1)] ∧
    (∀ e, filter (in_epoch e) (yielded_tasks s)
            `sublist_of` filter (in_epoch e) (submitted (log s))) ∧
    yielded s = omap (item_of (futures s)) (resolved s) ∧
    (stop_signal s = Some false → chain s = seq 0 (length (futures s))).
Proof.
  destruct (run range_len range_batch range_epoch_end shuffled_run
              (init 3 false true 0 None)) as [s|] eqn:Hr;
    [|vm_compute in Hr; discriminate].
  exists s. split; [reflexivity|].
  split; [vm_compute in Hr; injection Hr as <-; reflexivity|].
  split; [vm_compute in Hr; injection Hr as <-; reflexivity|].
  exact (get_yields_in_submission_order range_len range_batch range_epoch_end
           shuffled_run 3 false true 0 None s Hr).
Defined.




Lemma no_epoch_to_run_witness :
  2 ≤ 3 ∧
  (∀ ls s, Forall no_stop_call ls →
     run range_len range_batch range_epoch_end ls (init 5 false false 3 (Some 2)) = Some s →
     futures s = [] ∧ submitted (log s) = [] ∧ (EvEpochEnd ∉ log s) ∧
     (∀ x, run_thread s = Some (PcExit x) →
        x = None ∧ log s = [EvPublish] ∧ shared_sequence s = Bound () ∧
        is_running s = Ok true)) ∧
  (∀ w c, 0 < w → ∃ ls s, Forall no_stop_call ls ∧
     run range_len range_batch range_epoch_end (Start w c :: ls)
       (init 5 false false 3 (Some 2)) = Some s ∧
     run_thread s = Some (PcExit None)).
Proof.
  split; [lia|].
  apply (no_epoch_to_run range_len range_batch range_epoch_end 5 false false 3 2).
  lia.
Defined.

(** ** The ack loop when one worker process never answers *)

Definition one_acked : list label := [Start 2 2; Run; Run; Applied (HandledBy 0)].

(** Worker 1 never answers: worker 0 serves further requests and the
    consumer starts [get], and the run thread is still in the loop. *)
Definition one_silent : list label :=
  [Applied (HandledBy 0); Next; Applied (HandledBy 0); Applied (HandledBy 0)].

Lemma ack_barrier_has_no_timeout_witness :
  ∃ s s', run range_len range_batch range_epoch_end one_acked
            (init 5 true false 0 None) = Some s ∧
    run range_len range_batch range_epoch_end one_silent s = Some s' ∧
    run_thread s = Some (PcAck KInit) ∧ shared_dict s = Bound {[0]} ∧
    workers s = 2 ∧
    run_thread s' = Some (PcAck KInit) ∧
    step range_len range_batch range_epoch_end Run s' = None ∧
    ∃ d', shared_dict s' = Bound d' ∧ (1 ∉ d') ∧ size d' < workers s'.
Proof.
  destruct (run range_len range_batch range_epoch_end one_acked
              (init 5 true false 0 None)) as [s|] eqn:Hr;
    [|vm_compute in Hr; discriminate].
  destruct (run range_len range_batch range_epoch_end one_silent s)
    as [s'|] eqn:Hr';
    [|vm_compute in Hr; injection Hr as <-; vm_compute in Hr'; discriminate].
  exists s, s'. split; [reflexivity|]. split; [exact Hr'|].
  assert (run_thread s = Some (PcAck KInit) ∧ shared_dict s = Bound {[0]} ∧
          workers s = 2 ∧ stop_signal s = Some false ∧
          executor s = Some PoolRun) as (Ht & Hd & Hw & Hs & He).
  { vm_compute in Hr. injection Hr as <-. repeat split; reflexivity. }
  split; [exact Ht|]. split; [exact Hd|]. split; [exact Hw|].
  refine (proj2 (proj2 (proj2 (proj2
            (ack_barrier_has_no_timeout range_len range_batch range_epoch_end))))
            KInit 1 {[0]} one_silent s s' Ht Hs He Hd _ _ _ _ Hr').
  - intros q Hq. apply elem_of_singleton in Hq. rewrite Hw, Hq. lia.
  - rewrite Hw. lia.
  - intros Hq. apply elem_of_singleton in Hq. discriminate Hq.
  - repeat constructor; discriminate.
Defined.

(** The loop waits for ever: if only worker 0 serves the requests, the run
    thread is still in the loop after any number of them, in the same state,
    and cannot leave it by itself. *)
Lemma ack_barrier_can_wait_for_ever :
  ∃ s, run range_len range_batch range_epoch_end one_acked
         (init 5 true false 0 None) = Some s ∧
    run_thread s = Some (PcAck KInit) ∧ ¬ acked s ∧
    stop_signal s = Some false ∧
    step range_len range_batch range_epoch_end Run s = None ∧
    ∀ n, run range_len range_batch range_epoch_end
           (replicate n (Applied (HandledBy 0))) s = Some s.
Proof.
  destruct (run range_len range_batch range_epoch_end one_acked
              (init 5 true false 0 None)) as [s|] eqn:Hr;
    [|vm_compute in Hr; discriminate].
  assert (step range_len range_batch range_epoch_end (Applied (HandledBy 0)) s = Some s
          ∧ run_thread s = Some (PcAck KInit) ∧ ¬ acked s ∧
          stop_signal s = Some false ∧
          step range_len range_batch range_epoch_end Run s = None)
    as (Hsame & Ht & Ha & Hs & Hw).
  { vm_compute in Hr. injection Hr as <-.
    split; [by vm_compute|]. split; [done|]. split; [|by vm_compute].
    intros (d & Hd & Hle). vm_compute in Hd. injection Hd as <-.
    vm_compute in Hle. lia. }
  exists s. split; [done|]. split; [done|]. split; [done|].
  split; [done|]. split; [done|]. clear Hr.
  induction n as [|n IH]; [done|].
  cbn [replicate]. by rewrite (run_cons_Some _ _ _ _ _ _ _ Hsame).
Qed.

(** ** A failing task whose [stop] is overtaken by the last put *)

(** Two indices, one thread worker, a queue of one.  The consumer holds the
    future of index 0 while the run thread, past the stop test, is about to
    put the future of index 1, the last of the epoch.  The task of index 0
    fails; the handler of [get] sets the signal and clears the queue; then
    the put happens and the run thread reaches the barrier. *)
Definition failing_run : list label :=
  [Start 1 1; Run; Run; Run; Run; Run; Run; Next; Next; Run; Run;
   Complete 0 0; Next; StopByGen; StopByGen; Run; Run; StopByGen;
   Complete 1 0; StopByGen].

(** C4: on a source whose [get_batch] raises for index 0, the failure is
    raised by the future inside [get], the handler calls [stop] and
    [is_running] answers false; but in this interleaving the [stop] called by
    the handler waits in [run_thread.join()] for a run thread that spins at
    the barrier on a queue nobody drains: as long as no other thread calls
    [stop], the generator never terminates and [StopIteration] is never
    raised. *)
Theorem failed_task_can_hang_get :
  ∃ s, run range_len flaky_batch range_epoch_end failing_run
         (init 2 false false 0 None) = Some s ∧
    resolved s = [0] ∧ yielded s = [] ∧
    gen s = GenStop StJoinThread (WorkError ()) ∧
    is_running s = Ok false ∧
    ∀ ls s', Forall no_stop_call ls →
      run range_len flaky_batch range_epoch_end ls s = Some s' →
      gen s' = GenStop StJoinThread (WorkError ()) ∧
      run_thread s' = Some PcBarrier ∧ qitems s' ≠ [].
Proof.
  destruct (run range_len flaky_batch range_epoch_end failing_run
              (init 2 false false 0 None)) as [s|] eqn:Hr;
    [|vm_compute in Hr; discriminate].
  exists s. split; [reflexivity|].
  vm_compute in Hr. injection Hr as <-.
  split; [reflexivity|]. split; [reflexivity|]. split; [reflexivity|].
  split; [reflexivity|].
  intros ls s' Hls Hrun.
  eapply run_gen_hung in Hrun as [[H1 H2 _ _ _] H3]; [|exact Hls|].
  - split; [exact H3|]. split; [exact H1|exact H2].
  - split; [|reflexivity]. split; vm_compute; done.
Qed.

(** ** A [stop] that finds the run thread blocked on the last put *)

(** Two indices, one thread worker, a queue of one, nobody consuming: the
    queue holds the future of index 0 and the run thread is blocked putting
    the future of index 1. *)
Definition blocked_run : list label :=
  [Start 1 1; Run; Run; Run; Run; Run; Run; Run; Run].

(** [stop(timeout)] up to its [run_thread.join(timeout)], the run thread
    moving as soon as the queue is cleared and the two tasks finishing. *)
Definition stop_overtaken (timeout : option nat) : list label :=
  [CallStop timeout; StopByCaller; StopByCaller; Run; Run; StopByCaller;
   Complete 0 0; Complete 1 0; StopByCaller].

(** C8: [stop] clears the queue and the blocked put of the epoch's last index
    goes through, but the run thread then waits at the barrier for a queue
    that is no longer consumed.  Without timeout [stop] never returns; with a
    timeout it returns when the timeout expires, and the run thread is still
    alive, then and for ever after. *)
Theorem stop_on_blocked_last_put_leaves_run_thread :
  ∃ s0, run range_len range_batch range_epoch_end blocked_run
          (init 2 false false 0 None) = Some s0 ∧
    run_thread s0 = Some (PcPut 1 []) ∧ qitems s0 = [0] ∧
    step range_len range_batch range_epoch_end Run s0 = None ∧
    ∀ timeout, ∃ s1,
      run range_len range_batch range_epoch_end (stop_overtaken timeout) s0 = Some s1 ∧
      caller s1 = InStop StJoinThread timeout ∧
      run_thread s1 = Some PcBarrier ∧ qitems s1 = [1] ∧
      step range_len range_batch range_epoch_end StopByCaller s1 = None ∧
      (∀ ls s', Forall no_stop_call ls →
         run range_len range_batch range_epoch_end ls s1 = Some s' →
         run_thread s' = Some PcBarrier ∧
         (timeout = None → caller s' = InStop StJoinThread None)) ∧
      (∀ t, timeout = Some t → ∃ s2,
         run range_len range_batch range_epoch_end [JoinTimeout; StopByCaller] s1 = Some s2 ∧
         caller s2 = CallerIdle ∧ run_thread s2 = Some PcBarrier).
Proof.
  destruct (run range_len range_batch range_epoch_end blocked_run
              (init 2 false false 0 None)) as [s0|] eqn:Hr;
    [|vm_compute in Hr; discriminate].
  exists s0. split; [reflexivity|].
  vm_compute in Hr. injection Hr as <-.
  split; [reflexivity|]. split; [reflexivity|]. split; [reflexivity|].
  intros timeout.
  match goal with |- ∃ s1, ?r = Some s1 ∧ _ => destruct r as [s1|] eqn:Hr1 end;
    [|vm_compute in Hr1; discriminate].
  exists s1. split; [reflexivity|].
  vm_compute in Hr1. injection Hr1 as <-.
  split; [reflexivity|]. split; [reflexivity|]. split; [reflexivity|].
  split; [reflexivity|].
  match goal with |- (∀ ls s', _ → run _ _ _ ls ?s = _ → _) ∧ _ =>
    assert (stuck s) as Hstuck by (split; vm_compute; done) end.
  split.
  - intros ls s' Hls Hrun. split.
    + by destruct (run_stuck _ _ _ _ _ _ Hls Hrun Hstuck).
    + intros ->.
      by destruct (run_caller_hung _ _ _ _ _ _ Hls Hrun (conj Hstuck eq_refl)).
  - intros t ->. eexists. split; [by vm_compute|]. done.
Qed.

(** ** Further runs of the concrete source *)



Lemma max_epoch_caps_the_epochs_witness :
  0 ≤ 2 ∧
  ∃ s, run range_len range_batch range_epoch_end (Start 2 2 :: scenario_run false)
         (init 5 false false 0 (Some 2)) = Some s ∧
    0 ≤ e_idx s ∧ e_idx s ≤ 2 ∧
    Forall (fun t => 0 ≤ t.1 ∧ t.1 < 2) (submitted (log s)) ∧
    Forall (fun t => 0 ≤ t.1 ∧ t.1 < 2) (yielded_tasks s).
Proof.
  assert (0 ≤ 2) as Hm by lia.
  split; [exact Hm|].
  destruct (run range_len range_batch range_epoch_end (Start 2 2 :: scenario_run false)
              (init 5 false false 0 (Some 2))) as [s|] eqn:Hr;
    [|vm_compute in Hr; discriminate].
  exists s. split; [reflexivity|].
  exact (max_epoch_caps_the_epochs range_len range_batch range_epoch_end
           (Start 2 2 :: scenario_run false) 5 false false 0 2 s Hm Hr).
Defined.



Lemma finished_epochs_visit_every_index_witness :
  ∃ s, run range_len range_batch range_epoch_end (Start 2 2 :: scenario_run false)
         (init 5 false false 0 (Some 2)) = Some s ∧
    0 ≤ 1 ∧ 1 < e_idx s ∧
    ∃ o, o ≡ₚ seq 0 (range_len 5) ∧ (false = false → o = seq 0 (range_len 5)) ∧
      filter (in_epoch 1) (submitted (log s)) = (fun b => (1, b)) <$> o.
Proof.
  destruct (run range_len range_batch range_epoch_end (Start 2 2 :: scenario_run false)
              (init 5 false false 0 (Some 2))) as [s|] eqn:Hr;
    [|vm_compute in Hr; discriminate].
  exists s. split; [reflexivity|].
  assert (0 ≤ 1) as H1 by lia.
  assert (1 < e_idx s) as H2.
  { vm_compute in Hr. injection Hr as <-. vm_compute. lia. }
  split; [exact H1|]. split; [exact H2|].
  exact (finished_epochs_visit_every_index range_len range_batch range_epoch_end
           (Start 2 2 :: scenario_run false) 5 false false 0 (Some 2) s 1 Hr H1 H2).
Defined.

End Ordered.

(** ** GeneratorEnqueuer *)

Module Generator.

(** What a statement of this class can raise: a Python exception, or the
    error of using a [multiprocessing.Queue] after its [close()]. *)
Inductive failure (E : Type) : Type :=
| Raised (x : pyexn E)
| ClosedQueue.
Arguments Raised {E} x.
Arguments ClosedQueue {E}.

(** Program counter of one worker running [data_generator_task]. *)
Inductive task_pc (Item E : Type) : Type :=
| TkLoop                       (* [while not self._stop_event.is_set():] *)
| TkCheck                      (* [if self._use_multiprocessing or self.queue.qsize() < max_queue_size:] *)
| TkNext                       (* [generator_output = next(self._generator)] *)
| TkPut (v : option Item)      (* [self.queue.put(generator_output)] *)
| TkSleep                      (* [time.sleep(self.wait_time)] *)
| TkHandler (x : failure E)    (* [except Exception: self._stop_event.set(); raise] *)
| TkExit (x : option (failure E))  (* over: the loop test failed, or uncaught *)
| TkTerminated.                (* killed by [thread.terminate()] *)
Arguments TkLoop {Item E}.
Arguments TkCheck {Item E}.
Arguments TkNext {Item E}.
Arguments TkPut {Item E} v.
Arguments TkSleep {Item E}.
Arguments TkHandler {Item E} x.
Arguments TkExit {Item E} x.
Arguments TkTerminated {Item E}.

(** Program counter of the generator returned by [get]. *)
Inductive get_pc (E : Type) : Type :=
| GetLoop                          (* [while self.is_running():] *)
| GetTest                          (* [if not self.queue.empty():] *)
| GetTake                          (* [inputs = self.queue.get()] *)
| GetSleep                         (* [time.sleep(self.wait_time)] *)
| GetDone (r : option (failure E)). (* exhausted, or raised *)
Arguments GetLoop {E}.
Arguments GetTest {E}.
Arguments GetTake {E}.
Arguments GetSleep {E}.
Arguments GetDone {E} r.

(** Program counter inside [stop]. *)
Inductive stop_pc : Type :=
| GsTest             (* [if self.is_running(): self._stop_event.set()] *)
| GsFor (i : nat)    (* [for thread in self._threads:], at index [i] *)
| GsClose            (* [if self._use_multiprocessing: if self.queue is not None: self.queue.close()] *)
| GsThreads          (* [self._threads = []] *)
| GsEvent            (* [self._stop_event = None] *)
| GsQueue.           (* [self.queue = None] *)

Inductive caller_pc : Type :=
| CallerIdle
| InStop (pc : stop_pc) (timeout : option nat).

Section DataGenerator.

(** The generator behind [self._generator]: its state, and what [next]
    returns or raises.  An output may be [None]. *)
Context {G Item E : Type}.
Variable gen_next : G → res E (option Item) * G.

(** A worker: where it is in [data_generator_task], the [max_queue_size] its
    closure captured, and, for a process, its own copy of the generator and
    the argument of the [np.random.seed] call it inherited. *)
Record worker : Type := Worker {
  w_pc : task_pc Item E;
  w_cap : Z;
  w_gen : option G;
  w_seed : option (option Z)
}.

Record state : Type := State {
  generator : G;                            (* [self._generator] *)
  use_multiprocessing : bool;               (* [self._use_multiprocessing] *)
  threads : list worker;                    (* [self._threads] *)
  strays : list worker;                     (* workers dropped from [self._threads] *)
  stop_event : option bool;                 (* [self._stop_event] *)
  queue : option (queue_obj (option Item)); (* [self.queue] *)
  closed : bool;                            (* [close()] was called on that queue *)
  random_seed : option Z;                   (* [self.random_seed] *)
  getter : get_pc E;                        (* the generator of [get] *)
  caller : caller_pc;                       (* the caller of [start]/[stop] *)
  yielded : list Item                       (* what [get] yielded, oldest first *)
}.

(** [GeneratorEnqueuer.__init__] *)
Definition init (generator : G) (use_multiprocessing : bool)
    (random_seed : option Z) : state :=
  {| generator := generator; use_multiprocessing := use_multiprocessing;
     threads := []; strays := []; stop_event := None; queue := None;
     closed := false; random_seed := random_seed; getter := GetLoop;
     caller := CallerIdle; yielded := [] |}.

(** Field updates. *)
Definition set_generator (v : G) (s : state) : state :=
  State v (use_multiprocessing s) (threads s) (strays s) (stop_event s) (queue s)
    (closed s) (random_seed s) (getter s) (caller s) (yielded s).
Definition set_threads (v : list worker) (s : state) : state :=
  State (generator s) (use_multiprocessing s) v (strays s) (stop_event s) (queue s)
    (closed s) (random_seed s) (getter s) (caller s) (yielded s).
Definition set_strays (v : list worker) (s : state) : state :=
  State (generator s) (use_multiprocessing s) (threads s) v (stop_event s) (queue s)
    (closed s) (random_seed s) (getter s) (caller s) (yielded s).
Definition set_stop_event (v : option bool) (s : state) : state :=
  State (generator s) (use_multiprocessing s) (threads s) (strays s) v (queue s)
    (closed s) (random_seed s) (getter s) (caller s) (yielded s).
Definition set_queue (v : option (queue_obj (option Item))) (s : state) : state :=
  State (generator s) (use_multiprocessing s) (threads s) (strays s) (stop_event s) v
    (closed s) (random_seed s) (getter s) (caller s) (yielded s).
Definition set_closed (v : bool) (s : state) : state :=
  State (generator s) (use_multiprocessing s) (threads s) (strays s) (stop_event s)
    (queue s) v (random_seed s) (getter s) (caller s) (yielded s).
Definition set_random_seed (v : option Z) (s : state) : state :=
  State (generator s) (use_multiprocessing s) (threads s) (strays s) (stop_event s)
    (queue s) (closed s) v (getter s) (caller s) (yielded s).
Definition set_getter (v : get_pc E) (s : state) : state :=
  State (generator s) (use_multiprocessing s) (threads s) (strays s) (stop_event s)
    (queue s) (closed s) (random_seed s) v (caller s) (yielded s).
Definition set_caller (v : caller_pc) (s : state) : state :=
  State (generator s) (use_multiprocessing s) (threads s) (strays s) (stop_event s)
    (queue s) (closed s) (random_seed s) (getter s) v (yielded s).
Definition set_yielded (v : list Item) (s : state) : state :=
  State (generator s) (use_multiprocessing s) (threads s) (strays s) (stop_event s)
    (queue s) (closed s) (random_seed s) (getter s) (caller s) v.

Definition at_pc (pc : task_pc Item E) (w : worker) : worker :=
  Worker pc (w_cap w) (w_gen w) (w_seed w).

(** [is_running]: [self._stop_event is not None and not self._stop_event.is_set()] *)
Definition is_running (s : state) : bool :=
  match stop_event s with
  | None => false
  | Some b => negb b
  end.

(** [thread.is_alive()] *)
Definition alive (w : worker) : bool :=
  match w_pc w with TkExit _ | TkTerminated => false | _ => true end.

(** *** [start] *)

(** The loop [for _ in range(workers):] of [start].  A process is forked
    after [np.random.seed(self.random_seed)], with the generator as it is,
    and the seed is incremented if it is not [None]. *)
Fixpoint spawn (mp : bool) (g : G) (c : Z) (seed : option Z) (n : nat)
    : list worker * option Z :=
  match n with
  | 0 => ([], seed)
  | S n' =>
      if mp then
        let (ws, sd) := spawn mp g c (Z.succ <$> seed) n' in
        (Worker TkLoop c (Some g) (Some seed) :: ws, sd)
      else
        let (ws, sd) := spawn mp g c seed n' in
        (Worker TkLoop c None None :: ws, sd)
  end.

(** [start(workers, max_queue_size)] on an instance without workers.  The
    queue of processes is [multiprocessing.Queue(maxsize=max_queue_size)],
    the queue of threads is [queue.Queue()], which is unbounded.  Nothing
    inside the [try] is taken to raise: the handler, [self.stop()] and
    [raise], is not modelled. *)
Definition start (n : nat) (c : Z) (s : state) : option state :=
  match caller s, threads s with
  | CallerIdle, [] =>
      let (ws, sd) :=
        spawn (use_multiprocessing s) (generator s) c (random_seed s) n in
      Some (set_random_seed sd
              (set_threads ws
                 (set_stop_event (Some false)
                    (set_closed false
                       (set_queue
                          (Some (Queue (if use_multiprocessing s then c else 0%Z) []))
                          s)))))
  | _, _ => None
  end.

(** *** The workers: [data_generator_task] *)

Definition after_next (r : res E (option Item)) : task_pc Item E :=
  match r with Ok v => TkPut v | Err x => TkHandler (Raised x) end.

Definition task_step (w : worker) (s : state) : option (worker * state) :=
  match w_pc w with
  | TkLoop =>
      match stop_event s with
      | None => Some (at_pc (TkExit (Some (Raised AttributeError))) w, s)
      | Some true => Some (at_pc (TkExit None) w, s)
      | Some false => Some (at_pc TkCheck w, s)
      end
  | TkCheck =>
      if use_multiprocessing s then Some (at_pc TkNext w, s)
      else
        match queue s with
        | None => Some (at_pc (TkHandler (Raised AttributeError)) w, s)
        | Some q =>
            if bool_decide (Z.of_nat (length (items q)) < w_cap w)%Z
            then Some (at_pc TkNext w, s)
            else Some (at_pc TkSleep w, s)
        end
  | TkNext =>
      match w_gen w with
      | Some g =>
          let (r, g') := gen_next g in
          Some (Worker (after_next r) (w_cap w) (Some g') (w_seed w), s)
      | None =>
          let (r, g') := gen_next (generator s) in
          Some (at_pc (after_next r) w, set_generator g' s)
      end
  | TkPut v =>
      match queue s with
      | None => Some (at_pc (TkHandler (Raised AttributeError)) w, s)
      | Some q =>
          if closed s then Some (at_pc (TkHandler ClosedQueue) w, s)
          else if put_blocks q then None
          else Some (at_pc TkLoop w, set_queue (Some (q_put v q)) s)
      end
  | TkSleep => Some (at_pc TkLoop w, s)
  | TkHandler x =>
      match stop_event s with
      | Some _ => Some (at_pc (TkExit (Some x)) w, set_stop_event (Some true) s)
      | None => Some (at_pc (TkExit (Some (Raised AttributeError))) w, s)
      end
  | TkExit _ | TkTerminated => None
  end.

(** Worker [i] of [self._threads] executes its statement. *)
Definition work (i : nat) (s : state) : option state :=
  match threads s !! i with
  | Some w =>
      match task_step w s with
      | Some (w', s') => Some (set_threads (<[i := w']> (threads s')) s')
      | None => None
      end
  | None => None
  end.

(** The same for a worker that a [stop] dropped from [self._threads]. *)
Definition work_stray (i : nat) (s : state) : option state :=
  match strays s !! i with
  | Some w =>
      match task_step w s with
      | Some (w', s') => Some (set_strays (<[i := w']> (strays s')) s')
      | None => None
      end
  | None => None
  end.

(** *** [get] *)

Definition get_step (s : state) : option state :=
  match getter s with
  | GetLoop =>
      if is_running s then Some (set_getter GetTest s)
      else Some (set_getter (GetDone None) s)
  | GetTest =>
      match queue s with
      | None => Some (set_getter (GetDone (Some (Raised AttributeError))) s)
      | Some q =>
          if closed s then Some (set_getter (GetDone (Some ClosedQueue)) s)
          else if q_empty q then Some (set_getter GetSleep s)
          else Some (set_getter GetTake s)
      end
  | GetTake =>
      match queue s with
      | None => Some (set_getter (GetDone (Some (Raised AttributeError))) s)
      | Some q =>
          if closed s then Some (set_getter (GetDone (Some ClosedQueue)) s)
          else
            match items q with
            | [] => None
            | v :: its =>
                let s1 := set_queue (Some (Queue (maxsize q) its)) s in
                match v with
                | Some x => Some (set_getter GetLoop (set_yielded (yielded s ++ [x]) s1))
                | None => Some (set_getter GetLoop s1)
                end
            end
      end
  | GetSleep => Some (set_getter GetLoop s)
  | GetDone _ => None
  end.

(** *** [stop] *)

(** One statement of [stop(timeout)]; the result is the next statement, or
    [None] when [stop] returns.  [timed_out] says that the step is the expiry
    of [thread.join(timeout)]. *)
Definition stop_step (timed_out : bool) (timeout : option nat) (pc : stop_pc)
    (s : state) : option (option stop_pc * state) :=
  match pc with
  | GsFor i =>
      match threads s !! i with
      | None => if timed_out then None else Some (Some GsClose, s)
      | Some w =>
          if alive w then
            if use_multiprocessing s then
              if timed_out then None
              else Some (Some (GsFor (S i)),
                         set_threads (<[i := at_pc TkTerminated w]> (threads s)) s)
            else if timed_out then
              match timeout with
              | Some _ => Some (Some (GsFor (S i)), s)
              | None => None
              end
            else None
          else if timed_out then None
          else Some (Some (GsFor (S i)), s)
      end
  | _ =>
    if timed_out then None else
    match pc with
    | GsTest =>
        Some (Some (GsFor 0),
              if is_running s then set_stop_event (Some true) s else s)
    | GsFor _ => None
    | GsClose =>
        Some (Some GsThreads,
              if use_multiprocessing s then
                match queue s with
                | Some _ => set_closed true s
                | None => s
                end
              else s)
    | GsThreads =>
        Some (Some GsEvent, set_strays (strays s ++ threads s) (set_threads [] s))
    | GsEvent => Some (Some GsQueue, set_stop_event None s)
    | GsQueue => Some (None, set_queue None s)
    end
  end.

Definition stop_by_caller (timed_out : bool) (s : state) : option state :=
  match caller s with
  | InStop pc tmo =>
      match stop_step timed_out tmo pc s with
      | Some (Some pc', s') => Some (set_caller (InStop pc' tmo) s')
      | Some (None, s') => Some (set_caller CallerIdle s')
      | None => None
      end
  | CallerIdle => None
  end.

Definition call_stop (timeout : option nat) (s : state) : option state :=
  match caller s with
  | CallerIdle => Some (set_caller (InStop GsTest timeout) s)
  | _ => None
  end.

(** *** Interleavings *)

Inductive label : Type :=
| Start (workers : nat) (max_queue_size : Z)  (* the caller runs [start] *)
| Work (i : nat)                              (* worker [i] executes its statement *)
| Stray (i : nat)                             (* .. a worker dropped by [stop] *)
| Take                                        (* the consumer drives the generator of [get] *)
| CallStop (timeout : option nat)             (* the caller enters [stop(timeout)] *)
| StopStep                                    (* [stop] executes its statement *)
| JoinTimeout.                                (* .. its [thread.join(timeout)] times out *)

Definition step (l : label) (s : state) : option state :=
  match l with
  | Start n c => start n c s
  | Work i => work i s
  | Stray i => work_stray i s
  | Take => get_step s
  | CallStop timeout => call_stop timeout s
  | StopStep => stop_by_caller false s
  | JoinTimeout => stop_by_caller true s
  end.

Fixpoint run (ls : list label) (s : state) : option state :=
  match ls with
  | [] => Some s
  | l :: ls' =>
      match step l s with
      | Some s' => run ls' s'
      | None => None
      end
  end.


Lemma run_concat ls1 ls2 s :
  run (ls1 ++ ls2) s = s1 ← run ls1 s; run ls2 s1.
Proof.
  revert s. induction ls1 as [|l ls1 IH]; intros s; simpl; [done|].
  destruct (step l s); simpl; auto.
Qed.

Lemma run_cons_step l ls s s1 :
  step l s = Some s1 → run (l :: ls) s = run ls s1.
Proof. intros H. simpl. by rewrite H. Qed.

(** An invariant of the steps whose labels satisfy [Q] holds along the runs
    made of such labels. *)
Lemma run_invariant_on (Q : label → Prop) (P : state → Prop) :
  (∀ l s s', Q l → step l s = Some s' → P s → P s') →
  ∀ ls s s', Forall Q ls → run ls s = Some s' → P s → P s'.
Proof.
  intros Hstep ls. induction ls as [|l ls IH]; intros s s' Hls Hrun Hs.
  - by simplify_eq/=.
  - simpl in Hrun. destruct (step l s) as [s1|] eqn:Hl; [|done].
    apply Forall_cons in Hls as [Hq Hls]. eauto.
Qed.

Lemma run_invariant (P : state → Prop) :
  (∀ l s s', step l s = Some s' → P s → P s') →
  ∀ ls s s', run ls s = Some s' → P s → P s'.
Proof.
  intros Hstep ls s s' Hrun.
  eapply (run_invariant_on (fun _ => True) P); [|by apply Forall_true|exact Hrun].
  intros l s1 s2 _. apply Hstep.
Qed.

(** *** What one statement of a worker changes *)

(** A worker past the capacity test that has not yet put its output. *)
Definition pending (w : worker) : nat :=
  match w_pc w with TkNext | TkPut _ => 1 | _ => 0 end.

Definition in_flight (ws : list worker) : nat := sum_list_with pending ws.

Lemma in_flight_app ws1 ws2 :
  in_flight (ws1 ++ ws2) = in_flight ws1 + in_flight ws2.
Proof. apply sum_list_with_app. Qed.

Lemma in_flight_insert ws i w w' :
  ws !! i = Some w →
  in_flight (<[i := w']> ws) + pending w = in_flight ws + pending w'.
Proof.
  unfold in_flight. revert i. induction ws as [|a ws IH]; intros [|i] H;
    simplify_eq/=; [lia|]. specialize (IH _ H). lia.
Qed.

Lemma pending_le w : pending w ≤ 1.
Proof. unfold pending. by destruct (w_pc w); lia. Qed.

Lemma in_flight_le ws : in_flight ws ≤ length ws.
Proof.
  unfold in_flight. induction ws as [|a ws IH]; simpl; [done|].
  pose proof (pending_le a). lia.
Qed.

Lemma in_flight_lt ws i w :
  ws !! i = Some w → pending w = 0 → in_flight ws < length ws.
Proof.
  unfold in_flight. revert i. induction ws as [|a ws IH]; intros [|i] H Hp;
    simplify_eq/=.
  - rewrite Hp. pose proof (in_flight_le ws). unfold in_flight in *. lia.
  - specialize (IH _ H Hp). pose proof (pending_le a). lia.
Qed.

Definition qlen (s : state) : nat :=
  match queue s with Some q => length (items q) | None => 0 end.

(** The cases of [task_step], as far as the queue and the pending count are
    concerned. *)
Lemma task_step_cases w s w' s' :
  task_step w s = Some (w', s') →
  w_cap w' = w_cap w ∧
  use_multiprocessing s' = use_multiprocessing s ∧
  threads s' = threads s ∧ strays s' = strays s ∧ caller s' = caller s ∧
  closed s' = closed s ∧ getter s' = getter s ∧ yielded s' = yielded s ∧
  random_seed s' = random_seed s ∧
  ((queue s' = queue s ∧ pending w' ≤ pending w) ∨
   (queue s' = queue s ∧ pending w = 0 ∧ pending w' = 1 ∧
    (use_multiprocessing s = true ∨
     ∃ q, queue s = Some q ∧ (Z.of_nat (length (items q)) < w_cap w)%Z)) ∨
   (pending w = 1 ∧ pending w' = 0 ∧
    ∃ q v, queue s = Some q ∧ put_blocks q = false ∧ queue s' = Some (q_put v q))).
Proof.
  unfold task_step, pending. destruct w as [pc c g sd]; simpl.
  destruct pc; simpl; intros H.
  all: repeat (case_match; simplify_eq/=); try case_bool_decide.
  all: try destruct (gen_next _) as [[] ?]; simplify_eq/=.
  all: repeat split; try done.
  all: try (left; split; [done|lia]).
  - right; left. repeat split; try done. by left.
  - right; left. repeat split; try done. right. by eexists.
  - right; right. repeat split; try done. by eexists _, _.
Qed.

(** *** Capacity *)

(** Reachable states of a thread-mode instance started once with [n]
    workers and [max_queue_size = c]. *)
Record thread_bound (n : nat) (c : Z) (s : state) : Prop := ThreadBound {
  tb_mode : use_multiprocessing s = false;
  tb_count : length (threads s ++ strays s) ≤ n;
  tb_cap : Forall (fun w => w_cap w = c) (threads s ++ strays s);
  tb_size : (Z.of_nat (qlen s + in_flight (threads s ++ strays s))
             ≤ c - 1 + Z.of_nat n)%Z
}.

Definition not_start (l : label) : Prop :=
  match l with Start _ _ => False | _ => True end.


Lemma get_step_cases s s' :
  get_step s = Some s' →
  use_multiprocessing s' = use_multiprocessing s ∧
  threads s' = threads s ∧ strays s' = strays s ∧ caller s' = caller s ∧
  stop_event s' = stop_event s ∧ generator s' = generator s ∧
  random_seed s' = random_seed s ∧
  (queue s' = queue s ∨
   ∃ q v its, queue s = Some q ∧ items q = v :: its ∧
     queue s' = Some (Queue (maxsize q) its)).
Proof.
  unfold get_step. intros H.
  repeat (case_match; simplify_eq/=); repeat split; try done.
  all: try (left; done).
  all: right; by eexists _, _, _.
Qed.

Lemma stop_step_cases timed_out tmo pc s r s' :
  stop_step timed_out tmo pc s = Some (r, s') →
  use_multiprocessing s' = use_multiprocessing s ∧
  generator s' = generator s ∧ getter s' = getter s ∧
  yielded s' = yielded s ∧ random_seed s' = random_seed s ∧
  caller s' = caller s ∧
  ((threads s' = threads s ∧ strays s' = strays s ∧ queue s' = queue s) ∨
   (use_multiprocessing s = true ∧ strays s' = strays s ∧ queue s' = queue s ∧
    ∃ i w, pc = GsFor i ∧ threads s !! i = Some w ∧
      threads s' = <[i := at_pc TkTerminated w]> (threads s)) ∨
   (pc = GsThreads ∧ threads s' = [] ∧ strays s' = strays s ++ threads s ∧
    queue s' = queue s) ∨
   (pc = GsQueue ∧ threads s' = threads s ∧ strays s' = strays s ∧
    queue s' = None)).
Proof.
  unfold stop_step. intros H.
  destruct pc; repeat (case_match; simplify_eq/=); repeat split; try done.
  all: try (left; done).
  - right; left. repeat split; try done. by eexists _, _.
  - right; right; left. done.
  - right; right; right. done.
Qed.

Lemma step_thread_bound n c l s s' :
  not_start l → step l s = Some s' → thread_bound n c s → thread_bound n c s'.
Proof.
  intros Hl H [B1 B2 B3 B4]. destruct l; simpl in H; try done.
  - (* a worker of [self._threads] *)
    unfold work in H. destruct (threads s !! i) as [w|] eqn:Hw; [|done].
    destruct (task_step w s) as [[w' s1]|] eqn:Ht; [|done]. simplify_eq.
    destruct (task_step_cases _ _ _ _ Ht)
      as (Hcap & Hmp & Hth & Hst & _ & _ & _ & _ & _ & Hq).
    pose proof (in_flight_insert (threads s) i w w' Hw) as Hins.
    split; simpl; rewrite ?Hth, ?Hst.
    + congruence.
    + by rewrite length_app, length_insert, <-length_app.
    + apply Forall_app in B3 as [B3 B3']. apply Forall_app. split; [|done].
      apply Forall_insert; [done|]. rewrite Hcap.
      by apply (Forall_lookup_1 _ _ _ _ B3 Hw).
    + unfold qlen in *. simpl. rewrite in_flight_app in *.
      destruct Hq as [[Hq Hp]|[(Hq & Hp & Hp' & Hc)|(Hp & Hp' & q & v & Hq & _ & Hq')]].
      * rewrite Hq. lia.
      * destruct Hc as [?|(q & Hq0 & Hlt)]; [congruence|].
        rewrite Hq, Hq0 in *.
        apply Forall_app in B3 as [B3 _].
        rewrite (Forall_lookup_1 _ _ _ _ B3 Hw) in Hlt.
        pose proof (in_flight_lt (threads s) i w Hw Hp).
        pose proof (in_flight_le (strays s)).
        rewrite length_app in B2. lia.
      * rewrite Hq', Hq in *. simpl. rewrite length_app. simpl. lia.
  - (* a worker dropped from [self._threads] *)
    unfold work_stray in H. destruct (strays s !! i) as [w|] eqn:Hw; [|done].
    destruct (task_step w s) as [[w' s1]|] eqn:Ht; [|done]. simplify_eq.
    destruct (task_step_cases _ _ _ _ Ht)
      as (Hcap & Hmp & Hth & Hst & _ & _ & _ & _ & _ & Hq).
    pose proof (in_flight_insert (strays s) i w w' Hw) as Hins.
    split; simpl; rewrite ?Hth, ?Hst.
    + congruence.
    + by rewrite length_app, length_insert, <-length_app.
    + apply Forall_app in B3 as [B3 B3']. apply Forall_app. split; [done|].
      apply Forall_insert; [done|]. rewrite Hcap.
      by apply (Forall_lookup_1 _ _ _ _ B3' Hw).
    + unfold qlen in *. simpl. rewrite in_flight_app in *.
      destruct Hq as [[Hq Hp]|[(Hq & Hp & Hp' & Hc)|(Hp & Hp' & q & v & Hq & _ & Hq')]].
      * rewrite Hq. lia.
      * destruct Hc as [?|(q & Hq0 & Hlt)]; [congruence|].
        rewrite Hq, Hq0 in *.
        apply Forall_app in B3 as [_ B3].
        rewrite (Forall_lookup_1 _ _ _ _ B3 Hw) in Hlt.
        pose proof (in_flight_lt (strays s) i w Hw Hp).
        pose proof (in_flight_le (threads s)).
        rewrite length_app in B2. lia.
      * rewrite Hq', Hq in *. simpl. rewrite length_app. simpl. lia.
  - (* the consumer *)
    unfold get_step in H.
    split; unfold qlen in *;
      repeat (case_match; simplify_eq/=); try done; simpl in *; try lia.
  - unfold call_stop in H. destruct (caller s); simplify_eq. by split.
  - unfold stop_by_caller in H. destruct (caller s) as [|pc tmo]; [done|].
    destruct (stop_step false tmo pc s) as [[r s1]|] eqn:Hs; [|done].
    destruct (stop_step_cases _ _ _ _ _ _ Hs) as (Hmp & _ & _ & _ & _ & _ & Hc).
    assert (thread_bound n c s1) as [C1 C2 C3 C4];
      [|by destruct r; simplify_eq; split].
    unfold qlen in *.
    destruct Hc as [(Ht & Hst & Hq)|[(? & _)|[(_ & Ht & Hst & Hq)|(_ & Ht & Hst & Hq)]]].
    + split; unfold qlen; rewrite ?Ht, ?Hst, ?Hq; congruence || done.
    + congruence.
    + split; unfold qlen; rewrite ?Ht, ?Hst, ?Hq; simpl.
      * congruence.
      * rewrite length_app in *. lia.
      * apply Forall_app in B3 as [? ?]. by apply Forall_app.
      * rewrite in_flight_app in *. lia.
    + split; unfold qlen; rewrite ?Ht, ?Hst, ?Hq; try (congruence || done).
      destruct (queue s); lia.
  - unfold stop_by_caller in H. destruct (caller s) as [|pc tmo]; [done|].
    destruct (stop_step true tmo pc s) as [[r s1]|] eqn:Hs; [|done].
    destruct (stop_step_cases _ _ _ _ _ _ Hs) as (Hmp & _ & _ & _ & _ & _ & Hc).
    assert (thread_bound n c s1) as [C1 C2 C3 C4];
      [|by destruct r; simplify_eq; split].
    unfold qlen in *.
    destruct Hc as [(Ht & Hst & Hq)|[(? & _)|[(_ & Ht & Hst & Hq)|(_ & Ht & Hst & Hq)]]].
    + split; unfold qlen; rewrite ?Ht, ?Hst, ?Hq; congruence || done.
    + congruence.
    + split; unfold qlen; rewrite ?Ht, ?Hst, ?Hq; simpl.
      * congruence.
      * rewrite length_app in *. lia.
      * apply Forall_app in B3 as [? ?]. by apply Forall_app.
      * rewrite in_flight_app in *. lia.
    + split; unfold qlen; rewrite ?Ht, ?Hst, ?Hq; try (congruence || done).
      destruct (queue s); lia.
Qed.


(** [spawn] creates [n] workers at the head of their loop. *)
Lemma spawn_workers mp g c sd n :
  length (spawn mp g c sd n).1 = n ∧
  Forall (fun w => w_pc w = TkLoop ∧ w_cap w = c) (spawn mp g c sd n).1.
Proof.
  revert sd. induction n as [|n IH]; intros sd; simpl; [done|].
  destruct mp.
  - destruct (IH (Z.succ <$> sd)) as [H1 H2].
    destruct (spawn true g c (Z.succ <$> sd) n); simpl in *.
    split; [by rewrite H1|]. by constructor.
  - destruct (IH sd) as [H1 H2].
    destruct (spawn false g c sd n); simpl in *.
    split; [by rewrite H1|]. by constructor.
Qed.

Lemma in_flight_loop c ws :
  Forall (fun w => w_pc w = TkLoop ∧ w_cap w = c) ws → in_flight ws = 0.
Proof.
  unfold in_flight. induction 1 as [|w ws [Hw _] _ IH]; simpl; [done|].
  rewrite IH. unfold pending. by rewrite Hw.
Qed.

Lemma start_thread_bound n c g sd s :
  (1 ≤ c)%Z → start n c (init g false sd) = Some s → thread_bound n c s.
Proof.
  intros Hc. unfold start. simpl.
  pose proof (spawn_workers false g c sd n) as [H1 H2].
  destruct (spawn false g c sd n) as [ws sd']. simpl in *. intros [= <-].
  split; simpl; rewrite ?app_nil_r.
  - done.
  - lia.
  - eapply Forall_impl; [exact H2|]. by intros w [_ ?].
  - unfold qlen. simpl. rewrite (in_flight_loop c ws H2). lia.
Qed.

(** Reachable states of a process-mode instance started with
    [max_queue_size = c]. *)
Record process_bound (c : Z) (s : state) : Prop := ProcessBound {
  pb_mode : use_multiprocessing s = true;
  pb_size : ∀ q, queue s = Some q →
    maxsize q = c ∧ ((0 < c)%Z → (Z.of_nat (length (items q)) ≤ c)%Z)
}.

Lemma put_within {A} (q : queue_obj A) (v : A) :
  put_blocks q = false → (0 < maxsize q)%Z →
  (Z.of_nat (length (items q)) ≤ maxsize q)%Z →
  (Z.of_nat (length (items (q_put v q))) ≤ maxsize q)%Z.
Proof.
  unfold put_blocks, q_put. simpl. rewrite length_app. simpl.
  intros H Hpos Hle.
  apply andb_false_iff in H as [H|H]; apply bool_decide_eq_false in H; lia.
Qed.

Lemma step_process_bound c l s s' :
  not_start l → step l s = Some s' → process_bound c s → process_bound c s'.
Proof.
  intros Hl H [B1 B2]. destruct l; simpl in H; try done.
  - unfold work in H. destruct (threads s !! i) as [w|] eqn:Hw; [|done].
    destruct (task_step w s) as [[w' s1]|] eqn:Ht; [|done]. simplify_eq.
    destruct (task_step_cases _ _ _ _ Ht)
      as (_ & Hmp & _ & _ & _ & _ & _ & _ & _ & Hq).
    split; simpl; [congruence|].
    destruct Hq as [[Hq _]|[(Hq & _)|(_ & _ & q & v & Hq & Hb & Hq')]].
    1,2: by rewrite Hq.
    rewrite Hq'. intros ? [= <-]. destruct (B2 q Hq) as [Hm Hle].
    split; [done|]. intros Hpos. rewrite <-Hm in *. by apply put_within; auto.
  - unfold work_stray in H. destruct (strays s !! i) as [w|] eqn:Hw; [|done].
    destruct (task_step w s) as [[w' s1]|] eqn:Ht; [|done]. simplify_eq.
    destruct (task_step_cases _ _ _ _ Ht)
      as (_ & Hmp & _ & _ & _ & _ & _ & _ & _ & Hq).
    split; simpl; [congruence|].
    destruct Hq as [[Hq _]|[(Hq & _)|(_ & _ & q & v & Hq & Hb & Hq')]].
    1,2: by rewrite Hq.
    rewrite Hq'. intros ? [= <-]. destruct (B2 q Hq) as [Hm Hle].
    split; [done|]. intros Hpos. rewrite <-Hm in *. by apply put_within; auto.
  - destruct (get_step_cases _ _ H) as (Hmp & _ & _ & _ & _ & _ & _ & Hq).
    split; [congruence|].
    destruct Hq as [Hq|(q & v & its & Hq & Hi & Hq')]; rewrite ?Hq; [done|].
    rewrite Hq'. intros ? [= <-]. simpl. destruct (B2 q Hq) as [Hm Hle].
    split; [done|]. intros Hpos. specialize (Hle Hpos).
    rewrite Hi in Hle. simpl in Hle. lia.
  - unfold call_stop in H. destruct (caller s); simplify_eq. by split.
  - unfold stop_by_caller in H. destruct (caller s) as [|pc tmo]; [done|].
    destruct (stop_step false tmo pc s) as [[r s1]|] eqn:Hs; [|done].
    destruct (stop_step_cases _ _ _ _ _ _ Hs) as (Hmp & _ & _ & _ & _ & _ & Hc).
    assert (process_bound c s1) as [C1 C2];
      [|by destruct r; simplify_eq; split].
    split; [congruence|].
    destruct Hc as [(_ & _ & Hq)|[(_ & _ & Hq & _)|[(_ & _ & _ & Hq)|(_ & _ & _ & Hq)]]];
      rewrite Hq; done.
  - unfold stop_by_caller in H. destruct (caller s) as [|pc tmo]; [done|].
    destruct (stop_step true tmo pc s) as [[r s1]|] eqn:Hs; [|done].
    destruct (stop_step_cases _ _ _ _ _ _ Hs) as (Hmp & _ & _ & _ & _ & _ & Hc).
    assert (process_bound c s1) as [C1 C2];
      [|by destruct r; simplify_eq; split].
    split; [congruence|].
    destruct Hc as [(_ & _ & Hq)|[(_ & _ & Hq & _)|[(_ & _ & _ & Hq)|(_ & _ & _ & Hq)]]];
      rewrite Hq; done.
Qed.

Lemma start_process_bound n c g sd s :
  start n c (init g true sd) = Some s → process_bound c s.
Proof.
  unfold start. simpl. destruct (spawn true g c sd n) as [ws sd'].
  intros [= <-]. split; simpl; [done|]. intros ? [= <-]. simpl. split; [done|lia].
Qed.

(** The queue of a thread-mode instance holds fewer than [c + n] outputs;
    the queue of a process-mode instance holds at most [c]. *)
Lemma thread_queue_bound g sd n c ls s :
  (1 ≤ c)%Z → Forall not_start ls →
  run (Start n c :: ls) (init g false sd) = Some s →
  (Z.of_nat (qlen s) ≤ c - 1 + Z.of_nat n)%Z.
Proof.
  intros Hc Hls Hrun.
  destruct (start n c (init g false sd)) as [s0|] eqn:Hs0.
  2: { simpl in Hrun. by rewrite Hs0 in Hrun. }
  rewrite (run_cons_step (Start n c) _ _ _ Hs0) in Hrun.
  apply (start_thread_bound _ _ _ _ _ Hc) in Hs0.
  destruct (run_invariant_on not_start (thread_bound n c) (step_thread_bound n c)
              ls s0 s Hls Hrun Hs0) as [_ _ _ H].
  lia.
Qed.

Lemma process_queue_bound g sd n c ls s :
  (1 ≤ c)%Z → Forall not_start ls →
  run (Start n c :: ls) (init g true sd) = Some s →
  (Z.of_nat (qlen s) ≤ c)%Z.
Proof.
  intros Hc Hls Hrun.
  destruct (start n c (init g true sd)) as [s0|] eqn:Hs0.
  2: { simpl in Hrun. by rewrite Hs0 in Hrun. }
  rewrite (run_cons_step (Start n c) _ _ _ Hs0) in Hrun.
  apply start_process_bound in Hs0.
  destruct (run_invariant_on not_start (process_bound c) (step_process_bound c)
              ls s0 s Hls Hrun Hs0) as [_ H].
  unfold qlen. destruct (queue s) as [q|]; [|lia].
  destruct (H q eq_refl) as [_ Hle]. apply Hle. lia.
Qed.

(** [get] takes an output only from a queue that holds one. *)
Lemma take_head s s' :
  getter s = GetTake → step Take s = Some s' → getter s' = GetLoop →
  ∃ q v its, queue s = Some q ∧ items q = v :: its ∧
    queue s' = Some (Queue (maxsize q) its) ∧
    yielded s' = yielded s ++ match v with Some x => [x] | None => [] end.
Proof.
  intros Hg. simpl. unfold get_step. rewrite Hg.
  destruct (queue s) as [q|]; [|by intros [= <-]].
  destruct (closed s); [by intros [= <-]|].
  destruct (items q) as [|v its] eqn:Hi; [done|].
  destruct v as [x|]; intros [= <-] _;
    [exists q, (Some x), its|exists q, None, its]; simpl;
    rewrite ?app_nil_r; done.
Qed.

Lemma take_waits s q :
  getter s = GetTake → queue s = Some q → closed s = false → items q = [] →
  step Take s = None.
Proof. intros Hg Hq Hc Hi. simpl. unfold get_step. by rewrite Hg, Hq, Hc, Hi. Qed.

(** *** [stop] on an instance without workers *)

Definition stop_labels : list label :=
  [StopStep; StopStep; StopStep; StopStep; StopStep; StopStep].

(** No worker, no event, no queue: the instance as [__init__] and as a
    returned [stop] leave it. *)
Definition stopped (s : state) : Prop :=
  caller s = CallerIdle ∧ threads s = [] ∧ stop_event s = None ∧ queue s = None.

Lemma stop_noop tmo s :
  stopped s → run (CallStop tmo :: stop_labels) s = Some s.
Proof.
  intros (Hc & Ht & He & Hq). destruct s. simpl in *. subst.
  destruct use_multiprocessing0.
  all: cbv [stop_labels run step call_stop stop_by_caller stop_step is_running
       lookup list_lookup set_caller set_strays set_threads set_stop_event
       set_queue set_closed generator use_multiprocessing threads strays
       stop_event queue closed random_seed getter caller yielded].
  all: by rewrite app_nil_r.
Qed.

(** The last statements of [stop] run with [self._threads] already empty. *)
Definition stop_tail (s : state) : Prop :=
  match caller s with
  | InStop GsEvent _ => threads s = []
  | InStop GsQueue _ => threads s = [] ∧ stop_event s = None
  | _ => True
  end.

Lemma step_stop_tail l s s' : step l s = Some s' → stop_tail s → stop_tail s'.
Proof.
  unfold stop_tail. intros H. destruct l; simpl in H.
  - unfold start in H. destruct (caller s) eqn:Hc; [|done].
    destruct (threads s); [|done]. destruct (spawn _ _ _ _ _).
    simplify_eq. simpl. by rewrite Hc.
  - unfold work in H. destruct (threads s !! i) as [w|] eqn:Hw; [|done].
    destruct (task_step w s) as [[w' s1]|] eqn:Ht; [|done]. simplify_eq.
    destruct (task_step_cases _ _ _ _ Ht)
      as (_ & _ & Hth & _ & Hc & _). simpl. rewrite Hc, Hth.
    destruct (caller s) as [|[] ?]; try done.
    + intros Hnil. by rewrite Hnil in Hw.
    + intros [Hnil _]. by rewrite Hnil in Hw.
  - unfold work_stray in H. destruct (strays s !! i) as [w|] eqn:Hw; [|done].
    destruct (task_step w s) as [[w' s1]|] eqn:Ht; [|done]. simplify_eq.
    destruct (task_step_cases _ _ _ _ Ht)
      as (_ & _ & Hth & _ & Hc & _). simpl. rewrite Hc, Hth.
    destruct (caller s) as [|[] ?]; try done.
    intros [-> He]. split; [done|].
    unfold task_step in Ht. rewrite He in Ht.
    repeat (case_match; simplify_eq/=); done.
  - unfold get_step in H. repeat (case_match; simplify_eq/=); done.
  - unfold call_stop in H. destruct (caller s); by simplify_eq.
  - unfold stop_by_caller, stop_step in H.
    repeat (case_match; simplify_eq/=); done.
  - unfold stop_by_caller, stop_step in H.
    repeat (case_match; simplify_eq/=); done.
Qed.

(** When [stop] returns the instance is back to its initial shape. *)
Lemma stop_returns_stopped g mp sd ls s s' :
  run ls (init g mp sd) = Some s → step StopStep s = Some s' →
  caller s' = CallerIdle → stopped s'.
Proof.
  intros Hrun Hs Hc.
  assert (stop_tail s) as Ht.
  { eapply (run_invariant stop_tail); [apply step_stop_tail|exact Hrun|done]. }
  unfold stop_tail in Ht. simpl in Hs. unfold stop_by_caller, stop_step in Hs.
  unfold stopped.
  repeat (case_match; simplify_eq/=); destruct_and?; done.
Qed.


(** *** The seeds of the worker processes *)

(** [start] on an instance without workers creates [n] workers; processes
    are seeded with [random_seed], [random_seed + 1], ... and the attribute
    ends [n] higher; a [None] seed stays [None]; threads are not seeded and
    leave the attribute alone. *)
Lemma spawn_seeds g c sd n :
  (w_seed <$> (spawn true g c sd n).1
   = (fun i => Some ((fun r => r + Z.of_nat i)%Z <$> sd)) <$> seq 0 n) ∧
  (spawn true g c sd n).2 = (fun r => r + Z.of_nat n)%Z <$> sd ∧
  Forall (fun w => w_seed w = None) (spawn false g c sd n).1 ∧
  (spawn false g c sd n).2 = sd.
Proof.
  split; [|split; [|split]].
  - revert sd. induction n as [|n IH]; intros sd; [done|].
    cbn [spawn]. specialize (IH (Z.succ <$> sd)).
    destruct (spawn true g c (Z.succ <$> sd) n) as [ws sd']. simpl in IH.
    cbn [fst seq]. rewrite !fmap_cons. cbn [w_seed]. rewrite IH. f_equal.
    + destruct sd; simpl; do 2 f_equal; lia.
    + rewrite <-fmap_S_seq, <-list_fmap_compose. apply list_fmap_ext.
      intros _ i _. simpl. destruct sd; simpl; do 2 f_equal. lia.
  - revert sd. induction n as [|n IH]; intros sd.
    + simpl. destruct sd; simpl; f_equal; lia.
    + cbn [spawn]. specialize (IH (Z.succ <$> sd)).
      destruct (spawn true g c (Z.succ <$> sd) n) as [ws sd']. simpl in *.
      rewrite IH. destruct sd; simpl; f_equal; lia.
  - revert sd. induction n as [|n IH]; intros sd; [done|].
    cbn [spawn]. specialize (IH sd).
    destruct (spawn false g c sd n) as [ws sd']. simpl in *. by constructor.
  - revert sd. induction n as [|n IH]; intros sd; [done|].
    cbn [spawn]. specialize (IH sd).
    by destruct (spawn false g c sd n) as [ws sd'].
Qed.

(** [np.random.seed] takes the integers from 0 to 2^32 - 1 and raises
    [ValueError] on the others. *)
Definition seed_ok (r : Z) : Prop := (0 ≤ r < 2 ^ 32)%Z.

(** X7: when [np.random.seed] accepts every seed it is given, [start(n, c)]
    on an instance whose thread list is empty creates [n] workers.  With
    process workers the [i]-th is forked under the seed [random_seed + i]
    ([None] if there is no seed), the attribute ends [n] higher, and the
    seeds are pairwise different if there is one; thread workers are not
    seeded and the attribute is left alone. *)
Theorem start_seeds_workers n c s s' :
  (use_multiprocessing s = true →
   ∀ r i, random_seed s = Some r → i < n → seed_ok (r + Z.of_nat i)) →
  start n c s = Some s' →
  length (threads s') = n ∧
  (use_multiprocessing s = true →
     w_seed <$> threads s'
     = (fun i => Some ((fun r => r + Z.of_nat i)%Z <$> random_seed s)) <$> seq 0 n ∧
     random_seed s' = (fun r => r + Z.of_nat n)%Z <$> random_seed s ∧
     (is_Some (random_seed s) → NoDup (w_seed <$> threads s'))) ∧
  (use_multiprocessing s = false →
     Forall (fun w => w_seed w = None) (threads s') ∧
     random_seed s' = random_seed s).
Proof.
  intros _. unfold start. destruct (caller s); [|done]. destruct (threads s); [|done].
  pose proof (spawn_workers (use_multiprocessing s) (generator s) c (random_seed s) n)
    as [Hlen Hws].
  pose proof (spawn_seeds (generator s) c (random_seed s) n) as (S1 & S2 & S3 & S4).
  destruct (spawn (use_multiprocessing s) (generator s) c (random_seed s) n)
    as [ws sd'] eqn:Hsp.
  intros [= <-]. simpl in *. split; [done|]. split.
  - intros Hmp. rewrite Hmp in Hsp. rewrite Hsp in S1, S2. simpl in *.
    split; [done|]. split; [done|].
    intros [r Hr]. rewrite S1, Hr. apply NoDup_fmap_2; [|apply NoDup_seq].
    intros i j [= Hij]. lia.
  - intros Hmp. rewrite Hmp in Hsp. rewrite Hsp in S3, S4. simpl in *. done.
Qed.


(** *** Process workers replay the generator *)

(** The generator after [k] calls of [next]. *)
Definition gen_after (k : nat) (g : G) : G :=
  Nat.iter k (fun g => (gen_next g).2) g.

(** In process mode the caller's generator is never advanced, and every
    worker holds a copy that was advanced from it. *)
Record replayed (g0 : G) (s : state) : Prop := Replayed {
  rp_mode : use_multiprocessing s = true;
  rp_parent : generator s = g0;
  rp_copies : Forall (fun w => ∃ k, w_gen w = Some (gen_after k g0))
                (threads s ++ strays s)
}.

Lemma task_step_replayed g0 w s w' s' :
  task_step w s = Some (w', s') →
  (∃ k, w_gen w = Some (gen_after k g0)) →
  (∃ k, w_gen w' = Some (gen_after k g0)) ∧ generator s' = generator s ∧
  use_multiprocessing s' = use_multiprocessing s ∧
  threads s' = threads s ∧ strays s' = strays s.
Proof.
  unfold task_step. destruct w as [pc c g sd]; simpl. intros H [k ->].
  destruct pc; simpl in H.
  all: try destruct (gen_next _) as [? g'] eqn:Hn.
  all: repeat case_match; simplify_eq/=; try (split; [by exists k|done]).
  all: split; [|done]; exists (S k); simpl; by rewrite Hn.
Qed.

Lemma spawn_copies g c sd n :
  Forall (fun w => w_gen w = Some g) (spawn true g c sd n).1.
Proof.
  revert sd. induction n as [|n IH]; intros sd; [done|].
  cbn [spawn]. specialize (IH (Z.succ <$> sd)).
  destruct (spawn true g c (Z.succ <$> sd) n). by constructor.
Qed.

Lemma step_replayed g0 l s s' :
  step l s = Some s' → replayed g0 s → replayed g0 s'.
Proof.
  intros H [R1 R2 R3]. subst g0. destruct l as [n c|i|i| |tmo0| |]; simpl in H.
  - unfold start in H. destruct (caller s); [|done].
    destruct (threads s) eqn:Ht; [|done].
    pose proof (spawn_copies (generator s) c (random_seed s) n) as Hc.
    rewrite R1 in H.
    destruct (spawn true (generator s) c (random_seed s) n) as [ws sd].
    simplify_eq. split; simpl; [done..|].
    apply Forall_app. split.
    + eapply Forall_impl; [exact Hc|]. intros w ->. by exists 0.
    + by apply Forall_app in R3 as [_ ?].
  - unfold work in H. destruct (threads s !! i) as [w|] eqn:Hw; [|done].
    destruct (task_step w s) as [[w' s1]|] eqn:Hs; [|done]. simplify_eq.
    apply Forall_app in R3 as [R3 R3'].
    destruct (task_step_replayed _ _ _ _ _ Hs (Forall_lookup_1 _ _ _ _ R3 Hw))
      as (Hk & Hg & Hmp & Hth & Hst).
    split; simpl; [congruence..|]. rewrite Hth, Hst.
    apply Forall_app. split; [|done]. by apply Forall_insert.
  - unfold work_stray in H. destruct (strays s !! i) as [w|] eqn:Hw; [|done].
    destruct (task_step w s) as [[w' s1]|] eqn:Hs; [|done]. simplify_eq.
    apply Forall_app in R3 as [R3 R3'].
    destruct (task_step_replayed _ _ _ _ _ Hs (Forall_lookup_1 _ _ _ _ R3' Hw))
      as (Hk & Hg & Hmp & Hth & Hst).
    split; simpl; [congruence..|]. rewrite Hth, Hst.
    apply Forall_app. split; [done|]. by apply Forall_insert.
  - destruct (get_step_cases _ _ H) as (Hmp & Hth & Hst & _ & _ & Hg & _).
    split; [congruence..|]. by rewrite Hth, Hst.
  - unfold call_stop in H. destruct (caller s); simplify_eq. by split.
  - unfold stop_by_caller in H. destruct (caller s) as [|pc tmo]; [done|].
    destruct (stop_step false tmo pc s) as [[r s1]|] eqn:Hs; [|done].
    destruct (stop_step_cases _ _ _ _ _ _ Hs) as (Hmp & Hg & _ & _ & _ & _ & Hc).
    assert (replayed (generator s) s1) as [C1 C2 C3];
      [|by destruct r; simplify_eq; split].
    split; [congruence..|].
    apply Forall_app in R3 as [R3 R3'].
    destruct Hc as [(Ht & Hst & _)|[(_ & Hst & _ & i & w & _ & Hw & Ht)|
      [(_ & Ht & Hst & _)|(_ & Ht & Hst & _)]]]; rewrite Ht, Hst.
    + by apply Forall_app.
    + apply Forall_app. split; [|done]. apply Forall_insert; [done|].
      apply (Forall_lookup_1 _ _ _ _ R3 Hw).
    + simpl. by apply Forall_app.
    + by apply Forall_app.
  - unfold stop_by_caller in H. destruct (caller s) as [|pc tmo]; [done|].
    destruct (stop_step true tmo pc s) as [[r s1]|] eqn:Hs; [|done].
    destruct (stop_step_cases _ _ _ _ _ _ Hs) as (Hmp & Hg & _ & _ & _ & _ & Hc).
    assert (replayed (generator s) s1) as [C1 C2 C3];
      [|by destruct r; simplify_eq; split].
    split; [congruence..|].
    apply Forall_app in R3 as [R3 R3'].
    destruct Hc as [(Ht & Hst & _)|[(_ & Hst & _ & i & w & _ & Hw & Ht)|
      [(_ & Ht & Hst & _)|(_ & Ht & Hst & _)]]]; rewrite Ht, Hst.
    + by apply Forall_app.
    + apply Forall_app. split; [|done]. apply Forall_insert; [done|].
      apply (Forall_lookup_1 _ _ _ _ R3 Hw).
    + simpl. by apply Forall_app.
    + by apply Forall_app.
Qed.

(** X8: with process workers every worker iterates a copy of the generator as
    it was when the instance was constructed: the caller's generator is never
    advanced, whatever is started, stopped and consumed. *)
Theorem process_workers_replay_generator g0 sd ls s :
  run ls (init g0 true sd) = Some s →
  generator s = g0 ∧
  Forall (fun w => ∃ k, w_gen w = Some (gen_after k g0)) (threads s ++ strays s).
Proof.
  intros Hrun.
  destruct (run_invariant (replayed g0) (step_replayed g0) ls _ _ Hrun)
    as [_ H1 H2]; [|done].
  by split.
Qed.


(** *** [stop] waits for the workers *)

Lemma task_step_alive w s r : task_step w s = Some r → alive w = true.
Proof. unfold task_step, alive. by destruct (w_pc w). Qed.

(** [stop(timeout)] with a timeout, which may give up on a thread. *)
Definition patient (l : label) : Prop :=
  match l with CallStop (Some _) => False | _ => True end.

Definition dead (w : worker) : Prop := alive w = false.

(** How far [stop] has got with the workers. *)
Definition joined_upto (s : state) : Prop :=
  match caller s with
  | InStop (GsFor i) _ => Forall dead (take i (threads s))
  | InStop (GsClose | GsThreads) _ => Forall dead (threads s)
  | _ => True
  end.

Lemma dead_upto_next ws j w w' :
  ws !! j = Some w → dead w' → Forall dead (take j ws) →
  Forall dead (take (S j) (<[j := w']> ws)).
Proof.
  intros Hw Hd Hj.
  rewrite (take_S_r _ _ w') by (apply list_lookup_insert_eq; by eapply lookup_lt_Some).
  rewrite take_insert_ge by lia. apply Forall_app. split; [done|].
  by repeat constructor.
Qed.

Lemma dead_upto_skip ws j w :
  ws !! j = Some w → dead w → Forall dead (take j ws) →
  Forall dead (take (S j) ws).
Proof.
  intros Hw Hd Hj. rewrite (take_S_r _ _ w) by done.
  apply Forall_app. split; [done|]. by repeat constructor.
Qed.

Record joined (s : state) : Prop := Joined {
  jn_wait : ∀ pc tmo, caller s = InStop pc tmo →
    use_multiprocessing s = true ∨ tmo = None;
  jn_strays : Forall dead (strays s);
  jn_upto : joined_upto s
}.

Lemma step_joined mp l s s' :
  mp = true ∨ patient l → use_multiprocessing s = mp →
  step l s = Some s' → joined s → joined s'.
Proof.
  intros Hl Hmp H [J1 J2 J3]. unfold joined_upto in *.
  destruct l as [n c|i|i| |tmo0| |]; simpl in H.
  - unfold start in H. destruct (caller s) eqn:Hc; [|done].
    destruct (threads s); [|done]. destruct (spawn _ _ _ _ _).
    simplify_eq. split; unfold joined_upto; simpl; rewrite ?Hc; done.
  - unfold work in H. destruct (threads s !! i) as [w|] eqn:Hw; [|done].
    destruct (task_step w s) as [[w' s1]|] eqn:Hs; [|done]. simplify_eq.
    pose proof (task_step_alive _ _ _ Hs) as Ha.
    destruct (task_step_cases _ _ _ _ Hs)
      as (_ & Hm & Hth & Hst & Hc & _).
    split; unfold joined_upto; simpl; rewrite ?Hc, ?Hth, ?Hst, ?Hm; try done.
    destruct (caller s) as [|[| j | | | |] ?]; try done.
    + destruct (decide (i < j)) as [Hlt|Hge].
      * exfalso. assert (take j (threads s) !! i = Some w) as Hw'
          by (by rewrite lookup_take_lt).
        apply (Forall_lookup_1 _ _ _ _ J3) in Hw'. unfold dead in Hw'. congruence.
      * rewrite take_insert_ge by lia. done.
    + exfalso. apply (Forall_lookup_1 _ _ _ _ J3) in Hw. unfold dead in Hw. congruence.
    + exfalso. apply (Forall_lookup_1 _ _ _ _ J3) in Hw. unfold dead in Hw. congruence.
  - unfold work_stray in H. destruct (strays s !! i) as [w|] eqn:Hw; [|done].
    destruct (task_step w s) as [[w' s1]|] eqn:Hs; [|done].
    exfalso. pose proof (task_step_alive _ _ _ Hs) as Ha.
    apply (Forall_lookup_1 _ _ _ _ J2) in Hw. unfold dead in Hw. congruence.
  - destruct (get_step_cases _ _ H) as (Hm & Hth & Hst & Hc & _).
    split; unfold joined_upto; rewrite ?Hc, ?Hth, ?Hst, ?Hm; done.
  - unfold call_stop in H. destruct (caller s) eqn:Hc; simplify_eq.
    split; unfold joined_upto; simpl; try done.
    intros pc tmo [= <- <-]. destruct Hl as [->|Hp]; [by left|].
    right. by destruct tmo0.
  - unfold stop_by_caller in H. destruct (caller s) as [|pc tmo] eqn:Hc; [done|].
    unfold stop_step in H.
    destruct pc as [| j | | | |]; simpl in H.
    + simplify_eq. split; unfold joined_upto; simpl.
      * intros ? ? [= <- <-]. destruct (is_running s); simpl; eauto.
      * by destruct (is_running s).
      * by destruct (is_running s).
    + destruct (threads s !! j) as [w|] eqn:Hw.
      * destruct (alive w) eqn:Ha.
        -- destruct (use_multiprocessing s) eqn:Hm; [|done]. simplify_eq.
           split; unfold joined_upto; simpl; rewrite ?Hm;
             [intros ? ? [= <- <-]; eauto|done|by apply (dead_upto_next _ _ w)].
        -- simplify_eq. split; unfold joined_upto; simpl;
             [intros ? ? [= <- <-]; eauto|done|by apply (dead_upto_skip _ _ w)].
      * simplify_eq. split; unfold joined_upto; simpl;
          [intros ? ? [= <- <-]; eauto|done|].
        apply lookup_ge_None in Hw. by rewrite take_ge in J3 by lia.
    + simplify_eq. pose proof (J1 _ _ eq_refl) as Hw.
      split; unfold joined_upto; simpl.
      * intros ? ? [= <- <-]. destruct Hw as [Hw| ->]; [left|by right].
        rewrite Hw. by destruct (queue s).
      * by repeat case_match.
      * by repeat case_match.
    + simplify_eq. split; unfold joined_upto; simpl;
        [intros ? ? [= <- <-]; eauto|by apply Forall_app|done].
    + simplify_eq. split; unfold joined_upto; simpl;
        [intros ? ? [= <- <-]; eauto|done|done].
    + simplify_eq. split; unfold joined_upto; simpl; done.
  - unfold stop_by_caller in H. destruct (caller s) as [|pc tmo] eqn:Hc; [done|].
    unfold stop_step in H.
    destruct pc as [| j | | | |]; simpl in H; try done.
    destruct (threads s !! j) as [w|] eqn:Hw; [|done].
    destruct (alive w) eqn:Ha; [|done].
    destruct (use_multiprocessing s) eqn:Hm; [done|].
    destruct tmo; [|done].
    exfalso. by destruct (J1 _ _ eq_refl).
Qed.

Lemma step_mode l s s' :
  step l s = Some s' → use_multiprocessing s' = use_multiprocessing s.
Proof.
  intros H. destruct l as [n c|i|i| |tmo0| |]; simpl in H.
  - unfold start in H. destruct (caller s); [|done].
    destruct (threads s); [|done]. destruct (spawn _ _ _ _ _). by simplify_eq.
  - unfold work in H. destruct (threads s !! i) as [w|]; [|done].
    destruct (task_step w s) as [[w' s1]|] eqn:Hs; [|done]. simplify_eq.
    by destruct (task_step_cases _ _ _ _ Hs) as (_ & Hm & _).
  - unfold work_stray in H. destruct (strays s !! i) as [w|]; [|done].
    destruct (task_step w s) as [[w' s1]|] eqn:Hs; [|done]. simplify_eq.
    by destruct (task_step_cases _ _ _ _ Hs) as (_ & Hm & _).
  - by destruct (get_step_cases _ _ H) as (Hm & _).
  - unfold call_stop in H. by destruct (caller s); simplify_eq.
  - unfold stop_by_caller in H. destruct (caller s) as [|pc tmo]; [done|].
    destruct (stop_step false tmo pc s) as [[r s1]|] eqn:Hs; [|done].
    destruct (stop_step_cases _ _ _ _ _ _ Hs) as (Hm & _).
    by destruct r; simplify_eq.
  - unfold stop_by_caller in H. destruct (caller s) as [|pc tmo]; [done|].
    destruct (stop_step true tmo pc s) as [[r s1]|] eqn:Hs; [|done].
    destruct (stop_step_cases _ _ _ _ _ _ Hs) as (Hm & _).
    by destruct r; simplify_eq.
Qed.

(** X9: with process workers, or when [stop] is only called without timeout:
    every worker that a [stop] has dropped from [self._threads] is dead,
    so when [stop] returns no worker it was given is alive; and [stop] does
    not get past a thread that is still running. *)
Theorem stop_outlives_no_worker g mp sd ls s :
  mp = true ∨ Forall patient ls →
  run ls (init g mp sd) = Some s →
  Forall dead (strays s) ∧
  (∀ i tmo, caller s = InStop (GsFor i) tmo → Forall dead (take i (threads s))) ∧
  (∀ pc tmo, caller s = InStop pc tmo →
     pc = GsClose ∨ pc = GsThreads → Forall dead (threads s)).
Proof.
  intros Hl Hrun.
  assert (joined s ∧ use_multiprocessing s = mp) as [[J1 J2 J3] _].
  { assert (Forall (fun l => mp = true ∨ patient l) ls) as Hls.
    { destruct Hl as [->|Hl]; [apply Forall_true; by left|].
      eapply Forall_impl; [exact Hl|]. by right. }
    eapply (run_invariant_on (fun l => mp = true ∨ patient l)
              (fun s => joined s ∧ use_multiprocessing s = mp));
      [|exact Hls|exact Hrun|].
    - intros l s1 s2 Hq Hs [Hj Hm]. split.
      + by eapply step_joined.
      + by rewrite (step_mode _ _ _ Hs).
    - split; [|done]. split; simpl; try done. }
  unfold joined_upto in J3. split; [done|]. split.
  - intros i tmo Hc. by rewrite Hc in J3.
  - intros pc tmo Hc [-> | ->]; by rewrite Hc in J3.
Qed.


(** *** A failure of the generator ends [get] silently *)

Definition no_stop (l : label) : Prop :=
  match l with CallStop _ => False | _ => True end.

Lemma task_step_event w s w' s' :
  task_step w s = Some (w', s') →
  (stop_event s' = stop_event s ∨
   (is_Some (stop_event s) ∧ stop_event s' = Some true)) ∧
  (is_Some (queue s) → is_Some (queue s')) ∧
  (∀ x, w_pc w' = TkExit (Some x) →
     stop_event s = None ∨ stop_event s' = Some true).
Proof.
  unfold task_step. destruct w as [pc c g sd]; simpl. intros H.
  destruct pc; simpl in H.
  all: try destruct (gen_next _) as [[] ?].
  all: repeat case_match; simplify_eq/=.
  all: split; [|split]; eauto; try done.
  all: try (intros ? [=]; eauto; fail).
  all: try (right; split; [by eexists|done]).
  all: intros ? Hr; unfold after_next in Hr; by repeat case_match.
Qed.

Lemma get_step_getter s s' :
  get_step s = Some s' →
  closed s' = closed s ∧ (is_Some (queue s) → is_Some (queue s')) ∧
  match getter s' with
  | GetTest => is_Some (stop_event s)
  | GetTake | GetSleep => getter s = GetTest
  | GetDone (Some _) =>
      (getter s = GetTest ∨ getter s = GetTake) ∧
      (queue s = None ∨ closed s = true)
  | _ => True
  end.
Proof.
  unfold get_step, is_running. intros H.
  repeat case_match; simplify_eq/=; repeat split; eauto.
  all: try (by intros [? [=]]).
Qed.

(** The states of an instance on which [stop] was never called. *)
Record unstopped (s : state) : Prop := Unstopped {
  us_caller : caller s = CallerIdle;
  us_closed : closed s = false;
  us_strays : strays s = [];
  us_queue : is_Some (stop_event s) → is_Some (queue s);
  us_event : threads s ≠ [] → is_Some (stop_event s);
  us_getter :
    match getter s with
    | GetTest | GetTake | GetSleep => is_Some (stop_event s)
    | GetDone (Some _) => False
    | _ => True
    end;
  us_failed :
    Forall (fun w => ∀ x, w_pc w = TkExit (Some x) → stop_event s = Some true)
      (threads s)
}.

Lemma step_unstopped l s s' :
  no_stop l → step l s = Some s' → unstopped s → unstopped s'.
Proof.
  intros Hl H [U1 U2 U3 U4 U5 U6 U7].
  destruct l as [n c|i|i| |tmo0| |]; simpl in H; try done.
  - unfold start in H. rewrite U1 in H.
    destruct (threads s); [|done].
    pose proof (spawn_workers (use_multiprocessing s) (generator s) c (random_seed s) n)
      as [_ Hws].
    destruct (spawn _ _ _ _ _) as [ws sd]. simplify_eq.
    split; simpl; try done; try (by eexists).
    + by destruct (getter s) as [| | | |[]].
    + eapply Forall_impl; [exact Hws|]. intros w [Hw _] x. by rewrite Hw.
  - unfold work in H. destruct (threads s !! i) as [w|] eqn:Hw; [|done].
    destruct (task_step w s) as [[w' s1]|] eqn:Hs; [|done]. simplify_eq.
    destruct (task_step_cases _ _ _ _ Hs)
      as (_ & _ & Hth & Hst & Hc & Hcl & Hg & _).
    destruct (task_step_event _ _ _ _ Hs) as (He & Hq & Hx).
    assert (is_Some (stop_event s)) as Hsome.
    { apply U5. intros Hnil. by rewrite Hnil in Hw. }
    assert (is_Some (stop_event s1)) as Hsome1.
    { destruct He as [->|[_ ->]]; [done|by eexists]. }
    split; simpl; rewrite ?Hc, ?Hcl, ?Hst, ?Hg, ?Hth; try done.
    + auto.
    + by destruct (getter s) as [| | | |[]].
    + apply Forall_insert.
      * eapply Forall_impl; [exact U7|]. intros w0 Hw0 x Hx0.
        specialize (Hw0 x Hx0). destruct He as [->|[_ ->]]; done.
      * intros x Hx'. destruct (Hx x Hx') as [Hn|]; [|done].
        destruct Hsome as [? Hsome]. congruence.
  - unfold work_stray in H. by rewrite U3 in H.
  - destruct (get_step_cases _ _ H) as (_ & Hth & Hst & Hc & He & _ & _ & _).
    destruct (get_step_getter _ _ H) as (Hcl & Hq & Hg).
    split; rewrite ?Hth, ?Hst, ?Hc, ?He, ?Hcl; try done.
    + auto.
    + destruct (getter s') as [| | | |[]]; try done.
      * by rewrite Hg in U6.
      * by rewrite Hg in U6.
      * destruct Hg as [Hg [Hn|Hn]]; [|congruence].
        assert (is_Some (stop_event s)) as Hs
          by (destruct Hg as [Hg|Hg]; by rewrite Hg in U6).
        apply U4 in Hs as [? ?]. congruence.
  - unfold stop_by_caller in H. by rewrite U1 in H.
  - unfold stop_by_caller in H. by rewrite U1 in H.
Qed.

(** X10: as long as [stop] is not called, the generator returned by [get] never
    raises; and once a worker has died of an exception, of the data generator
    for instance, [is_running] is false: [get] ends at its next loop test,
    and the exception stays in the worker. *)
Theorem get_ends_silently g mp sd ls s :
  Forall no_stop ls → run ls (init g mp sd) = Some s →
  (∀ x, getter s ≠ GetDone (Some x)) ∧
  (∀ w x, w ∈ threads s → w_pc w = TkExit (Some x) → is_running s = false).
Proof.
  intros Hls Hrun.
  destruct (run_invariant_on no_stop unstopped step_unstopped ls _ _ Hls Hrun)
    as [U1 U2 U3 U4 U5 U6 U7].
  { split; simpl; try done. }
  split.
  - intros x Hx. by rewrite Hx in U6.
  - intros w x Hin Hx. unfold is_running.
    by rewrite (proj1 (Forall_forall _ _) U7 w Hin x Hx).
Qed.


(** *** One thread worker keeps the order of the generator *)

(** The outputs of the first [k] calls of [next], a call that raises
    contributing none. *)
Fixpoint outputs (k : nat) (g : G) : list (option Item) :=
  match k with
  | 0 => []
  | S k' =>
      match gen_next g with
      | (Ok v, g') => v :: outputs k' g'
      | (Err _, g') => outputs k' g'
      end
  end.

Definition output_of (r : res E (option Item)) : list (option Item) :=
  match r with Ok v => [v] | Err _ => [] end.

Lemma gen_after_S k g : gen_after (S k) g = gen_after k (gen_next g).2.
Proof.
  unfold gen_after. induction k as [|k IH]; [done|].
  simpl in *. by rewrite IH.
Qed.

Lemma outputs_unfold k g :
  outputs (S k) g =
  match gen_next g with
  | (Ok v, g') => v :: outputs k g'
  | (Err _, g') => outputs k g'
  end.
Proof. done. Qed.

Lemma outputs_S k g :
  outputs (S k) g = outputs k g ++ output_of (gen_next (gen_after k g)).1.
Proof.
  revert g. induction k as [|k IH]; intros g.
  - simpl. destruct (gen_next g) as [[v|x] g']; simpl; by rewrite ?app_nil_r.
  - rewrite gen_after_S, (outputs_unfold (S k) g), (outputs_unfold k g).
    destruct (gen_next g) as [[v|x] g']; cbn [snd]; by rewrite IH.
Qed.

(** The output a worker has produced and not yet put. *)
Definition hand (w : worker) : list (option Item) :=
  match w_pc w with TkPut v => [v] | _ => [] end.

Definition present (l : list (option Item)) : list Item := omap id l.

Lemma task_step_output w s w' s' :
  task_step w s = Some (w', s') →
  w_gen w = None → use_multiprocessing s = false → closed s = false →
  w_gen w' = None ∧ closed s' = closed s ∧
  ((generator s' = generator s ∧ queue s' = queue s ∧ hand w' = hand w) ∨
   (generator s' = (gen_next (generator s)).2 ∧ queue s' = queue s ∧
    hand w = [] ∧ hand w' = output_of (gen_next (generator s)).1) ∨
   (generator s' = generator s ∧ hand w' = [] ∧
    ∃ v, hand w = [v] ∧
      match queue s with
      | Some q => queue s' = Some (q_put v q)
      | None => queue s' = None
      end)).
Proof.
  unfold task_step, hand. destruct w as [pc c g sd]; simpl.
  intros H -> Hmp Hcl. rewrite Hmp, Hcl in H.
  destruct pc; simpl in H.
  all: try destruct (gen_next (generator s)) as [[v|x] g'] eqn:Hn.
  all: repeat case_match; simplify_eq/=.
  all: split; [done|]; split; [done|].
  all: try (left; done).
  all: try (right; left; done).
  all: right; right; split; [done|]; split; [done|]; eexists; split; [done|].
  all: done.
Qed.

Record in_order (g0 : G) (s : state) : Prop := InOrder {
  io_mode : use_multiprocessing s = false;
  io_closed : closed s = false;
  io_single : ∃ w, threads s ++ strays s = [w] ∧ w_gen w = None ∧
    ∃ k rest, generator s = gen_after k g0 ∧
      present (outputs k g0) = yielded s ++ rest ∧
      ∀ q, queue s = Some q → rest = present (items q ++ hand w)
}.

Lemma single_lookup {A} (l1 l2 : list A) i w x :
  l1 ++ l2 = [w] → l1 !! i = Some x → l1 = [w] ∧ l2 = [] ∧ i = 0 ∧ x = w.
Proof.
  intros Happ Hi. destruct l1 as [|a l1]; [by destruct i|].
  simpl in Happ. injection Happ as -> Happ.
  apply app_nil in Happ as [-> ->]. by destruct i; simplify_eq/=.
Qed.

Lemma single_lookup_r {A} (l1 l2 : list A) i w x :
  l1 ++ l2 = [w] → l2 !! i = Some x → l1 = [] ∧ l2 = [w] ∧ i = 0 ∧ x = w.
Proof.
  intros Happ Hi. destruct l1 as [|a l1].
  - simpl in Happ. subst l2. by destruct i; simplify_eq/=.
  - simpl in Happ. injection Happ as -> Happ.
    apply app_nil in Happ as [-> ->]. by destruct i.
Qed.

Lemma worker_step_in_order g0 w s w' s1 :
  task_step w s = Some (w', s1) →
  use_multiprocessing s = false → closed s = false → w_gen w = None →
  (∃ k rest, generator s = gen_after k g0 ∧
     present (outputs k g0) = yielded s ++ rest ∧
     ∀ q, queue s = Some q → rest = present (items q ++ hand w)) →
  w_gen w' = None ∧
  ∃ k rest, generator s1 = gen_after k g0 ∧
    present (outputs k g0) = yielded s1 ++ rest ∧
    ∀ q, queue s1 = Some q → rest = present (items q ++ hand w').
Proof.
  intros Hs Hmp Hcl Hg (k & rest & Hk & Hout & Hrest).
  destruct (task_step_output _ _ _ _ Hs Hg Hmp Hcl) as (Hg' & _ & Hc).
  destruct (task_step_cases _ _ _ _ Hs) as (_ & _ & _ & _ & _ & _ & _ & Hy & _).
  split; [done|]. rewrite Hy.
  destruct Hc as [(Hgen & Hq & Hh)|[(Hgen & Hq & Hh & Hh')|(Hgen & Hh' & v & Hh & Hq)]].
  - exists k, rest. rewrite Hgen, Hq, Hh. done.
  - exists (S k), (rest ++ present (output_of (gen_next (generator s)).1)).
    split; [|split].
    + rewrite Hgen, Hk. done.
    + rewrite outputs_S. unfold present in *. rewrite omap_app, Hout, <-Hk.
      by rewrite app_assoc.
    + rewrite Hq. intros q Hq'. rewrite (Hrest q Hq'), Hh, Hh'.
      unfold present. by rewrite !omap_app, app_nil_r.
  - exists k, rest. split; [congruence|]. split; [done|].
    destruct (queue s) as [q0|] eqn:Hq0.
    + rewrite Hq. intros q [= <-]. rewrite (Hrest q0 eq_refl), Hh, Hh'.
      unfold q_put. simpl. by rewrite app_nil_r.
    + rewrite Hq. done.
Qed.

Lemma step_in_order g0 l s s' :
  not_start l → step l s = Some s' → in_order g0 s → in_order g0 s'.
Proof.
  intros Hl H [O1 O2 (w & Hw & Hg & Hinv)].
  destruct l as [n c|i|i| |tmo0| |]; simpl in H; try done.
  - unfold work in H. destruct (threads s !! i) as [w0|] eqn:Hi; [|done].
    destruct (single_lookup _ _ _ _ _ Hw Hi) as (Ht & Hst & -> & ->).
    destruct (task_step w s) as [[w' s1]|] eqn:Hs; [|done]. simplify_eq.
    destruct (task_step_cases _ _ _ _ Hs)
      as (_ & Hm & Hth & Hstr & _ & Hcl & _ & _ & _ & _).
    destruct (worker_step_in_order g0 _ _ _ _ Hs O1 O2 Hg Hinv) as (Hg' & Hinv').
    split; simpl; [congruence..|].
    exists w'. rewrite Hth, Hstr, Ht, Hst. done.
  - unfold work_stray in H. destruct (strays s !! i) as [w0|] eqn:Hi; [|done].
    destruct (single_lookup_r _ _ _ _ _ Hw Hi) as (Ht & Hst & -> & ->).
    destruct (task_step w s) as [[w' s1]|] eqn:Hs; [|done]. simplify_eq.
    destruct (task_step_cases _ _ _ _ Hs)
      as (_ & Hm & Hth & Hstr & _ & Hcl & _ & _ & _ & _).
    destruct (worker_step_in_order g0 _ _ _ _ Hs O1 O2 Hg Hinv) as (Hg' & Hinv').
    split; simpl; [congruence..|].
    exists w'. rewrite Hth, Hstr, Ht, Hst. done.
  - destruct (get_step_cases _ _ H) as (Hm & Hth & Hst & _ & _ & Hgen & _ & _).
    destruct (get_step_getter _ _ H) as (Hcl & _ & _).
    split; [congruence..|]. exists w. rewrite Hth, Hst.
    split; [done|]. split; [done|].
    destruct Hinv as (k & rest & Hk & Hout & Hrest).
    unfold get_step in H. destruct (getter s) eqn:Hget.
    + destruct (is_running s); simplify_eq; by exists k, rest.
    + destruct (queue s) as [q|] eqn:Hq;
        [rewrite O2 in H; destruct (q_empty q)|]; simplify_eq;
        exists k, rest; simpl; by rewrite Hq.
    + destruct (queue s) as [q|] eqn:Hq;
        [|simplify_eq; exists k, rest; simpl; by rewrite Hq].
      rewrite O2 in H. destruct (items q) as [|v its] eqn:Hits; [done|].
      specialize (Hrest q eq_refl). rewrite Hits in Hrest.
      destruct v as [x|]; simplify_eq/=.
      * exists k, (present (its ++ hand w)). split; [done|].
        split; [by rewrite <-app_assoc|]. by intros ? [= <-].
      * exists k, (present (its ++ hand w)). split; [done|].
        split; [done|]. by intros ? [= <-].
    + simplify_eq. by exists k, rest.
    + done.
  - unfold call_stop in H. destruct (caller s); simplify_eq.
    split; simpl; [done..|]. by exists w.
  - unfold stop_by_caller in H. destruct (caller s) as [|pc tmo]; [done|].
    unfold stop_step in H. rewrite O1 in H.
    destruct Hinv as (k & rest & Hk & Hout & Hrest).
    destruct pc; simpl in H; repeat case_match; simplify_eq/=.
    all: split; simpl; try done.
    all: try (exists w; split; [done|]; split; [done|]; by exists k, rest).
    exists w. split.
    { apply app_singleton in Hw as [[-> ->]|[-> ->]]; done. }
    split; [done|]. by exists k, rest.
  - unfold stop_by_caller in H. destruct (caller s) as [|pc tmo]; [done|].
    unfold stop_step in H. rewrite O1 in H.
    destruct Hinv as (k & rest & Hk & Hout & Hrest).
    destruct pc; simpl in H; repeat case_match; simplify_eq/=.
    all: split; simpl; try done.
    all: exists w; split; [done|]; split; [done|]; by exists k, rest.
Qed.

(** X11: with one thread worker nothing is lost, duplicated or reordered: what
    [get] has yielded, followed by the outputs in the queue and the one the
    worker is about to put, [None] outputs left out, is what the first [k]
    calls of [next] on the generator returned, in that order. *)
Theorem one_thread_worker_keeps_order g0 sd c ls s :
  Forall not_start ls →
  run (Start 1 c :: ls) (init g0 false sd) = Some s →
  ∃ k, generator s = gen_after k g0 ∧
    yielded s `prefix_of` present (outputs k g0) ∧
    ∀ q, queue s = Some q → ∃ w, threads s ++ strays s = [w] ∧
      present (outputs k g0) = yielded s ++ present (items q ++ hand w).
Proof.
  intros Hls Hrun.
  destruct (start 1 c (init g0 false sd)) as [s0|] eqn:Hs0.
  2: { unfold start in Hs0. simpl in Hs0. done. }
  rewrite (run_cons_step (Start 1 c) _ _ _ Hs0) in Hrun.
  assert (in_order g0 s0) as H0.
  { unfold start in Hs0. simpl in Hs0. simplify_eq.
    split; simpl; [done..|]. eexists. split; [done|]. split; [done|].
    exists 0, []. split; [done|]. split; [done|]. by intros ? [= <-]. }
  destruct (run_invariant_on not_start (in_order g0) (step_in_order g0)
              ls s0 s Hls Hrun H0) as [_ _ (w & Hw & _ & k & rest & Hk & Hout & Hrest)].
  exists k. split; [done|]. split; [by exists rest|].
  intros q Hq. exists w. split; [done|]. by rewrite <-(Hrest q Hq).
Qed.

End DataGenerator.

(** ** A concrete generator *)

(** A generator that counts: its [n]-th output is [n]. *)
Definition count_next (n : nat) : res unit (option nat) * nat := (Ok (Some n), S n).

(** Two thread workers and [max_queue_size = 1]: both workers pass the size
    test on the empty queue, then both produce and put. *)
Definition race_run : list label :=
  [Start 2 1; Work 0; Work 1; Work 0; Work 1; Work 0; Work 1; Work 0; Work 1].

(** C5: the queue of a [GeneratorEnqueuer] with thread workers exceeds
    [max_queue_size].  The queue itself is unbounded and a worker tests
    [qsize() < max_queue_size] before it asks the generator for the next
    output: with [max_queue_size = 1] both workers pass the test on the empty
    queue, and the queue then holds two outputs. *)
Lemma thread_queue_exceeds_capacity :
  ∃ s, run count_next race_run (init 0 false None) = Some s ∧
    items <$> queue s = Some [Some 0; Some 1] ∧ qlen s = 2 ∧
    Forall (fun w => w_cap w = 1%Z) (threads s).
Proof.
  destruct (run count_next race_run (init 0 false None)) as [s|] eqn:Hr;
    vm_compute in Hr; [|discriminate].
  exists s. split; [reflexivity|]. injection Hr as <-.
  split; [reflexivity|]. split; [reflexivity|]. by repeat constructor.
Qed.


(** ** The theorems above on the counting generator *)

Lemma start_seeds_workers_witness :
  ∃ s', start 3 2 (init (Item:=nat) (E:=unit) 0 true (Some 7%Z)) = Some s' ∧
    length (threads s') = 3 ∧
    w_seed <$> threads s' = [Some (Some 7%Z); Some (Some 8%Z); Some (Some 9%Z)] ∧
    random_seed s' = Some 10%Z ∧
    NoDup (w_seed <$> threads s').
Proof.
  destruct (start 3 2 (init (Item:=nat) (E:=unit) 0 true (Some 7%Z)))
    as [s'|] eqn:Hs; [|vm_compute in Hs; discriminate].
  exists s'. split; [reflexivity|].
  assert (use_multiprocessing (init (Item:=nat) (E:=unit) 0 true (Some 7%Z)) = true →
          ∀ r i, random_seed (init (Item:=nat) (E:=unit) 0 true (Some 7%Z)) = Some r →
                 i < 3 → seed_ok (r + Z.of_nat i)) as Hok.
  { intros _ r i [= <-] Hi. unfold seed_ok.
    change (2 ^ 32)%Z with 4294967296%Z. lia. }
  destruct (start_seeds_workers 3 2 _ s' Hok Hs) as (Hlen & Hmp & _).
  destruct (Hmp eq_refl) as (H1 & H2 & H3).
  split; [exact Hlen|]. split; [exact H1|]. split; [exact H2|].
  apply H3. by eexists.
Defined.

(** One process worker produces an output and puts it; the consumer takes
    it. *)
Definition served_run : list label :=
  [Start 1 2; Work 0; Work 0; Work 0; Work 0; Take; Take; Take].

Lemma process_workers_replay_generator_witness :
  ∃ s, run count_next served_run (init 0 true None) = Some s ∧
    generator s = 0 ∧
    Forall (fun w => ∃ k, w_gen w = Some (gen_after count_next k 0))
      (threads s ++ strays s).
Proof.
  destruct (run count_next served_run (init 0 true None)) as [s|] eqn:Hr;
    [|vm_compute in Hr; discriminate].
  exists s. split; [reflexivity|].
  exact (process_workers_replay_generator count_next 0 None served_run s Hr).
Defined.

(** [stop()] without timeout after the same run, the thread worker leaving
    its loop when it sees the event. *)
Definition stopped_run : list label :=
  served_run ++ [CallStop None; StopStep; Work 0] ++ stop_labels.

Lemma stop_outlives_no_worker_witness :
  ∃ s, run count_next stopped_run (init 0 false None) = Some s ∧
    Forall (dead (G:=nat) (Item:=nat) (E:=unit)) (strays s).
Proof.
  destruct (run count_next stopped_run (init 0 false None)) as [s|] eqn:Hr;
    [|vm_compute in Hr; discriminate].
  exists s. split; [reflexivity|].
  refine (proj1 (stop_outlives_no_worker count_next 0 false None stopped_run s _ Hr)).
  right. by repeat constructor.
Defined.

Lemma get_ends_silently_witness :
  ∃ s, run count_next served_run (init 0 false None) = Some s ∧
    ∀ x, getter s ≠ GetDone (Some x).
Proof.
  destruct (run count_next served_run (init 0 false None)) as [s|] eqn:Hr;
    [|vm_compute in Hr; discriminate].
  exists s. split; [reflexivity|].
  refine (proj1 (get_ends_silently count_next 0 false None served_run s _ Hr)).
  by repeat constructor.
Defined.

(** A generator whose odd outputs are [None]. *)
Definition gap_next (n : nat) : res unit (option nat) * nat :=
  (Ok (if Nat.even n then Some n else None), S n).

Definition produce : list label := [Work 0; Work 0; Work 0; Work 0].
Definition consume : list label := [Take; Take; Take].

(** One thread worker: outputs 0 and [None] are put, 0 is yielded, [None]
    skipped, outputs 2 and [None] are put, 2 is yielded, and the worker holds
    output 4. *)
Definition mixed_run : list label :=
  produce ++ produce ++ consume ++ consume ++ produce ++ produce ++ consume
    ++ [Work 0; Work 0; Work 0].

Lemma one_thread_worker_keeps_order_witness :
  ∃ s, run gap_next (Start 1 2 :: mixed_run) (init 0 false None) = Some s ∧
    yielded s = [0; 2] ∧ items <$> queue s = Some [None] ∧
    hand <$> threads s = [[Some 4]] ∧
    ∃ k, generator s = gen_after gap_next k 0 ∧
      yielded s `prefix_of` present (outputs gap_next k 0) ∧
      ∀ q, queue s = Some q → ∃ w, threads s ++ strays s = [w] ∧
        present (outputs gap_next k 0) = yielded s ++ present (items q ++ hand w).
Proof.
  destruct (run gap_next (Start 1 2 :: mixed_run) (init 0 false None))
    as [s|] eqn:Hr; [|vm_compute in Hr; discriminate].
  exists s. split; [reflexivity|].
  split; [vm_compute in Hr; injection Hr as <-; reflexivity|].
  split; [vm_compute in Hr; injection Hr as <-; reflexivity|].
  split; [vm_compute in Hr; injection Hr as <-; reflexivity|].
  refine (one_thread_worker_keeps_order gap_next 0 None 2 mixed_run s _ Hr).
  by repeat constructor.
Defined.

End Generator.

(** * Properties stated for both enqueuers *)

(** C9: on a freshly constructed instance of either class [is_running]
    returns false, and on no state of an [OrderedEnqueuer] does it raise: the
    missing event is tested before [is_set] is called on it. *)
Theorem fresh_instance_is_not_running :
  (∀ {Seq Batch E : Type} (sq : Seq) mp sh e0 me,
     Ordered.is_running (Ordered.init (Batch:=Batch) (E:=E) sq mp sh e0 me)
     = Ok false) ∧
  (∀ {Seq Batch E : Type} (s : @Ordered.state Seq Batch E),
     Ordered.is_running s = Ok (bool_decide (Ordered.stop_signal s = Some false))) ∧
  (∀ {G Item E : Type} (g : G) mp sd,
     Generator.is_running (Generator.init (Item:=Item) (E:=E) g mp sd) = false) ∧
  (∀ {G Item E : Type} (s : @Generator.state G Item E),
     Generator.is_running s = bool_decide (Generator.stop_event s = Some false)).
Proof.
  split; [done|]. split; [|split; [done|]].
  - intros Seq Batch E s. unfold Ordered.is_running.
    by destruct (Ordered.stop_signal s) as [[]|].
  - intros G Item E s. unfold Generator.is_running.
    by destruct (Generator.stop_event s) as [[]|].
Qed.

(** C3: [GeneratorEnqueuer.stop] on an instance that was never started, or
    whose previous [stop] has returned, runs through its statements and
    leaves the instance as it was.  [OrderedEnqueuer.stop] on an instance
    that was never started raises [AttributeError] at its first statement,
    [self.stop_signal.set()], the event being [None]; on an instance whose
    pool is closed and whose run thread has exited it returns normally. *)
Theorem stop_before_start_and_twice :
  (∀ {Seq Batch E : Type} (seq_len : Seq → nat)
     (get_batch : Seq → nat → nat → res E (option Batch))
     (on_epoch_end : Seq → Seq) sq mp sh e0 me timeout,
     ∃ s, Ordered.run seq_len get_batch on_epoch_end
            [Ordered.CallStop timeout; Ordered.StopByCaller]
            (Ordered.init sq mp sh e0 me) = Some s ∧
       Ordered.caller s = Ordered.CallerRaised AttributeError ∧
       Ordered.stop_signal s = None ∧ Ordered.shared_sequence s = Ordered.Absent) ∧
  (∀ {Seq Batch E : Type} (seq_len : Seq → nat)
     (get_batch : Seq → nat → nat → res E (option Batch))
     (on_epoch_end : Seq → Seq) timeout s q b x,
     Ordered.caller s = Ordered.CallerIdle → Ordered.stop_signal s = Some b →
     Ordered.queue s = Some q → Ordered.executor s = Some Ordered.PoolClosed →
     Ordered.all_done s = true → Ordered.run_thread s = Some (Ordered.PcExit x) →
     ∃ s', Ordered.run seq_len get_batch on_epoch_end
             (Ordered.CallStop timeout :: Ordered.stop_labels) s = Some s' ∧
       Ordered.caller s' = Ordered.CallerIdle ∧
       Ordered.stop_signal s' = Some true) ∧
  (∀ {G Item E : Type} (gen_next : G → res E (option Item) * G) g mp sd timeout,
     Generator.run gen_next (Generator.CallStop timeout :: Generator.stop_labels)
       (Generator.init g mp sd) = Some (Generator.init g mp sd)) ∧
  (∀ {G Item E : Type} (gen_next : G → res E (option Item) * G) g mp sd ls s s' timeout,
     Generator.run gen_next ls (Generator.init g mp sd) = Some s →
     Generator.step gen_next Generator.StopStep s = Some s' →
     Generator.caller s' = Generator.CallerIdle →
     Generator.run gen_next (Generator.CallStop timeout :: Generator.stop_labels) s'
     = Some s').
Proof.
  split; [|split; [|split]].
  - intros. eexists. split; [reflexivity|]. done.
  - intros Seq Batch E seq_len get_batch on_epoch_end timeout s q b x
      H1 H2 H3 H4 H5 H6.
    destruct (Ordered.stop_again seq_len get_batch on_epoch_end timeout s q b x
                H1 H2 H3 H4 H5 H6) as (s' & Hr & Hc & Hs & _).
    by exists s'.
  - intros. by apply Generator.stop_noop.
  - intros G Item E gen_next g mp sd ls s s' timeout Hrun Hs Hc.
    apply Generator.stop_noop. by eapply Generator.stop_returns_stopped.
Qed.

(** The bounds that do hold: with [n >= 1] workers and capacity [c >= 1], the queue of
    an [OrderedEnqueuer] never holds more than [c] futures, its [put] waits
    while the queue is full and its [get] waits while the queue is empty;
    the queue of a process-mode [GeneratorEnqueuer] never holds more than
    [c] outputs; the queue of a thread-mode [GeneratorEnqueuer] is unbounded
    and guarded only by a size test made before the output is produced, so
    it never holds more than [c + n - 1] outputs; and [get] of a
    [GeneratorEnqueuer] waits on an empty queue. *)
Theorem queue_capacity {Seq Batch E G Item E' : Type}
    (seq_len : Seq → nat) (get_batch : Seq → nat → nat → res E (option Batch))
    (on_epoch_end : Seq → Seq) (gen_next : G → res E' (option Item) * G)
    (n : nat) (c : Z) :
  0 < n → (1 ≤ c)%Z →
  (∀ sq mp sh e0 me ls s q,
     Ordered.run seq_len get_batch on_epoch_end (Ordered.Start n c :: ls)
       (Ordered.init sq mp sh e0 me) = Some s →
     Ordered.queue s = Some q →
     maxsize q = c ∧ (Z.of_nat (length (items q)) ≤ c)%Z ∧
     (∀ f rest, Ordered.run_thread s = Some (Ordered.PcPut f rest) →
        Z.of_nat (length (items q)) = c →
        Ordered.step seq_len get_batch on_epoch_end Ordered.Run s = None) ∧
     (Ordered.gen s = Ordered.GenGet → items q = [] →
        Ordered.step seq_len get_batch on_epoch_end Ordered.Next s = None)) ∧
  (∀ g sd ls s, Forall Generator.not_start ls →
     Generator.run gen_next (Generator.Start n c :: ls) (Generator.init g true sd)
     = Some s →
     (Z.of_nat (Generator.qlen s) ≤ c)%Z) ∧
  (∀ g sd ls s, Forall Generator.not_start ls →
     Generator.run gen_next (Generator.Start n c :: ls) (Generator.init g false sd)
     = Some s →
     (Z.of_nat (Generator.qlen s) ≤ c + Z.of_nat n - 1)%Z) ∧
  (∀ (s : @Generator.state G Item E') q,
     Generator.getter s = Generator.GetTake → Generator.queue s = Some q →
     Generator.closed s = false → items q = [] →
     Generator.step gen_next Generator.Take s = None).
Proof.
  intros Hn Hc. split; [|split; [|split]].
  - intros sq mp sh e0 me ls s q Hrun Hq.
    destruct (Ordered.started_queue_bound seq_len get_batch on_epoch_end
                n c sq mp sh e0 me ls s q) as [Hm Hle]; try done; [lia|].
    split; [done|]. split; [done|]. split.
    + intros f rest Ht Hfull. eapply Ordered.put_waits; eauto; lia.
    + intros Hg Hi. by eapply Ordered.get_waits.
  - intros g sd ls s Hls Hrun. by eapply Generator.process_queue_bound.
  - intros g sd ls s Hls Hrun.
    pose proof (Generator.thread_queue_bound gen_next g sd n c ls s Hc Hls Hrun).
    lia.
  - intros s q. apply Generator.take_waits.
Qed.

Lemma queue_capacity_witness :
  0 < 2 ∧ (1 ≤ 1)%Z ∧
  ∃ s, Generator.run Generator.count_next Generator.race_run
         (Generator.init 0 false None) = Some s ∧
    (Z.of_nat (Generator.qlen s) ≤ 1 + Z.of_nat 2 - 1)%Z.
Proof.
  split; [lia|]. split; [lia|].
  destruct (Generator.run Generator.count_next Generator.race_run
              (Generator.init 0 false None)) as [s|] eqn:Hr;
    [|vm_compute in Hr; discriminate].
  exists s. split; [reflexivity|].
  refine (proj1 (proj2 (proj2 (queue_capacity Ordered.range_len Ordered.range_batch
    Ordered.range_epoch_end Generator.count_next 2 1 _ _))) 0 None _ s _ Hr).
  - lia.
  - lia.
  - by repeat constructor.
Defined.
